(** * A shallow embedding of the JSON Patch engine [jsonpatch.go]

    The Go package applies RFC 6902 operations to a decoded JSON document.
    The document is a graph of Go values: [map[string]any] and [[]any] are
    references into shared storage, so the embedding keeps an explicit heap
    and runs the mutating code in a state monad whose results distinguish
    a returned [error] from a run-time panic.

    Layout: definitions (strings and pointers, index grammar, values and
    heap, slices, navigator, mutators, operations and the orchestrator),
    then the lemmas and theorems. *)

From Stdlib Require Import ZArith Ascii String List Lia Bool.
From stdpp Require Import base gmap strings list fin_maps.

Local Open Scope string_scope.
Local Open Scope Z_scope.

(* ===================================================================== *)
(** ** Strings: [strings.NewReplacer], [strings.Split], JSON pointers      *)
(* ===================================================================== *)

(** A Go [string] is a sequence of bytes; [string] is a list of [ascii]. *)

(** The first (old, new) pair, in argument order, whose old string is a
    prefix of [s]: "the old string comparisons are done in argument order". *)
Fixpoint firstMatch (pairs : list (string * string)) (s : string)
  : option (string * string) :=
  match pairs with
  | [] => None
  | (old, new) :: ps =>
      if String.prefix old s then Some (old, new) else firstMatch ps s
  end.

(** The [Replace] method of a [strings.Replacer] for non-empty old
    strings: one pass from
    left to right without overlapping matches.  [skip] counts the bytes of a
    match that are still to be dropped. *)
Fixpoint replaceFrom (pairs : list (string * string)) (skip : nat) (s : string)
  : string :=
  match s with
  | EmptyString => EmptyString
  | String c r =>
      match skip with
      | S k => replaceFrom pairs k r
      | O =>
          match firstMatch pairs s with
          | Some (old, new) =>
              new +:+ replaceFrom pairs (String.length old - 1) r
          | None => String c (replaceFrom pairs 0 r)
          end
      end
  end.

Definition Replace (pairs : list (string * string)) (s : string) : string :=
  replaceFrom pairs 0 s.

(** [var unescapeReplace = strings.NewReplacer("~1", "/", "~0", "~")] *)
Definition unescapeReplace : list (string * string) :=
  [("~1", "/"); ("~0", "~")].

(** [func unescapePath(path string) string] *)
Definition unescapePath (path : string) : string :=
  Replace unescapeReplace path.

(** [strings.ReplaceAll(s, old, new)] for a non-empty [old]. *)
Definition ReplaceAll (s old new : string) : string :=
  Replace [(old, new)] s.

(** The decoding as the specification words it: "first replacing [~1] by
    [/] then [~0] by [~]", two passes over the whole segment. *)
Definition unescape_two_pass (s : string) : string :=
  ReplaceAll (ReplaceAll s "~1" "/") "~0" "~".

(** Modelled from the spec: the encoding of a segment, which the source does
    not contain ("inverse on any re-encoding, not exercised by this core"):
    [~] becomes [~0] and [/] becomes [~1]. *)
Fixpoint escapePath (s : string) : string :=
  match s with
  | EmptyString => EmptyString
  | String c r =>
      if Ascii.eqb c "~" then String "~" (String "0" (escapePath r))
      else if Ascii.eqb c "/" then String "~" (String "1" (escapePath r))
      else String c (escapePath r)
  end.

(** [strings.Split(s, sep)] for a one-byte separator: the pieces between
    the separators, [[""]] for the empty string. *)
Fixpoint Split (s : string) (sep : ascii) : list string :=
  match s with
  | EmptyString => [EmptyString]
  | String c r =>
      if Ascii.eqb c sep then EmptyString :: Split r sep
      else match Split r sep with
           | piece :: pieces => String c piece :: pieces
           | [] => [String c EmptyString]
           end
  end.

(** [type JSONPointer struct { origin string }] *)
Record JSONPointer := NewJSONPointer { origin : string }.

Definition IsTheWholeDocument (p : JSONPointer) : bool :=
  String.eqb (origin p) "".

(** [Path]: split on [/], unescape every piece, drop the first one
    ([v[1:]]; [Split] never returns an empty slice). *)
Definition JSONPointer_Path (p : JSONPointer) : list string :=
  tail (map unescapePath (Split (origin p) "/")).

(** [ParentPath]: [nil] for no segment, else [v[:len(v)-1]].  A nil
    [[]string] and an empty one are both the empty list here; the only
    reader of the difference is the first test of [SameParent]. *)
Definition ParentPath (p : JSONPointer) : list string :=
  let v := JSONPointer_Path p in
  match v with
  | [] => []
  | _ => take (length v - 1)%nat v
  end.

(** The loop of [SameParent] over two slices of equal length. *)
Fixpoint sameStrings (a b : list string) : bool :=
  match a, b with
  | x :: a', y :: b' => if String.eqb x y then sameStrings a' b' else false
  | _, _ => true
  end.

(** [SameParent]: both nil gives true (an answer the length test and the
    empty loop give as well), different lengths give false, else the
    segments are compared. *)
Definition SameParent (p o : JSONPointer) : bool :=
  let a := ParentPath p in
  let b := ParentPath o in
  if negb (length a =? length b)%nat then false else sameStrings a b.

Definition LastToken (p : JSONPointer) : string :=
  List.last (JSONPointer_Path p) "".

(** [func (p JSONPointer) Check() error], with the error as its message. *)
Definition JSONPointer_Check (p : JSONPointer) : option string :=
  match origin p with
  | EmptyString => None
  | String c _ =>
      if Ascii.eqb c "/" then None
      else Some "json pointer must start with /"
  end.

(* ===================================================================== *)
(** ** The array index grammar: [regexp], [strconv.Atoi], [ParseArrayIndex] *)
(* ===================================================================== *)

(** The fragment of RE2 syntax the two patterns use.  Both patterns are
    anchored by [^] and [$] (no flag: start and end of the text), so
    [MatchString] is a match of the whole string. *)
Inductive regex : Type :=
| Empty                       (* matches nothing *)
| Eps                         (* the empty string *)
| Chr (c : ascii)             (* one literal byte *)
| Rng (lo hi : ascii)         (* a class [lo-hi] *)
| Cat (r1 r2 : regex)
| Alt (r1 r2 : regex)
| Star (r : regex)
| Opt (r : regex).            (* r? *)

Fixpoint nullable (r : regex) : bool :=
  match r with
  | Empty | Chr _ | Rng _ _ => false
  | Eps | Star _ | Opt _ => true
  | Cat r1 r2 => nullable r1 && nullable r2
  | Alt r1 r2 => nullable r1 || nullable r2
  end.

Definition inRange (lo hi c : ascii) : bool :=
  (N.leb (N_of_ascii lo) (N_of_ascii c) && N.leb (N_of_ascii c) (N_of_ascii hi))%N.

Definition cat (r1 r2 : regex) : regex :=
  match r1 with
  | Empty => Empty
  | Eps => r2
  | _ => Cat r1 r2
  end.

Definition alt (r1 r2 : regex) : regex :=
  match r1, r2 with
  | Empty, _ => r2
  | _, Empty => r1
  | _, _ => Alt r1 r2
  end.

(** The derivative of [r] by the byte [c]. *)
Fixpoint deriv (r : regex) (c : ascii) : regex :=
  match r with
  | Empty | Eps => Empty
  | Chr a => if Ascii.eqb c a then Eps else Empty
  | Rng lo hi => if inRange lo hi c then Eps else Empty
  | Cat r1 r2 =>
      if nullable r1 then alt (cat (deriv r1 c) r2) (deriv r2 c)
      else cat (deriv r1 c) r2
  | Alt r1 r2 => alt (deriv r1 c) (deriv r2 c)
  | Star r1 => cat (deriv r1 c) (Star r1)
  | Opt r1 => deriv r1 c
  end.

Fixpoint MatchString (r : regex) (s : string) : bool :=
  match s with
  | EmptyString => nullable r
  | String c s' => MatchString (deriv r c) s'
  end.

(** [indexRE]: the pattern ^(0|([1-9][0-9]* ))$ (written here with a
    blank after the star). *)
Definition indexRE : regex :=
  Alt (Chr "0") (Cat (Rng "1" "9") (Star (Rng "0" "9"))).

(** [negativeIndexRE]: the same pattern after an optional minus sign,
    ^-?(0|([1-9][0-9]* ))$. *)
Definition negativeIndexRE : regex :=
  Cat (Opt (Chr "-")) indexRE.

(** Go's [int] on the 64-bit platforms: [strconv.IntSize]. *)
Definition intSize : Z := 64.
Definition minInt : Z := - 2 ^ (intSize - 1).
Definition maxInt : Z := 2 ^ (intSize - 1) - 1.

(** Two's-complement wrap-around of [int] arithmetic. *)
Definition wrapInt (z : Z) : Z :=
  (z - minInt) mod 2 ^ intSize + minInt.

Definition isDigit (c : ascii) : bool := inRange "0" "9" c.

Definition digitVal (c : ascii) : Z :=
  Z.of_N (N_of_ascii c) - Z.of_N (N_of_ascii "0").

(** The value of a run of decimal digits, [None] on any other byte. *)
Fixpoint digitsValue (acc : Z) (s : string) : option Z :=
  match s with
  | EmptyString => Some acc
  | String c r =>
      if isDigit c then digitsValue (10 * acc + digitVal c) r else None
  end.

(** The two [strconv.NumError] causes. *)
Inductive NumErr : Type := ErrSyntax | ErrRange.

(** [strconv.Atoi]: an optional sign, then at least one decimal digit and
    nothing else ([ErrSyntax] otherwise); a value that does not fit [int]
    is [ErrRange]. *)
Definition Atoi (s : string) : Z + NumErr :=
  let '(neg, body) :=
    match s with
    | String c r =>
        if Ascii.eqb c "-" then (true, r)
        else if Ascii.eqb c "+" then (false, r)
        else (false, s)
    | EmptyString => (false, s)
    end in
  match body with
  | EmptyString => inr ErrSyntax
  | _ =>
      match digitsValue 0 body with
      | None => inr ErrSyntax
      | Some n =>
          let v := if neg : bool then - n else n in
          if (v <? minInt) || (maxInt <? v) then inr ErrRange else inl v
      end
  end.

(* ===================================================================== *)
(** ** Values, operations and errors                                       *)
(* ===================================================================== *)

(** Heap addresses.  Allocation is by bumping: a new cell goes to the end
    of the heap, and nothing is ever freed (the garbage collector only
    frees what the program can no longer reach). *)
Abbreviation loc := nat (only parsing).

(** The header of a [[]any]: a pointer to the element [off] of the backing
    array [arr], a length and a capacity. *)
Record Slice : Type := mkSlice { arr : loc; off : nat; len : nat; cap : nat }.

(** The dynamic values of [any] that [encoding/json] decodes into:
    [nil], [bool], [float64], [string], [[]any], [map[string]any].  A
    number is only ever copied and compared by this package, so its
    carrier is kept simple.  Slices and maps are references. *)
Inductive any : Type :=
| ANil
| ABool (b : bool)
| ANum (n : Z)
| AStr (s : string)
| ASlice (v : Slice)
| AMap (m : loc).

(** What a heap address holds: the backing array of slices, or the table
    of a map. *)
Inductive cell : Type :=
| CArr (elems : list any)
| CMap (tbl : gmap string any).

(** [type Operation struct]: four optional members; a pointer that is nil
    is [None], so a present [null] value is [Some ANil]. *)
Record Operation : Type := mkOperation {
  OP : option string;
  Path : option string;
  Value : option any;
  From : option string
}.

(** The name [%T] prints for a value. *)
Definition typeName (o : any) : string :=
  match o with
  | ANil => "<nil>"
  | ABool _ => "bool"
  | ANum _ => "float64"
  | AStr _ => "string"
  | ASlice _ => "[]interface {}"
  | AMap _ => "map[string]interface {}"
  end.

(** The errors of the package, one constructor per place that builds one;
    the arguments are the values its format string prints.  A constructor
    with an [error] argument wraps it ([%w]). *)
Inductive error : Type :=
| ErrStop                                       (* var ErrStop *)
| ErrNotExists                                  (* var ErrNotExists *)
| ErrNew (msg : string)                         (* errors.New(msg) *)
| ErrNumError (fn num : string) (e : NumErr)    (* a strconv.NumError *)
| ErrBadIndex (s : string)                      (* "bad array index: %s" *)
| ErrIndexRange (size : Z) (s : string)         (* "array index out of range: size=%d, %s" *)
| ErrCannotVisit (T : string)                   (* "cannot visit type: %T" *)
| ErrBadType (what T : string)                  (* "bad type for <what>: %T" *)
| ErrUnknownOperation (op : string)             (* "unknown operation: %s" *)
| ErrInvalid (err : error) (op : Operation)     (* "%w: %+v" *)
| ErrPathNotExists (path : string) (err : error) (* "path not exists: %s, err=%w" *)
| ErrOperationStopped (desc T : string) (err : error)
                                 (* "operation stopped: %s ext=%T, err=%w" *)
| ErrOperationFailed (desc T : string) (err : error).
                                 (* "operation failed: %s ext=%T, err=%w" *)

#[global] Instance NumErr_eq_dec : EqDecision NumErr.
Proof. solve_decision. Defined.
#[global] Instance Slice_eq_dec : EqDecision Slice.
Proof. solve_decision. Defined.
#[global] Instance any_eq_dec : EqDecision any.
Proof. solve_decision. Defined.
#[global] Instance Operation_eq_dec : EqDecision Operation.
Proof. solve_decision. Defined.
#[global] Instance error_eq_dec : EqDecision error.
Proof. solve_decision. Defined.

(** [errors.Unwrap] *)
Definition Unwrap (err : error) : option error :=
  match err with
  | ErrInvalid e _ | ErrPathNotExists _ e
  | ErrOperationStopped _ _ e | ErrOperationFailed _ _ e => Some e
  | _ => None
  end.

(** [errors.Is(err, target)]: [err] or an error it wraps is [target]. *)
Fixpoint errorsIs (err target : error) : bool :=
  if bool_decide (err = target) then true
  else match err with
       | ErrInvalid e _ | ErrPathNotExists _ e
       | ErrOperationStopped _ _ e | ErrOperationFailed _ _ e =>
           errorsIs e target
       | _ => false
       end.

(** The two flags of [type Patch struct] that the engine reads (the JSON
    formatting members only concern the byte-level entry point). *)
Record Options : Type := mkOptions {
  StrictPathExists : bool;
  SupportNegativeArrayIndex : bool
}.

(** The final bounds check of [ParseArrayIndex]. *)
Definition checkBounds (size : Z) (s : string) (i : Z) : Z + error :=
  if (i <? 0) || (size <? i) then inr (ErrIndexRange size s) else inl i.

(** [func (p *Patch) ParseArrayIndex(size int, s string) (i int, err error)] *)
Definition ParseArrayIndex (p : Options) (size : Z) (s : string) : Z + error :=
  if String.eqb s "-" then
    if size =? 0 then inl 0 else inl size
  else if SupportNegativeArrayIndex p then
    if negb (MatchString negativeIndexRE s) then inr (ErrBadIndex s)
    else match Atoi s with
         | inr e => inr (ErrNumError "Atoi" s e)
         | inl i =>
             let i := if i <? 0 then wrapInt (size + i) else i in
             checkBounds size s i
         end
  else
    if negb (MatchString indexRE s) then inr (ErrBadIndex s)
    else match Atoi s with
         | inr e => inr (ErrNumError "Atoi" s e)
         | inl i =>
             (* [if i < 0 { return }]: the named results, [i] and a nil error *)
             if i <? 0 then inl i else checkBounds size s i
         end.

(* ===================================================================== *)
(** ** The heap and the effect monad                                       *)
(* ===================================================================== *)

(** The state a call works on: the variable the document pointer [o *any]
    points to, and the heap its slices and maps live in. *)
Record state : Type := mkState { doc : any; heap : list cell }.

(** Run-time panics.  The last two cannot happen in Go and only make the
    model total: an address without the expected cell, and recursion that
    has used up its fuel. *)
Inductive panic : Type :=
| IndexOutOfRange (i : Z) (n : nat)     (* index out of range [i] with length n *)
| SliceBounds (hi : Z) (c : nat)        (* slice bounds out of range [:hi] with capacity c *)
| NilDereference                        (* nil pointer dereference *)
| BadPointer
| OutOfFuel.

Inductive outcome (A : Type) : Type :=
| Ok (a : A)
| Err (e : error)
| Panic (p : panic).
Arguments Ok {A} a.
Arguments Err {A} e.
Arguments Panic {A} p.

(** A computation: it reads and writes the state and ends with a value,
    a returned error or a panic. *)
Definition M (A : Type) : Type := state → outcome A * state.

Definition ret {A} (a : A) : M A := λ st, (Ok a, st).

Definition bind {A B} (m : M A) (k : A → M B) : M B :=
  λ st, match m st with
        | (Ok a, st') => k a st'
        | (Err e, st') => (Err e, st')
        | (Panic p, st') => (Panic p, st')
        end.

Notation "x <- m ;; k" := (bind m (λ x, k))
  (at level 100, m at next level, right associativity).
Notation "m ;; k" := (bind m (λ _, k))
  (at level 100, right associativity).

(** [return err] *)
Definition fail {A} (e : error) : M A := λ st, (Err e, st).

Definition throw {A} (p : panic) : M A := λ st, (Panic p, st).

(** The result of a call together with its error, as [v, err := f()]
    receives them: a returned error becomes a value the caller tests. *)
Definition attempt {A} (m : M A) : M (A + error) :=
  λ st, match m st with
        | (Ok a, st') => (Ok (inl a), st')
        | (Err e, st') => (Ok (inr e), st')
        | (Panic p, st') => (Panic p, st')
        end.

(** A result computed without the state. *)
Definition lift {A} (r : A + error) : M A :=
  match r with inl a => ret a | inr e => fail e end.

(** [*o] and [*o = n] *)
Definition getDoc : M any := λ st, (Ok (doc st), st).
Definition setDoc (n : any) : M unit :=
  λ st, (Ok tt, mkState n (heap st)).

Definition loadArr (a : loc) : M (list any) :=
  λ st, match heap st !! a with
        | Some (CArr xs) => (Ok xs, st)
        | _ => (Panic BadPointer, st)
        end.

Definition storeArr (a : loc) (xs : list any) : M unit :=
  λ st, match heap st !! a with
        | Some (CArr _) => (Ok tt, mkState (doc st) (<[a := CArr xs]> (heap st)))
        | _ => (Panic BadPointer, st)
        end.

Definition loadMap (m : loc) : M (gmap string any) :=
  λ st, match heap st !! m with
        | Some (CMap t) => (Ok t, st)
        | _ => (Panic BadPointer, st)
        end.

Definition storeMap (m : loc) (t : gmap string any) : M unit :=
  λ st, match heap st !! m with
        | Some (CMap _) => (Ok tt, mkState (doc st) (<[m := CMap t]> (heap st)))
        | _ => (Panic BadPointer, st)
        end.

(** A fresh cell at the end of the heap. *)
Definition alloc (c : cell) : M loc :=
  λ st, (Ok (length (heap st)), mkState (doc st) (heap st ++ [c])).

(* ===================================================================== *)
(** ** Slices and maps of the Go runtime                                   *)
(* ===================================================================== *)

(** [len(v)] as an [int]. *)
Definition lenZ (v : Slice) : Z := Z.of_nat (len v).

(** Overwriting the elements from position [pos] on by [xs]. *)
Definition overwrite (pos : nat) (xs d : list any) : list any :=
  take pos d ++ xs ++ drop (pos + length xs) d.

(** The elements a slice shows: [len] elements of its array from [off]. *)
Definition elements (v : Slice) : M (list any) :=
  d <- loadArr (arr v) ;; ret (take (len v) (drop (off v) d)).

(** [v[i]] *)
Definition index (v : Slice) (i : Z) : M any :=
  if (i <? 0) || (lenZ v <=? i) then throw (IndexOutOfRange i (len v))
  else
    d <- loadArr (arr v) ;;
    match d !! (off v + Z.to_nat i)%nat with
    | Some x => ret x
    | None => throw BadPointer
    end.

(** [v[i] = x] *)
Definition setIndex (v : Slice) (i : Z) (x : any) : M unit :=
  if (i <? 0) || (lenZ v <=? i) then throw (IndexOutOfRange i (len v))
  else
    d <- loadArr (arr v) ;;
    storeArr (arr v) (<[(off v + Z.to_nat i)%nat := x]> d).

(** [v[lo:hi]]: legal for [0 <= lo <= hi <= cap(v)]; the result shares
    the array. *)
Definition reslice (v : Slice) (lo hi : Z) : M Slice :=
  if (lo <? 0) || (hi <? lo) || (Z.of_nat (cap v) <? hi)
  then throw (SliceBounds hi (cap v))
  else ret (mkSlice (arr v) (off v + Z.to_nat lo) (Z.to_nat (hi - lo))
                    (cap v - Z.to_nat lo)).

(** [make([]any, n)]: a fresh array of [n] nil values. *)
Definition make (n : nat) : M Slice :=
  a <- alloc (CArr (replicate n ANil)) ;; ret (mkSlice a 0 n n).

(** [copy(dst, src)]: the first [min(len(dst), len(src))] elements, read
    before any is written (the slices may overlap). *)
Definition copy (dst src : Slice) : M unit :=
  xs <- elements src ;;
  d <- loadArr (arr dst) ;;
  storeArr (arr dst) (overwrite (off dst) (take (len dst) xs) d).

(** The capacity [append] gives a slice that has to grow.  The runtime
    rounds this up to an allocation class; only [need <= growCap old need]
    is ever relied on. *)
Definition growCap (old need : nat) : nat := Nat.max need (2 * old).

(** [append(v, xs...)]: within the capacity the elements are written
    behind the slice into its own array; beyond it a larger array is
    allocated and the slice moves there. *)
Definition append (v : Slice) (xs : list any) : M Slice :=
  let n := (len v + length xs)%nat in
  if (n <=? cap v)%nat then
    d <- loadArr (arr v) ;;
    storeArr (arr v) (overwrite (off v + len v) xs d) ;;
    ret (mkSlice (arr v) (off v) n (cap v))
  else
    old <- elements v ;;
    let c := growCap (cap v) n in
    a <- alloc (CArr (old ++ xs ++ replicate (c - n) ANil)) ;;
    ret (mkSlice a 0 n c).

(** [func sliceRemove(s []any, i int) []any]:
    [append(s[:i], s[i+1:]...)]. *)
Definition sliceRemove (s : Slice) (i : Z) : M Slice :=
  front <- reslice s 0 i ;;
  back <- reslice s (i + 1) (lenZ s) ;;
  xs <- elements back ;;
  append front xs.

(** [func sliceInsert(s []any, i int, v any) []any] *)
Definition sliceInsert (s : Slice) (i : Z) (v : any) : M Slice :=
  if i =? lenZ s then append s [v]
  else
    n <- make (len s + 1) ;;
    n1 <- reslice n 0 i ;;
    s1 <- reslice s 0 i ;;
    copy n1 s1 ;;
    setIndex n i v ;;
    n2 <- reslice n (i + 1) (lenZ n) ;;
    s2 <- reslice s i (lenZ s) ;;
    copy n2 s2 ;;
    ret n.

(** [v, ok := m[k]] *)
Definition mapGet (m : loc) (k : string) : M (option any) :=
  t <- loadMap m ;; ret (t !! k).

(** [m[k] = x] *)
Definition mapSet (m : loc) (k : string) (x : any) : M unit :=
  t <- loadMap m ;; storeMap m (<[k := x]> t).

(** [delete(m, k)] *)
Definition mapDelete (m : loc) (k : string) : M unit :=
  t <- loadMap m ;; storeMap m (delete k t).

(* ===================================================================== *)
(** ** Navigator                                                           *)
(* ===================================================================== *)

(** [type Setter func(n any)].  The three closures the package builds,
    with what each captures: the document pointer, a map and a key, a
    slice and an index. *)
Inductive Setter : Type :=
| SetRoot                               (* func(n any) { *o = n } *)
| SetKey (m : loc) (part : string)      (* func(n any) { v[part] = n } *)
| SetIndex (v : Slice) (i : Z).         (* func(n any) { v[i] = n } *)

(** Calling a setter. *)
Definition callSetter (set : Setter) (n : any) : M unit :=
  match set with
  | SetRoot => setDoc n
  | SetKey m part => mapSet m part n
  | SetIndex v i => setIndex v i n
  end.

(** [func (p *Patch) visitPathPart(o any, part string) (any, Setter, error)] *)
Definition visitPathPart (p : Options) (o : any) (part : string)
  : M (any * Setter) :=
  match o with
  | AMap m =>
      g <- mapGet m part ;;
      match g with
      | None => fail ErrNotExists
      | Some g => ret (g, SetKey m part)
      end
  | ASlice v =>
      if (len v =? 0)%nat then fail ErrNotExists
      else
        i <- lift (ParseArrayIndex p (lenZ v) part) ;;
        if i =? lenZ v then fail ErrNotExists
        else x <- index v i ;; ret (x, SetIndex v i)
  | _ => fail (ErrCannotVisit (typeName o))
  end.

(** The loop of [VisitPath]; [set] is [None] while it is still nil. *)
Fixpoint visitParts (p : Options) (node : any) (set : option Setter)
    (parts : list string) : M (any * option Setter) :=
  match parts with
  | [] => ret (node, set)
  | part :: rest =>
      r <- visitPathPart p node part ;;
      visitParts p (fst r) (Some (snd r)) rest
  end.

(** [func (p *Patch) VisitPath(o *any, parts ...string) (any, Setter, error)] *)
Definition VisitPath (p : Options) (parts : list string) : M (any * Setter) :=
  node <- getDoc ;;
  r <- visitParts p node None parts ;;
  match snd r with
  | None => ret (fst r, SetRoot)
  | Some set => ret (fst r, set)
  end.

(* ===================================================================== *)
(** ** Mutators                                                            *)
(* ===================================================================== *)

(** [func (p *Patch) AddValue(o any, set Setter, key string, value any) error] *)
Definition AddValue (p : Options) (o : any) (set : Setter) (key : string)
    (value : any) : M unit :=
  match o with
  | AMap m => mapSet m key value
  | ASlice v =>
      i <- lift (ParseArrayIndex p (lenZ v) key) ;;
      v' <- sliceInsert v i value ;;
      callSetter set (ASlice v')
  | _ => fail (ErrBadType "add" (typeName o))
  end.

(** [func (p *Patch) ReplaceValue(o any, _ Setter, key string, value any) error] *)
Definition ReplaceValue (p : Options) (o : any) (_ : Setter) (key : string)
    (value : any) : M unit :=
  match o with
  | AMap m =>
      g <- mapGet m key ;;
      if StrictPathExists p && negb (bool_decide (is_Some g))
      then fail ErrNotExists
      else mapSet m key value
  | ASlice v =>
      i <- lift (ParseArrayIndex p (lenZ v) key) ;;
      if lenZ v =? i then
        if StrictPathExists p then fail ErrNotExists else ret tt
      else setIndex v i value
  | _ => fail (ErrBadType "replace" (typeName o))
  end.

(** [func (p *Patch) RemoveValue(o any, set Setter, key string) error] *)
Definition RemoveValue (p : Options) (o : any) (set : Setter) (key : string)
  : M unit :=
  match o with
  | AMap m =>
      g <- mapGet m key ;;
      if StrictPathExists p && negb (bool_decide (is_Some g))
      then fail ErrNotExists
      else mapDelete m key
  | ASlice v =>
      match ParseArrayIndex p (lenZ v) key with
      | inr _ => if StrictPathExists p then fail ErrNotExists else ret tt
      | inl i =>
          if lenZ v =? i then
            if StrictPathExists p then fail ErrNotExists else ret tt
          else
            v' <- sliceRemove v i ;;
            callSetter set (ASlice v')
      end
  | _ => fail (ErrBadType "remove" (typeName o))
  end.

(** [func (p *Patch) MoveValue(o any, set Setter, from, to string) error] *)
Definition MoveValue (p : Options) (o : any) (set : Setter) (from to : string)
  : M unit :=
  match o with
  | AMap m =>
      g <- mapGet m from ;;
      if StrictPathExists p && negb (bool_decide (is_Some g))
      then fail ErrNotExists
      else
        g' <- mapGet m from ;;
        match g' with
        | None => ret tt
        | Some e => mapDelete m from ;; mapSet m to e
        end
  | ASlice v =>
      match ParseArrayIndex p (lenZ v) from with
      | inr _ => if StrictPathExists p then fail ErrNotExists else ret tt
      | inl fi =>
          match ParseArrayIndex p (lenZ v) to with
          | inr _ => if StrictPathExists p then fail ErrNotExists else ret tt
          | inl ti =>
              if fi =? ti then ret tt
              else
                e <- index v fi ;;
                v1 <- sliceRemove v fi ;;
                v2 <- sliceInsert v1 ti e ;;
                setIndex v2 ti e ;;
                callSetter set (ASlice v2)
          end
      end
  | _ => fail (ErrBadType "move" (typeName o))
  end.

(* ===================================================================== *)
(** ** Deep copy and deep equality                                         *)
(* ===================================================================== *)

(** [for i := range] over [n] indices starting at [i]. *)
Fixpoint forRange (n : nat) (i : Z) (body : Z → M unit) : M unit :=
  match n with
  | O => ret tt
  | S k => body i ;; forRange k (i + 1) body
  end.

(** [for k, x := range] over the entries of a map.  Go leaves the order
    open; the bodies below write one cell per key, so the order only
    decides which fresh address a copy gets. *)
Fixpoint forEntries (kvs : list (string * any)) (body : string → any → M unit)
  : M unit :=
  match kvs with
  | [] => ret tt
  | (k, x) :: rest => body k x ;; forEntries rest body
  end.

(** [func deepCopy(o any) any].  The recursion follows the document, not
    a Rocq term: [fuel] bounds the nesting of containers it descends. *)
Fixpoint deepCopy (fuel : nat) (o : any) : M any :=
  match o with
  | ASlice v =>
      match fuel with
      | O => throw OutOfFuel
      | S f =>
          c <- make (len v) ;;
          forRange (len v) 0
            (λ i, x <- index v i ;; y <- deepCopy f x ;; setIndex c i y) ;;
          ret (ASlice c)
      end
  | AMap m =>
      match fuel with
      | O => throw OutOfFuel
      | S f =>
          t <- loadMap m ;;
          c <- alloc (CMap ∅) ;;
          forEntries (map_to_list t)
            (λ k x, y <- deepCopy f x ;; mapSet c k y) ;;
          ret (AMap c)
      end
  | _ => ret o
  end.

(** A loop that stops with [false] at the first failed test. *)
Fixpoint allRange (n : nat) (i : Z) (test : Z → M bool) : M bool :=
  match n with
  | O => ret true
  | S k => b <- test i ;; if b : bool then allRange k (i + 1) test else ret false
  end.

Fixpoint allEntries (kvs : list (string * any)) (test : string → any → M bool)
  : M bool :=
  match kvs with
  | [] => ret true
  | (k, x) :: rest =>
      b <- test k x ;; if b : bool then allEntries rest test else ret false
  end.

(** [reflect.DeepEqual] on two [any] values: equal dynamic types and
    equal contents; slices and maps of equal length that are the same
    object are equal without a look at their elements. *)
Fixpoint DeepEqual (fuel : nat) (x y : any) : M bool :=
  match x, y with
  | ANil, ANil => ret true
  | ABool a, ABool b => ret (bool_decide (a = b))
  | ANum a, ANum b => ret (a =? b)
  | AStr a, AStr b => ret (String.eqb a b)
  | ASlice a, ASlice b =>
      match fuel with
      | O => throw OutOfFuel
      | S f =>
          if negb (len a =? len b)%nat then ret false
          else if (arr a =? arr b)%nat && (off a =? off b)%nat then ret true
          else allRange (len a) 0
                 (λ i, u <- index a i ;; w <- index b i ;; DeepEqual f u w)
      end
  | AMap a, AMap b =>
      match fuel with
      | O => throw OutOfFuel
      | S f =>
          ta <- loadMap a ;;
          tb <- loadMap b ;;
          if negb (size ta =? size tb)%nat then ret false
          else if (a =? b)%nat then ret true
          else allEntries (map_to_list ta)
                 (λ k u, match tb !! k with
                         | None => ret false
                         | Some w => DeepEqual f u w
                         end)
      end
  | _, _ => ret false
  end.

(* ===================================================================== *)
(** ** Operations, extensions and the orchestrator                         *)
(* ===================================================================== *)

Definition opAdd : string := "add".
Definition opRemove : string := "remove".
Definition opReplace : string := "replace".
Definition opMove : string := "move".
Definition opCopy : string := "copy".
Definition opTest : string := "test".

(** [func (o Operation) check() error] *)
Definition Operation_check (o : Operation) : option error :=
  match OP o with
  | None => Some (ErrNew "must contains an op member")
  | Some _ =>
      match Path o with
      | None => Some (ErrNew "must contains a path member")
      | Some path =>
          match JSONPointer_Check (NewJSONPointer path) with
          | Some msg => Some (ErrNew msg)
          | None =>
              match From o with
              | Some from =>
                  match JSONPointer_Check (NewJSONPointer from) with
                  | Some msg => Some (ErrNew msg)
                  | None => None
                  end
              | None => None
              end
          end
      end
  end.

(** [type Extension interface], with the optional [Descriptor].  [Apply]
    and [Check] receive the options of the [*Patch]; the fuel is for the
    handlers that walk a document in depth.  [ext_T] is the name [%T]
    prints for the handler. *)
Record Extension : Type := mkExtension {
  ext_T : string;
  ext_OP : string;
  ext_Apply : nat → Options → Operation → M unit;
  ext_Check : Options → Operation → option error;
  ext_Description : option (Options → Operation → string)
}.

(** [type Patch struct]: the options and the registry of handlers. *)
Record Patch : Type := mkPatch {
  opts : Options;
  extensions : gmap string Extension
}.

(** [*p] for a member pointer of an operation. *)
Definition deref {A} (x : option A) : M A :=
  match x with
  | Some a => ret a
  | None => throw NilDereference
  end.

(** A call whose error is wrapped as "path not exists: %s, err=%w". *)
Definition orPathNotExists {A} (path : string) (m : M A) : M A :=
  r <- attempt m ;;
  match r with
  | inl a => ret a
  | inr err => fail (ErrPathNotExists path err)
  end.

Definition addExtension_Apply (_ : nat) (p : Options) (op : Operation) : M unit :=
  path <- deref (Path op) ;;
  value <- deref (Value op) ;;
  let parts := NewJSONPointer path in
  if IsTheWholeDocument parts then setDoc value
  else
    r <- orPathNotExists path (VisitPath p (ParentPath parts)) ;;
    AddValue p (fst r) (snd r) (LastToken parts) value.

Definition addExtension_Check (_ : Options) (op : Operation) : option error :=
  match Value op with
  | None => Some (ErrNew "operation add must contains a value member")
  | Some _ => None
  end.

Definition removeExtension_Apply (_ : nat) (p : Options) (op : Operation)
  : M unit :=
  path <- deref (Path op) ;;
  let parts := NewJSONPointer path in
  r <- orPathNotExists path (VisitPath p (ParentPath parts)) ;;
  RemoveValue p (fst r) (snd r) (LastToken parts).

Definition removeExtension_Check (_ : Options) (_ : Operation) : option error :=
  None.

Definition replaceExtension_Apply (_ : nat) (p : Options) (op : Operation)
  : M unit :=
  path <- deref (Path op) ;;
  value <- deref (Value op) ;;
  let parts := NewJSONPointer path in
  if IsTheWholeDocument parts then setDoc value
  else
    r <- orPathNotExists path (VisitPath p (ParentPath parts)) ;;
    ReplaceValue p (fst r) (snd r) (LastToken parts) value.

Definition replaceExtension_Check (_ : Options) (op : Operation) : option error :=
  match Value op with
  | None => Some (ErrNew "operation replace must contains a value member")
  | Some _ => None
  end.

Definition moveExtension_Apply (_ : nat) (p : Options) (op : Operation)
  : M unit :=
  path <- deref (Path op) ;;
  from <- deref (From op) ;;
  let parts := NewJSONPointer path in
  let fromParts := NewJSONPointer from in
  r <- orPathNotExists from (VisitPath p (ParentPath fromParts)) ;;
  let fromParent := fst r in
  let fromSet := snd r in
  got <- attempt (visitPathPart p fromParent (LastToken fromParts)) ;;
  match got with
  | inr err =>
      if StrictPathExists p then fail (ErrPathNotExists from err) else ret tt
  | inl (value, _) =>
      if SameParent parts fromParts then
        MoveValue p fromParent fromSet (LastToken fromParts) (LastToken parts)
      else
        RemoveValue p fromParent fromSet (LastToken fromParts) ;;
        r' <- orPathNotExists path (VisitPath p (ParentPath parts)) ;;
        AddValue p (fst r') (snd r') (LastToken parts) value
  end.

Definition moveExtension_Check (_ : Options) (op : Operation) : option error :=
  match From op with
  | None => Some (ErrNew "operation move must contains a from member")
  | Some _ => None
  end.

Definition moveExtension_Description (_ : Options) (op : Operation) : string :=
  "move " +:+ default "" (From op) +:+ " to " +:+ default "" (Path op).

Definition copyExtension_Apply (fuel : nat) (p : Options) (op : Operation)
  : M unit :=
  path <- deref (Path op) ;;
  from <- deref (From op) ;;
  let parts := NewJSONPointer path in
  let fromParts := NewJSONPointer from in
  r <- orPathNotExists path (VisitPath p (ParentPath parts)) ;;
  got <- orPathNotExists from (VisitPath p (JSONPointer_Path fromParts)) ;;
  clone <- deepCopy fuel (fst got) ;;
  AddValue p (fst r) (snd r) (LastToken parts) clone.

Definition copyExtension_Check (_ : Options) (op : Operation) : option error :=
  match From op with
  | None => Some (ErrNew "operation copy must contains a from member")
  | Some _ => None
  end.

Definition copyExtension_Description (_ : Options) (op : Operation) : string :=
  "copy " +:+ default "" (Path op) +:+ " from " +:+ default "" (From op).

Definition testExtension_Apply (fuel : nat) (p : Options) (op : Operation)
  : M unit :=
  path <- deref (Path op) ;;
  expect <- deref (Value op) ;;
  let parts := NewJSONPointer path in
  got <- attempt (VisitPath p (JSONPointer_Path parts)) ;;
  match got with
  | inr err =>
      if StrictPathExists p then fail (ErrPathNotExists path err)
      else fail ErrStop
  | inl (value, _) =>
      same <- DeepEqual fuel value expect ;;
      if same : bool then ret tt else fail ErrStop
  end.

Definition testExtension_Check (_ : Options) (op : Operation) : option error :=
  match Value op with
  | None => Some (ErrNew "operation test must contains a value member")
  | Some _ => None
  end.

Definition addExtension : Extension :=
  mkExtension "jsonpatch.addExtension" opAdd
    addExtension_Apply addExtension_Check None.
Definition removeExtension : Extension :=
  mkExtension "jsonpatch.removeExtension" opRemove
    removeExtension_Apply removeExtension_Check None.
Definition replaceExtension : Extension :=
  mkExtension "jsonpatch.replaceExtension" opReplace
    replaceExtension_Apply replaceExtension_Check None.
Definition moveExtension : Extension :=
  mkExtension "jsonpatch.moveExtension" opMove
    moveExtension_Apply moveExtension_Check (Some moveExtension_Description).
Definition copyExtension : Extension :=
  mkExtension "jsonpatch.copyExtension" opCopy
    copyExtension_Apply copyExtension_Check (Some copyExtension_Description).
Definition testExtension : Extension :=
  mkExtension "jsonpatch.testExtension" opTest
    testExtension_Apply testExtension_Check None.

(** [type Option func(o *Patch)] *)
Definition Option : Type := Patch → Patch.

Definition WithStrictPathExists (on : bool) : Option :=
  λ o, mkPatch (mkOptions on (SupportNegativeArrayIndex (opts o)))
               (extensions o).

Definition WithSupportNegativeArrayIndex (on : bool) : Option :=
  λ o, mkPatch (mkOptions (StrictPathExists (opts o)) on) (extensions o).

Definition WithExtension (ext : Extension) : Option :=
  λ o, mkPatch (opts o) (<[ext_OP ext := ext]> (extensions o)).

(** [func New(options ...Option) *Patch] *)
Definition New (options : list Option) : Patch :=
  fold_left (λ p option, option p) options
    (mkPatch (mkOptions true false)
       (<[opAdd := addExtension]> (<[opRemove := removeExtension]>
       (<[opReplace := replaceExtension]> (<[opMove := moveExtension]>
       (<[opCopy := copyExtension]> (<[opTest := testExtension]> ∅))))))).

(** [func (p *Patch) Check(ops []Operation) error] *)
Fixpoint Patch_Check (p : Patch) (ops : list Operation) : option error :=
  match ops with
  | [] => None
  | op :: rest =>
      match Operation_check op with
      | Some err => Some err
      | None =>
          let name := default "" (OP op) in
          match extensions p !! name with
          | None => Some (ErrUnknownOperation name)
          | Some e =>
              match ext_Check e (opts p) op with
              | Some err => Some (ErrInvalid err op)
              | None => Patch_Check p rest
              end
          end
      end
  end.

(** The description an error message gives of an operation. *)
Definition describe (p : Patch) (ext : Extension) (op : Operation) : string :=
  match ext_Description ext with
  | Some d => d (opts p) op
  | None => default "" (OP op) +:+ " " +:+ default "" (Path op)
  end.

(** The loop of [applyAny] over the checked operations. *)
Fixpoint applyOps (fuel : nat) (p : Patch) (ops : list Operation) : M unit :=
  match ops with
  | [] => ret tt
  | op :: rest =>
      name <- deref (OP op) ;;
      ext <- deref (extensions p !! name) ;;
      r <- attempt (ext_Apply ext fuel (opts p) op) ;;
      match r with
      | inl _ => applyOps fuel p rest
      | inr err =>
          if negb (StrictPathExists (opts p)) && errorsIs err ErrNotExists
          then applyOps fuel p rest
          else if errorsIs err ErrStop
          then fail (ErrOperationStopped (describe p ext op) (ext_T ext) err)
          else fail (ErrOperationFailed (describe p ext op) (ext_T ext) err)
      end
  end.

(** [func (p *Patch) applyAny(o *any, ops []Operation) error] *)
Definition applyAny (fuel : nat) (p : Patch) (ops : list Operation) : M unit :=
  match Patch_Check p ops with
  | Some err => fail err
  | None => applyOps fuel p ops
  end.

(** [func (p *Patch) ApplyAny(o *any, ops []Operation) error], called with
    a document pointer that is not nil. *)
Definition ApplyAny (fuel : nat) (p : Patch) (ops : list Operation) : M unit :=
  o <- getDoc ;;
  match o with
  | AMap _ | ASlice _ => applyAny fuel p ops
  | _ => fail (ErrBadType "apply" "*interface {}")
  end.

(* ===================================================================== *)
(** ** Closed forms used by the statements                                 *)
(* ===================================================================== *)

(** Replacing the two-byte string [x y] by the byte [z], by structural
    recursion: what one pass of a replacer with that single pair computes. *)
Fixpoint sub2 (x y z : ascii) (s : string) : string :=
  match s with
  | EmptyString => EmptyString
  | String a r =>
      match r with
      | EmptyString => String a EmptyString
      | String b r' =>
          if Ascii.eqb a x && Ascii.eqb b y then String z (sub2 x y z r')
          else String a (sub2 x y z r)
      end
  end.

(** Decoding of a segment read off byte by byte: [~1] gives [/], [~0]
    gives [~], every other byte stands for itself. *)
Fixpoint decodeSegment (s : string) : string :=
  match s with
  | EmptyString => EmptyString
  | String a r =>
      match r with
      | EmptyString => String a EmptyString
      | String b r' =>
          if Ascii.eqb a "~" && Ascii.eqb b "1" then String "/" (decodeSegment r')
          else if Ascii.eqb a "~" && Ascii.eqb b "0" then String "~" (decodeSegment r')
          else String a (decodeSegment r)
      end
  end.

Fixpoint allDigits (s : string) : bool :=
  match s with
  | EmptyString => true
  | String c r => isDigit c && allDigits r
  end.

(** The grammar 0|[1-9][0-9]* on the bytes of a token. *)
Definition isIndexToken (s : string) : bool :=
  match s with
  | EmptyString => false
  | String c r =>
      if Ascii.eqb c "0" then String.eqb r ""
      else inRange "1" "9" c && allDigits r
  end.

(** The grammar -?(0|[1-9][0-9]* ). *)
Definition isSignedIndexToken (s : string) : bool :=
  match s with
  | String c r => if Ascii.eqb c "-" then isIndexToken r else isIndexToken s
  | EmptyString => false
  end.

(** The pattern in force under the options. *)
Definition activeRE (p : Options) : regex :=
  if SupportNegativeArrayIndex p then negativeIndexRE else indexRE.

(** The integer a token of either grammar denotes, unbounded. *)
Definition tokenValue (s : string) : Z :=
  match s with
  | String c r =>
      if Ascii.eqb c "-" then - default 0 (digitsValue 0 r)
      else default 0 (digitsValue 0 s)
  | EmptyString => 0
  end.

(** The index a token of the grammar resolves to before the bounds check:
    a negative value counts from the end. *)
Definition resolvedIndex (size : Z) (s : string) : Z :=
  if tokenValue s <? 0 then size + tokenValue s else tokenValue s.

(** The slice [v] lies within the array [d] stored at its address. *)
Definition backing (h : list cell) (v : Slice) (d : list any) : Prop :=
  h !! arr v = Some (CArr d)
  ∧ (off v + cap v ≤ length d)%nat
  ∧ (len v ≤ cap v)%nat.

(** The elements the slice [v] shows of the array [d]. *)
Definition shown (v : Slice) (d : list any) : list any :=
  take (len v) (drop (off v) d).

(** The sequence [xs] with [x] inserted before position [i]. *)
Definition insertAt (i : nat) (x : any) (xs : list any) : list any :=
  take i xs ++ x :: drop i xs.

(** A small heap for the worked examples: the array [1, 2, 3] in a backing
    array of capacity four at address 0, and the slice over it. *)
Definition exArray : list any := [ANum 1; ANum 2; ANum 3; ANil].
Definition exHeap : list cell := [CArr exArray].
Definition exSlice : Slice := mkSlice 0%nat 0%nat 3%nat 4%nat.

(** The operation list that moves the first element of a root array to
    its end. *)
Definition moveToEnd : list Operation :=
  [mkOperation (Some "move") (Some "/-") None (Some "/0")].

(** The node kinds the navigator cannot descend into. *)
Definition isScalar (x : any) : bool :=
  match x with
  | ASlice _ | AMap _ => false
  | _ => true
  end.

(** A computation that leaves the state as it found it, whatever its
    outcome. *)
Definition readonly {A} (m : M A) : Prop := ∀ st, snd (m st) = st.

(** What static validation refuses in an operation: no [op] or no [path]
    member, a pointer in [path] or [from] that [Check] rejects, a name the
    registry does not know, or a refusal by the handler's own [Check]. *)
Definition staticallyInvalid (p : Patch) (op : Operation) : Prop :=
  OP op = None
  ∨ Path op = None
  ∨ (∃ path, Path op = Some path
       ∧ JSONPointer_Check (NewJSONPointer path) ≠ None)
  ∨ (∃ from, From op = Some from
       ∧ JSONPointer_Check (NewJSONPointer from) ≠ None)
  ∨ (∃ name, OP op = Some name ∧ extensions p !! name = None)
  ∨ (∃ name e, OP op = Some name ∧ extensions p !! name = Some e
       ∧ ext_Check e (opts p) op ≠ None).

(** The operation [{"op":"test","path":P,"value":V}]. *)
Definition testOperation (P : string) (V : any) : Operation :=
  mkOperation (Some opTest) (Some P) (Some V) None.

(** What [applyAny] makes of the outcome of the only handler call of a
    checked one-operation list. *)
Definition settle (p : Patch) (ext : Extension) (op : Operation)
    (r : outcome unit * state) : outcome unit * state :=
  match r with
  | (Ok _, st') => (Ok tt, st')
  | (Err err, st') =>
      if negb (StrictPathExists (opts p)) && errorsIs err ErrNotExists
      then (Ok tt, st')
      else if errorsIs err ErrStop
      then (Err (ErrOperationStopped (describe p ext op) (ext_T ext) err), st')
      else (Err (ErrOperationFailed (describe p ext op) (ext_T ext) err), st')
  | (Panic q, st') => (Panic q, st')
  end.

(** [wfIn lo hi h n x]: in the heap [h] the value [x] is a document of at
    most [n] nested containers, every slice of it lying within its array,
    and every array and table it consists of sits at an address in
    [lo, hi). *)
Inductive wfIn (lo hi : nat) (h : list cell) : nat → any → Prop :=
| wfIn_nil n : wfIn lo hi h n ANil
| wfIn_bool n b : wfIn lo hi h n (ABool b)
| wfIn_num n z : wfIn lo hi h n (ANum z)
| wfIn_str n s : wfIn lo hi h n (AStr s)
| wfIn_slice n v d :
    (lo ≤ arr v < hi)%nat →
    backing h v d →
    (∀ x, x ∈ shown v d → wfIn lo hi h n x) →
    wfIn lo hi h (S n) (ASlice v)
| wfIn_map n m t :
    (lo ≤ m < hi)%nat →
    h !! m = Some (CMap t) →
    (∀ k x, t !! k = Some x → wfIn lo hi h n x) →
    wfIn lo hi h (S n) (AMap m).

(** [same h1 h2 x y]: the value [x] in the heap [h1] and the value [y] in
    the heap [h2] are the same document: equal scalars, arrays of equal
    length with the same elements in order, objects with the same keys
    and the same values under them. *)
Inductive same (h1 h2 : list cell) : any → any → Prop :=
| same_nil : same h1 h2 ANil ANil
| same_bool b : same h1 h2 (ABool b) (ABool b)
| same_num z : same h1 h2 (ANum z) (ANum z)
| same_str s : same h1 h2 (AStr s) (AStr s)
| same_slice v1 v2 d1 d2 :
    backing h1 v1 d1 → backing h2 v2 d2 →
    len v1 = len v2 →
    (∀ i x y, shown v1 d1 !! i = Some x → shown v2 d2 !! i = Some y →
              same h1 h2 x y) →
    same h1 h2 (ASlice v1) (ASlice v2)
| same_map m1 m2 t1 t2 :
    h1 !! m1 = Some (CMap t1) → h2 !! m2 = Some (CMap t2) →
    (∀ k, is_Some (t1 !! k) ↔ is_Some (t2 !! k)) →
    (∀ k x y, t1 !! k = Some x → t2 !! k = Some y → same h1 h2 x y) →
    same h1 h2 (AMap m1) (AMap m2).

(** The address a setter writes to lies below [hi]. *)
Definition setterBelow (hi : nat) (set : Setter) : Prop :=
  match set with
  | SetRoot => True
  | SetKey m _ => (m < hi)%nat
  | SetIndex v _ => (arr v < hi)%nat
  end.

(** What a call of [deepCopy] with fuel [f] achieves on documents of depth
    [n]: it succeeds, only appends cells to the heap, and returns a
    document built from the appended cells alone that is the same
    document as its argument. *)
Definition copies (f n : nat) : Prop :=
  ∀ x o H,
    wfIn 0 (length H) H n x →
    ∃ c hn,
      deepCopy f x (mkState o H) = (Ok c, mkState o (H ++ hn)%list)
      ∧ wfIn (length H) (length (H ++ hn)%list) (H ++ hn)%list n c
      ∧ same H (H ++ hn)%list x c.

(** A document for the worked examples: the object [{"a": [1, 2, 3]}],
    its table at address 0 and the array at address 1; and the operation
    that copies the member [a] to the member [b]. *)
Definition exDocHeap : list cell :=
  [CMap {["a" := ASlice (mkSlice 1%nat 0%nat 3%nat 4%nat)]}; CArr exArray].

(** A segment with no byte that the pointer syntax gives a meaning to:
    no [/] and no [~]. *)
Fixpoint plainSegment (s : string) : bool :=
  match s with
  | EmptyString => true
  | String c r =>
      negb (Ascii.eqb c "/") && negb (Ascii.eqb c "~") && plainSegment r
  end.

(** The pointer text for a list of segments: a [/] before each of them. *)
Fixpoint pointerTo (segs : list string) : string :=
  match segs with
  | [] => EmptyString
  | seg :: rest => String "/" (seg +:+ pointerTo rest)
  end.

(* ===================================================================== *)
(** * Proofs                                                               *)
(* ===================================================================== *)

(** ** Pointer segments *)

(** Induction over strings two bytes at a time. *)
Lemma string_pair_ind (P : string → Prop) :
  P EmptyString →
  (∀ a, P (String a EmptyString)) →
  (∀ a b r, P r → P (String b r) → P (String a (String b r))) →
  ∀ s, P s.
Proof.
  intros H0 H1 H2 s.
  assert (P s ∧ ∀ a, P (String a s)) as [? _]; [|done].
  induction s as [|b r [IH1 IH2]]; split; auto.
Qed.

Lemma ascii_dec_eqb {A} (a b : ascii) (x y : A) :
  (if ascii_dec a b then x else y) = (if Ascii.eqb a b then x else y).
Proof.
  destruct (ascii_dec a b) as [->|Hne].
  - by rewrite Ascii.eqb_refl.
  - by destruct (Ascii.eqb_spec a b).
Qed.

Lemma prefix2 (x y a b : ascii) (r : string) :
  String.prefix (String x (String y EmptyString)) (String a (String b r))
  = Ascii.eqb a x && Ascii.eqb b y.
Proof.
  cbn [String.prefix]. rewrite !ascii_dec_eqb.
  rewrite (Ascii.eqb_sym x a), (Ascii.eqb_sym y b).
  destruct (Ascii.eqb a x), (Ascii.eqb b y); try done.
  by destruct r.
Qed.

Lemma prefix2_short (x y a : ascii) :
  String.prefix (String x (String y EmptyString)) (String a EmptyString) = false.
Proof. cbn [String.prefix]. by destruct (ascii_dec x a). Qed.

Lemma replaceFrom_cons2 pairs (a b : ascii) (r : string) :
  replaceFrom pairs 0 (String a (String b r))
  = match firstMatch pairs (String a (String b r)) with
    | Some (old, new) =>
        new +:+ replaceFrom pairs (String.length old - 1) (String b r)
    | None => String a (replaceFrom pairs 0 (String b r))
    end.
Proof. done. Qed.

Lemma replaceFrom_skip1 pairs (b : ascii) (r : string) :
  replaceFrom pairs 1 (String b r) = replaceFrom pairs 0 r.
Proof. done. Qed.

Lemma sub2_cons2 (x y z a b : ascii) (r : string) :
  sub2 x y z (String a (String b r))
  = if Ascii.eqb a x && Ascii.eqb b y then String z (sub2 x y z r)
    else String a (sub2 x y z (String b r)).
Proof. done. Qed.

Lemma decodeSegment_cons2 (a b : ascii) (r : string) :
  decodeSegment (String a (String b r))
  = if Ascii.eqb a "~" && Ascii.eqb b "1" then String "/" (decodeSegment r)
    else if Ascii.eqb a "~" && Ascii.eqb b "0" then String "~" (decodeSegment r)
    else String a (decodeSegment (String b r)).
Proof. done. Qed.

(** One pass of a single-pair replacer is [sub2]. *)
Lemma Replace_single (x y z : ascii) (s : string) :
  Replace [(String x (String y EmptyString), String z EmptyString)] s
  = sub2 x y z s.
Proof.
  unfold Replace. induction s as [|a|a b r IH1 IH2] using string_pair_ind.
  - done.
  - cbn [replaceFrom firstMatch]. by rewrite prefix2_short.
  - rewrite replaceFrom_cons2, sub2_cons2. cbn [firstMatch]. rewrite prefix2.
    destruct (Ascii.eqb a x && Ascii.eqb b y).
    + cbn [String.length Nat.sub]. rewrite replaceFrom_skip1, IH1. done.
    + by rewrite IH2.
Qed.

(** The replacer of the source decodes byte by byte. *)
Lemma unescapePath_decode (s : string) : unescapePath s = decodeSegment s.
Proof.
  unfold unescapePath, Replace, unescapeReplace.
  induction s as [|a|a b r IH1 IH2] using string_pair_ind.
  - done.
  - cbn [replaceFrom firstMatch]. by rewrite !prefix2_short.
  - rewrite replaceFrom_cons2, decodeSegment_cons2. cbn [firstMatch].
    rewrite !prefix2.
    destruct (Ascii.eqb a "~" && Ascii.eqb b "1").
    { cbn [String.length Nat.sub]. rewrite replaceFrom_skip1, IH1. done. }
    destruct (Ascii.eqb a "~" && Ascii.eqb b "0").
    { cbn [String.length Nat.sub]. rewrite replaceFrom_skip1, IH1. done. }
    by rewrite IH2.
Qed.

(** The first pass leaves no [0] where there was none. *)
Lemma sub2_head (a : ascii) (r : string) :
  a ≠ "0"%char →
  ∃ c r', sub2 "~" "1" "/" (String a r) = String c r' ∧ c ≠ "0"%char.
Proof.
  intros Ha. destruct r as [|b r]; [by eexists _, _|].
  rewrite sub2_cons2.
  destruct (Ascii.eqb a "~" && Ascii.eqb b "1"); [|by eexists _, _].
  eexists _, _. split; [done|]. discriminate.
Qed.

Lemma sub2_tilde_other (c : ascii) (r : string) :
  c ≠ "0"%char →
  sub2 "~" "0" "~" (String "~" (String c r))
  = String "~" (sub2 "~" "0" "~" (String c r)).
Proof.
  intros Hc. rewrite sub2_cons2. destruct (Ascii.eqb_spec c "0"); [done|].
  by rewrite andb_false_r.
Qed.

Lemma sub2_other (x y z a : ascii) (r : string) :
  a ≠ x → sub2 x y z (String a r) = String a (sub2 x y z r).
Proof.
  intros Ha. destruct r as [|b r]; [done|]. rewrite sub2_cons2.
  by destruct (Ascii.eqb_spec a x).
Qed.

(** The two passes of the specification decode byte by byte as well. *)
Lemma two_pass_decode (s : string) : unescape_two_pass s = decodeSegment s.
Proof.
  unfold unescape_two_pass, ReplaceAll. rewrite !Replace_single.
  induction s as [|a|a b r IH1 IH2] using string_pair_ind.
  - done.
  - done.
  - rewrite decodeSegment_cons2, (sub2_cons2 "~" "1" "/").
    destruct (Ascii.eqb_spec a "~") as [->|Ha]; cbn [andb].
    + destruct (Ascii.eqb_spec b "1") as [->|Hb1].
      { rewrite sub2_other by discriminate. by rewrite IH1. }
      destruct (Ascii.eqb_spec b "0") as [->|Hb0].
      { rewrite (sub2_other "~" "1" "/" "0") by discriminate.
        rewrite sub2_cons2. cbn [Ascii.eqb Bool.eqb andb]. by rewrite IH1. }
      destruct (sub2_head b r Hb0) as (c & r' & Heq & Hc).
      rewrite Heq, sub2_tilde_other by done. rewrite <- Heq. by rewrite IH2.
    + rewrite sub2_other by done. by rewrite IH2.
Qed.

Lemma decodeSegment_other (a : ascii) (r : string) :
  a ≠ "~"%char → decodeSegment (String a r) = String a (decodeSegment r).
Proof.
  intros Ha. destruct r as [|b r]; [done|]. rewrite decodeSegment_cons2.
  by destruct (Ascii.eqb_spec a "~").
Qed.

Lemma decode_escape (s : string) : decodeSegment (escapePath s) = s.
Proof.
  induction s as [|c r IH]; [done|]. cbn [escapePath].
  destruct (Ascii.eqb_spec c "~") as [->|Hc1].
  { change (decodeSegment (String "~" (String "0" (escapePath r))))
      with (String "~" (decodeSegment (escapePath r))). by rewrite IH. }
  destruct (Ascii.eqb_spec c "/") as [->|Hc2].
  { change (decodeSegment (String "~" (String "1" (escapePath r))))
      with (String "/" (decodeSegment (escapePath r))). by rewrite IH. }
  rewrite decodeSegment_other by done. by rewrite IH.
Qed.

(** C8: the replacer of [unescapePath] computes, on every string, what
    replacing every [~1] by [/] and then every [~0] by [~] computes; it
    sends [~01] to [~1] and not to [/]; and it undoes the escaping of any
    segment. *)
Theorem unescapePath_two_pass_roundtrip :
  (∀ s, unescapePath s = unescape_two_pass s)
  ∧ unescapePath "~01" = "~1"
  ∧ unescapePath "~01" ≠ "/"
  ∧ (∀ s, unescapePath (escapePath s) = s).
Proof.
  split; [|split; [|split]].
  - intros s. by rewrite unescapePath_decode, two_pass_decode.
  - reflexivity.
  - discriminate.
  - intros s. rewrite unescapePath_decode. apply decode_escape.
Qed.

(** ** The index grammar *)

Lemma MatchString_Empty (s : string) : MatchString Empty s = false.
Proof. induction s; [done|]. by cbn. Qed.

Lemma MatchString_Eps (s : string) : MatchString Eps s = String.eqb s "".
Proof. destruct s; [done|]. cbn. apply MatchString_Empty. Qed.

Lemma MatchString_digits (s : string) :
  MatchString (Star (Rng "0" "9")) s = allDigits s.
Proof.
  induction s as [|c r IH]; [done|].
  cbn [MatchString deriv allDigits]. unfold isDigit.
  destruct (inRange "0" "9" c); cbn [cat andb]; [done|].
  apply MatchString_Empty.
Qed.

(** The compiled pattern [indexRE] accepts the grammar 0|[1-9][0-9]*. *)
Lemma indexRE_grammar (s : string) : MatchString indexRE s = isIndexToken s.
Proof.
  destruct s as [|c r]; [done|].
  unfold indexRE, isIndexToken. cbn [MatchString deriv nullable].
  destruct (Ascii.eqb_spec c "0") as [->|Hc].
  - cbn. apply MatchString_Eps.
  - destruct (inRange "1" "9" c); cbn [alt cat andb].
    + apply MatchString_digits.
    + apply MatchString_Empty.
Qed.

(** [negativeIndexRE] accepts the same after an optional minus sign. *)
Lemma negativeIndexRE_grammar (s : string) :
  MatchString negativeIndexRE s = isSignedIndexToken s.
Proof.
  destruct s as [|c r]; [done|].
  unfold isSignedIndexToken. rewrite <- !indexRE_grammar.
  unfold negativeIndexRE. cbn [MatchString deriv nullable].
  destruct (Ascii.eqb_spec c "-") as [->|Hc].
  - done.
  - cbn [cat alt]. by destruct (deriv indexRE c).
Qed.

Lemma wrapInt_id (z : Z) : minInt ≤ z ≤ maxInt → wrapInt z = z.
Proof.
  unfold wrapInt, minInt, maxInt, intSize. intros Hz.
  rewrite Z.mod_small; lia.
Qed.

Lemma digitVal_range (c : ascii) : isDigit c = true → 0 ≤ digitVal c ≤ 9.
Proof.
  unfold isDigit, inRange, digitVal. intros [H1 H2]%andb_true_iff.
  apply N.leb_le in H1, H2. change (N_of_ascii "0") with 48%N in *.
  change (N_of_ascii "9") with 57%N in *. lia.
Qed.

Lemma digitsValue_allDigits (s : string) (acc : Z) :
  allDigits s = true → 0 ≤ acc →
  ∃ n, digitsValue acc s = Some n ∧ acc ≤ n.
Proof.
  revert acc. induction s as [|c r IH]; intros acc Hs Hacc.
  - exists acc. split; [done|lia].
  - cbn [allDigits] in Hs. apply andb_true_iff in Hs as [Hc Hr].
    cbn [digitsValue]. rewrite Hc.
    pose proof (digitVal_range c Hc).
    destruct (IH (10 * acc + digitVal c) Hr) as (n & Hn & Hle); [lia|].
    exists n. split; [done|lia].
Qed.

Lemma isIndexToken_allDigits (s : string) :
  isIndexToken s = true → allDigits s = true ∧ s ≠ "".
Proof.
  destruct s as [|c r]; [done|]. unfold isIndexToken.
  destruct (Ascii.eqb_spec c "0") as [->|Hc].
  - intros ->%String.eqb_eq. done.
  - intros [H1 H2]%andb_true_iff. split; [|done]. cbn [allDigits].
    rewrite H2, andb_true_r. unfold isDigit, inRange in *.
    apply andb_true_iff in H1 as [H1 H3]. apply N.leb_le in H1, H3.
    apply andb_true_iff. split; apply N.leb_le;
      change (N_of_ascii "1") with 49%N in *;
      change (N_of_ascii "0") with 48%N in *; lia.
Qed.

Lemma digit_not_sign (c : ascii) :
  isDigit c = true → Ascii.eqb c "-" = false ∧ Ascii.eqb c "+" = false.
Proof.
  intros Hc. split.
  - destruct (Ascii.eqb_spec c "-") as [->|]; done.
  - destruct (Ascii.eqb_spec c "+") as [->|]; done.
Qed.

(** On a token of the grammar [Atoi] yields its value, or the range
    error when the value does not fit [int]. *)
Lemma Atoi_token (s : string) :
  isIndexToken s = true →
  0 ≤ tokenValue s ∧
  Atoi s = if maxInt <? tokenValue s then inr ErrRange else inl (tokenValue s).
Proof.
  intros Hs. destruct (isIndexToken_allDigits s Hs) as [Hd Hne].
  destruct s as [|c r]; [done|].
  pose proof Hd as Hd'. cbn [allDigits] in Hd'.
  apply andb_true_iff in Hd' as [Hc _].
  destruct (digit_not_sign c Hc) as [Hm Hp].
  destruct (digitsValue_allDigits (String c r) 0 Hd) as (n & Hn & Hle); [done|].
  unfold Atoi, tokenValue. rewrite Hm, Hp, Hn. cbn [default].
  split; [done|].
  replace (n <? minInt) with false; [done|].
  symmetry. apply Z.ltb_ge. unfold minInt, intSize. lia.
Qed.

Lemma Atoi_signed_token (s : string) :
  isSignedIndexToken s = true →
  Atoi s = if (tokenValue s <? minInt) || (maxInt <? tokenValue s)
           then inr ErrRange else inl (tokenValue s).
Proof.
  intros Hs. destruct s as [|c r]; [done|].
  unfold isSignedIndexToken in Hs.
  destruct (Ascii.eqb_spec c "-") as [->|Hc].
  - destruct (isIndexToken_allDigits r Hs) as [Hd Hne].
    destruct (digitsValue_allDigits r 0 Hd) as (n & Hn & Hle); [done|].
    unfold Atoi, tokenValue. cbn [Ascii.eqb Bool.eqb]. rewrite Hn. cbn [default].
    by destruct r.
  - destruct (Atoi_token _ Hs) as [Hv ->].
    replace (tokenValue (String c r) <? minInt) with false; [done|].
    symmetry. apply Z.ltb_ge. unfold minInt, intSize. lia.
Qed.

Lemma signed_token_value (s : string) :
  isSignedIndexToken s = true → isIndexToken s = true ∨ tokenValue s ≤ 0.
Proof.
  destruct s as [|c r]; [done|]. unfold isSignedIndexToken.
  destruct (Ascii.eqb_spec c "-") as [->|Hc]; [|by left].
  intros Hs. right. destruct (isIndexToken_allDigits r Hs) as [Hd Hne].
  destruct (digitsValue_allDigits r 0 Hd) as (n & Hn & Hle); [done|].
  unfold tokenValue. cbn [Ascii.eqb Bool.eqb]. rewrite Hn. cbn. lia.
Qed.

(** C3, as amended: for a length [size], the token [-] resolves to
    [size]; any other token outside the pattern in force is refused as a
    bad index; a token of the pattern whose value does not fit [int] fails
    with the range error of [strconv.Atoi]; every other token resolves (a
    negative value [i] to [size + i]) and is returned exactly when the
    resolved index lies in [0, size], failing with the index-out-of-range
    error otherwise. *)
Theorem ParseArrayIndex_resolves (p : Options) (size : Z) (s : string) :
  0 ≤ size ≤ maxInt →
  ParseArrayIndex p size s =
    if String.eqb s "-" then inl size
    else if negb (MatchString (activeRE p) s) then inr (ErrBadIndex s)
    else if (tokenValue s <? minInt) || (maxInt <? tokenValue s)
         then inr (ErrNumError "Atoi" s ErrRange)
    else if (0 <=? resolvedIndex size s) && (resolvedIndex size s <=? size)
         then inl (resolvedIndex size s)
    else inr (ErrIndexRange size s).
Proof.
  intros Hsize. unfold ParseArrayIndex, activeRE, resolvedIndex.
  destruct (String.eqb s "-").
  { destruct (Z.eqb_spec size 0) as [->|]; done. }
  destruct (SupportNegativeArrayIndex p).
  - destruct (MatchString negativeIndexRE s) eqn:Hm; [|done].
    cbn [negb]. rewrite negativeIndexRE_grammar in Hm.
    rewrite (Atoi_signed_token s Hm).
    destruct ((tokenValue s <? minInt) || (maxInt <? tokenValue s)) eqn:Hr; [done|].
    apply orb_false_iff in Hr as [Hlo Hhi].
    apply Z.ltb_ge in Hlo, Hhi.
    destruct (Z.ltb_spec (tokenValue s) 0) as [Hneg|Hpos].
    + rewrite wrapInt_id by (unfold minInt, maxInt, intSize in *; lia).
      unfold checkBounds.
      destruct (Z.ltb_spec (size + tokenValue s) 0),
               (Z.ltb_spec size (size + tokenValue s)),
               (Z.leb_spec 0 (size + tokenValue s)),
               (Z.leb_spec (size + tokenValue s) size); cbn; done || lia.
    + unfold checkBounds.
      destruct (Z.ltb_spec (tokenValue s) 0), (Z.ltb_spec size (tokenValue s)),
               (Z.leb_spec 0 (tokenValue s)), (Z.leb_spec (tokenValue s) size);
        cbn; done || lia.
  - destruct (MatchString indexRE s) eqn:Hm; [|done].
    cbn [negb]. rewrite indexRE_grammar in Hm.
    destruct (Atoi_token s Hm) as [Hv ->].
    replace (tokenValue s <? minInt) with false
      by (symmetry; apply Z.ltb_ge; unfold minInt, intSize; lia).
    cbn [orb]. destruct (maxInt <? tokenValue s); [done|].
    replace (tokenValue s <? 0) with false by (symmetry; apply Z.ltb_ge; lia).
    unfold checkBounds.
    destruct (Z.ltb_spec (tokenValue s) 0), (Z.ltb_spec size (tokenValue s)),
             (Z.leb_spec 0 (tokenValue s)), (Z.leb_spec (tokenValue s) size);
      cbn; done || lia.
Qed.

Lemma ParseArrayIndex_resolves_witness :
  0 ≤ 3 ≤ maxInt ∧
  ParseArrayIndex (mkOptions true true) 3 "-1" = inl 2.
Proof.
  split; [done|].
  rewrite (ParseArrayIndex_resolves (mkOptions true true) 3 "-1"); [|done].
  reflexivity.
Defined.

(** C3 as stated fails on a token of the grammar that overflows [int]:
    its value is outside [0, size], yet the failure is the range error of
    [strconv.Atoi] and not the index-out-of-range error. *)
Lemma ParseArrayIndex_overflow_not_index_range :
  MatchString indexRE "99999999999999999999" = true
  ∧ ¬ (0 ≤ resolvedIndex 3 "99999999999999999999" ≤ 3)
  ∧ ParseArrayIndex (mkOptions true false) 3 "99999999999999999999"
    = inr (ErrNumError "Atoi" "99999999999999999999" ErrRange)
  ∧ ParseArrayIndex (mkOptions true false) 3 "99999999999999999999"
    ≠ inr (ErrIndexRange 3 "99999999999999999999").
Proof.
  split; [reflexivity|]. split; [|split].
  - vm_compute. intros [_ H]. by apply H.
  - reflexivity.
  - discriminate.
Qed.

(** ** Running computations *)

Lemma bind_Ok {A B} (m : M A) (k : A → M B) st a st1 :
  m st = (Ok a, st1) → (x <- m ;; k x) st = k a st1.
Proof. unfold bind. by intros ->. Qed.

Lemma bind_Err {A B} (m : M A) (k : A → M B) st e st1 :
  m st = (Err e, st1) → (x <- m ;; k x) st = (Err e, st1).
Proof. unfold bind. by intros ->. Qed.

Lemma bind_Panic {A B} (m : M A) (k : A → M B) st q st1 :
  m st = (Panic q, st1) → (x <- m ;; k x) st = (Panic q, st1).
Proof. unfold bind. by intros ->. Qed.

(** ** Arrays and the slices over them *)

Lemma overwrite_length (pos : nat) (xs d : list any) :
  (pos + length xs ≤ length d)%nat → length (overwrite pos xs d) = length d.
Proof.
  intros H. unfold overwrite.
  rewrite !length_app, length_take, length_drop. lia.
Qed.

Lemma overwrite_lookup (pos : nat) (xs d : list any) (k : nat) :
  (pos + length xs ≤ length d)%nat →
  overwrite pos xs d !! k =
    if decide (k < pos)%nat then d !! k
    else if decide (k < pos + length xs)%nat then xs !! (k - pos)%nat
    else d !! k.
Proof.
  intros H. unfold overwrite.
  assert (length (take pos d) = pos) as Htk by (rewrite length_take; lia).
  destruct (decide (k < pos)%nat).
  { rewrite lookup_app_l by lia. by rewrite lookup_take_lt. }
  rewrite lookup_app_r by lia. rewrite Htk.
  destruct (decide (k < pos + length xs)%nat).
  { by rewrite lookup_app_l by lia. }
  rewrite lookup_app_r by lia. rewrite lookup_drop. f_equal. lia.
Qed.

Lemma overwrite_nil (pos : nat) (d : list any) : overwrite pos [] d = d.
Proof.
  unfold overwrite. cbn. rewrite Nat.add_0_r. apply take_drop.
Qed.

Lemma shown_lookup (v : Slice) (d : list any) (k : nat) :
  shown v d !! k = if decide (k < len v)%nat then d !! (off v + k)%nat else None.
Proof.
  unfold shown. destruct (decide (k < len v)%nat).
  - rewrite lookup_take_lt by done. apply lookup_drop.
  - apply lookup_take_ge. lia.
Qed.

Lemma shown_length (h : list cell) (v : Slice) (d : list any) :
  backing h v d → length (shown v d) = len v.
Proof.
  intros (_ & H1 & H2). unfold shown. rewrite length_take, length_drop. lia.
Qed.

Lemma backing_insert (h : list cell) (v : Slice) (d d' : list any) (a : loc) :
  backing h v d → arr v = a → length d' = length d →
  backing (<[a := CArr d']> h) v d'.
Proof.
  intros (H0 & H1 & H2) <- Hlen. split; [|split; [lia|done]].
  apply list_lookup_insert_eq. by eapply lookup_lt_Some.
Qed.

Lemma backing_insert_ne (h : list cell) (v : Slice) (d : list any) (a : loc) c :
  backing h v d → arr v ≠ a → backing (<[a := c]> h) v d.
Proof.
  intros (H0 & H1 & H2) Hne. split; [|done].
  by rewrite list_lookup_insert_ne.
Qed.

Lemma backing_app (h h' : list cell) (v : Slice) (d : list any) :
  backing h v d → backing (h ++ h') v d.
Proof.
  intros (H0 & H1 & H2). split; [|done]. by apply lookup_app_l_Some.
Qed.

Lemma loadArr_run o h a d :
  h !! a = Some (CArr d) → loadArr a (mkState o h) = (Ok d, mkState o h).
Proof. unfold loadArr. cbn. by intros ->. Qed.

Lemma storeArr_run o h a d d' :
  h !! a = Some (CArr d) →
  storeArr a d' (mkState o h) = (Ok tt, mkState o (<[a := CArr d']> h)).
Proof. unfold storeArr. cbn. by intros ->. Qed.

Lemma loadMap_run o h m t :
  h !! m = Some (CMap t) → loadMap m (mkState o h) = (Ok t, mkState o h).
Proof. unfold loadMap. cbn. by intros ->. Qed.

Lemma storeMap_run o h m t t' :
  h !! m = Some (CMap t) →
  storeMap m t' (mkState o h) = (Ok tt, mkState o (<[m := CMap t']> h)).
Proof. unfold storeMap. cbn. by intros ->. Qed.

Lemma elements_run o h v d :
  backing h v d → elements v (mkState o h) = (Ok (shown v d), mkState o h).
Proof.
  intros (H0 & _). unfold elements.
  by rewrite (bind_Ok _ _ _ _ _ (loadArr_run o h _ _ H0)).
Qed.

Lemma index_run o h v d (i : Z) x :
  backing h v d → 0 ≤ i < lenZ v → shown v d !! Z.to_nat i = Some x →
  index v i (mkState o h) = (Ok x, mkState o h).
Proof.
  intros (H0 & H1 & H2) Hi Hx. unfold index, lenZ in *.
  destruct (Z.ltb_spec i 0); [lia|].
  destruct (Z.leb_spec (Z.of_nat (len v)) i); [lia|]. cbn [orb].
  rewrite (bind_Ok _ _ _ _ _ (loadArr_run o h _ _ H0)).
  rewrite shown_lookup in Hx. destruct (decide _) in Hx; [|done].
  by rewrite Hx.
Qed.

Lemma index_panics st v (i : Z) :
  i < 0 ∨ lenZ v ≤ i →
  index v i st = (Panic (IndexOutOfRange i (len v)), st).
Proof.
  intros Hi. unfold index.
  destruct (Z.ltb_spec i 0), (Z.leb_spec (lenZ v) i); try done. lia.
Qed.

Lemma setIndex_run o h v d (i : Z) x :
  backing h v d → 0 ≤ i < lenZ v →
  setIndex v i x (mkState o h)
  = (Ok tt, mkState o (<[arr v := CArr (<[(off v + Z.to_nat i)%nat := x]> d)]> h)).
Proof.
  intros (H0 & H1 & H2) Hi. unfold setIndex, lenZ in *.
  destruct (Z.ltb_spec i 0); [lia|].
  destruct (Z.leb_spec (Z.of_nat (len v)) i); [lia|]. cbn [orb].
  rewrite (bind_Ok _ _ _ _ _ (loadArr_run o h _ _ H0)).
  by rewrite (storeArr_run o h _ d).
Qed.

Lemma reslice_run st v (lo hi : Z) :
  0 ≤ lo ≤ hi → hi ≤ Z.of_nat (cap v) →
  reslice v lo hi st
  = (Ok (mkSlice (arr v) (off v + Z.to_nat lo) (Z.to_nat (hi - lo))
                 (cap v - Z.to_nat lo)), st).
Proof.
  intros Hlo Hhi. unfold reslice.
  destruct (Z.ltb_spec lo 0); [lia|]. destruct (Z.ltb_spec hi lo); [lia|].
  destruct (Z.ltb_spec (Z.of_nat (cap v)) hi); [lia|]. done.
Qed.

Lemma backing_reslice h v d (lo hi : Z) :
  backing h v d → 0 ≤ lo ≤ hi → hi ≤ Z.of_nat (cap v) →
  backing h (mkSlice (arr v) (off v + Z.to_nat lo) (Z.to_nat (hi - lo))
                     (cap v - Z.to_nat lo)) d.
Proof.
  intros (H0 & H1 & H2) Hlo Hhi. split; [done|]. cbn. lia.
Qed.

Lemma make_run o h n :
  make n (mkState o h)
  = (Ok (mkSlice (length h) 0 n n), mkState o (h ++ [CArr (replicate n ANil)])).
Proof. done. Qed.

Lemma copy_run o h dst src dd ds :
  backing h dst dd → backing h src ds →
  copy dst src (mkState o h)
  = (Ok tt, mkState o (<[arr dst :=
       CArr (overwrite (off dst) (take (len dst) (shown src ds)) dd)]> h)).
Proof.
  intros Hd Hs. unfold copy.
  rewrite (bind_Ok _ _ _ _ _ (elements_run o h _ _ Hs)).
  destruct Hd as (H0 & _).
  rewrite (bind_Ok _ _ _ _ _ (loadArr_run o h _ _ H0)).
  by rewrite (storeArr_run o h _ dd).
Qed.

Lemma append_run_within o h v d xs :
  backing h v d → (len v + length xs ≤ cap v)%nat →
  append v xs (mkState o h)
  = (Ok (mkSlice (arr v) (off v) (len v + length xs) (cap v)),
     mkState o (<[arr v := CArr (overwrite (off v + len v) xs d)]> h)).
Proof.
  intros (H0 & H1 & H2) Hn. unfold append.
  destruct (Nat.leb_spec (len v + length xs) (cap v)); [|lia].
  rewrite (bind_Ok _ _ _ _ _ (loadArr_run o h _ _ H0)).
  by rewrite (bind_Ok _ _ _ _ _ (storeArr_run o h _ d _ H0)).
Qed.

Lemma append_run_grow o h v d xs :
  backing h v d → (cap v < len v + length xs)%nat →
  append v xs (mkState o h)
  = (Ok (mkSlice (length h) 0 (len v + length xs)
                 (growCap (cap v) (len v + length xs))),
     mkState o (h ++ [CArr (shown v d ++ xs ++
        replicate (growCap (cap v) (len v + length xs) - (len v + length xs)) ANil)])).
Proof.
  intros Hb Hn. unfold append.
  destruct (Nat.leb_spec (len v + length xs) (cap v)); [lia|].
  by rewrite (bind_Ok _ _ _ _ _ (elements_run o h _ _ Hb)).
Qed.

(** ** [sliceRemove] and [sliceInsert] *)

Lemma lenZ_nat (v : Slice) : lenZ v = Z.of_nat (len v).
Proof. done. Qed.

(** Removing an element: the slice keeps its array, which is rewritten in
    place, and then shows one element less. *)
Lemma sliceRemove_spec o h s d (i : Z) :
  backing h s d → 0 ≤ i < lenZ s →
  ∃ s' d',
    sliceRemove s i (mkState o h) = (Ok s', mkState o (<[arr s := CArr d']> h))
    ∧ arr s' = arr s ∧ off s' = off s ∧ cap s' = cap s
    ∧ len s' = (len s - 1)%nat
    ∧ length d' = length d
    ∧ shown s' d' = delete (Z.to_nat i) (shown s d).
Proof.
  intros Hb Hi. pose proof Hb as (H0 & H1 & H2). rewrite lenZ_nat in Hi.
  set (front := mkSlice (arr s) (off s + Z.to_nat 0) (Z.to_nat (i - 0))
                        (cap s - Z.to_nat 0)).
  set (back := mkSlice (arr s) (off s + Z.to_nat (i + 1))
                       (Z.to_nat (lenZ s - (i + 1))) (cap s - Z.to_nat (i + 1))).
  assert (backing h front d) as Hf by (apply backing_reslice; [done|lia..]).
  assert (backing h back d) as Hk
    by (apply backing_reslice; [done|rewrite ?lenZ_nat; lia..]).
  assert (length (shown back d) = (len s - Z.to_nat i - 1)%nat) as Hlen.
  { rewrite (shown_length h) by done. cbn. rewrite lenZ_nat. lia. }
  unfold sliceRemove.
  erewrite bind_Ok; [|apply reslice_run; lia].
  erewrite bind_Ok; [|apply reslice_run; rewrite ?lenZ_nat; lia].
  erewrite bind_Ok; [|by apply elements_run].
  fold front back.
  rewrite (append_run_within o h front d); [|done|rewrite Hlen; cbn; lia].
  eexists _, _. split; [done|]. cbn [arr off cap len front].
  assert (off s + Z.to_nat 0 + Z.to_nat (i - 0) + length (shown back d)
          ≤ length d)%nat as Hfit by lia.
  split; [done|]. split; [lia|]. split; [lia|]. split; [lia|].
  split; [by apply overwrite_length|].
  apply list_eq. intros k. rewrite shown_lookup. cbn [len off].
  rewrite overwrite_lookup by done.
  destruct (decide (k < Z.to_nat i)%nat) as [Hk1|Hk1].
  - rewrite list_lookup_delete_lt by done. rewrite !shown_lookup.
    repeat case_decide; try lia. f_equal. lia.
  - rewrite list_lookup_delete_ge by lia. rewrite !shown_lookup. cbn [len off].
    repeat case_decide; subst front back; cbn [len off] in *;
      rewrite ?lenZ_nat in *; try lia; try done. f_equal. lia.
Qed.

Lemma insert_app_last (h : list cell) (c c' : cell) :
  <[length h := c']> (h ++ [c])%list = (h ++ [c'])%list.
Proof.
  rewrite insert_app_r_alt by lia. by rewrite Nat.sub_diag.
Qed.

Lemma lookup_app_last (h : list cell) (c : cell) :
  (h ++ [c])%list !! length h = Some c.
Proof. rewrite lookup_app_r by lia. by rewrite Nat.sub_diag. Qed.

Lemma insertAt_lookup (i : nat) (x : any) (xs : list any) (k : nat) :
  (i ≤ length xs)%nat →
  insertAt i x xs !! k =
    if decide (k < i)%nat then xs !! k
    else if decide (k = i) then Some x
    else xs !! (k - 1)%nat.
Proof.
  intros Hi. unfold insertAt.
  assert (length (take i xs) = i) as Htk by (rewrite length_take; lia).
  destruct (decide (k < i)%nat).
  { rewrite lookup_app_l by lia. by rewrite lookup_take_lt. }
  rewrite lookup_app_r by lia. rewrite Htk.
  destruct (decide (k = i)) as [->|].
  { by rewrite Nat.sub_diag. }
  rewrite lookup_cons_ne_0 by lia.
  rewrite lookup_drop. f_equal. lia.
Qed.

Lemma insertAt_length (i : nat) (x : any) (xs : list any) :
  length (insertAt i x xs) = S (length xs).
Proof.
  unfold insertAt. rewrite length_app. cbn. rewrite length_take, length_drop. lia.
Qed.
Lemma backing_last h (n c : nat) (r : list any) :
  (c ≤ length r)%nat → (n ≤ c)%nat →
  backing (h ++ [CArr r])%list (mkSlice (length h) 0 n c) r.
Proof.
  intros Hc Hn. split; [apply lookup_app_last|]. cbn. lia.
Qed.

(** Inserting before the end: a fresh array receives the elements. *)
Lemma sliceInsert_fresh o h s d (i : Z) x :
  backing h s d → 0 ≤ i < lenZ s →
  ∃ d',
    sliceInsert s i x (mkState o h)
    = (Ok (mkSlice (length h) 0 (len s + 1) (len s + 1)),
       mkState o (h ++ [CArr d'])%list)
    ∧ length d' = (len s + 1)%nat
    ∧ shown (mkSlice (length h) 0 (len s + 1) (len s + 1)) d'
      = insertAt (Z.to_nat i) x (shown s d).
Proof.
  intros Hb Hi. pose proof Hb as (H0 & H1 & H2). rewrite lenZ_nat in Hi.
  unfold sliceInsert. destruct (Z.eqb_spec i (lenZ s)) as [Heq|_].
  { rewrite lenZ_nat in Heq. lia. }
  set (n := mkSlice (length h) 0 (len s + 1) (len s + 1)).
  set (r0 := replicate (len s + 1) ANil).
  set (n1 := mkSlice (arr n) (off n + Z.to_nat 0) (Z.to_nat (i - 0))
                     (cap n - Z.to_nat 0)).
  set (s1 := mkSlice (arr s) (off s + Z.to_nat 0) (Z.to_nat (i - 0))
                     (cap s - Z.to_nat 0)).
  set (n2 := mkSlice (arr n) (off n + Z.to_nat (i + 1))
                     (Z.to_nat (lenZ n - (i + 1))) (cap n - Z.to_nat (i + 1))).
  set (s2 := mkSlice (arr s) (off s + Z.to_nat i)
                     (Z.to_nat (lenZ s - i)) (cap s - Z.to_nat i)).
  set (r1 := overwrite (off n1) (take (len n1) (shown s1 d)) r0).
  set (r2 := <[(off n + Z.to_nat i)%nat := x]> r1).
  set (r3 := overwrite (off n2) (take (len n2) (shown s2 d)) r2).
  assert (length r0 = (len s + 1)%nat) as Hr0 by apply length_replicate.
  assert (backing h s1 d) as Hs1 by (apply backing_reslice; [done|lia..]).
  assert (backing h s2 d) as Hs2
    by (apply backing_reslice; [done|rewrite ?lenZ_nat; lia..]).
  assert (length (shown s1 d) = Z.to_nat i) as Hl1.
  { rewrite (shown_length h) by done. cbn. lia. }
  assert (length (shown s2 d) = (len s - Z.to_nat i)%nat) as Hl2.
  { rewrite (shown_length h) by done. cbn. rewrite lenZ_nat. lia. }
  assert (length r1 = (len s + 1)%nat) as Hr1.
  { unfold r1. rewrite overwrite_length; [done|].
    rewrite length_take, Hl1, Hr0. cbn. lia. }
  assert (length r2 = (len s + 1)%nat) as Hr2.
  { unfold r2. by rewrite length_insert. }
  assert (length r3 = (len s + 1)%nat) as Hr3.
  { unfold r3. rewrite overwrite_length; [done|].
    rewrite length_take, Hl2, Hr2. cbn. rewrite lenZ_nat. cbn. lia. }
  rewrite (bind_Ok _ _ _ _ _ (make_run o h _)). fold n r0.
  erewrite bind_Ok; [|apply reslice_run; cbn; lia]. fold n1.
  erewrite bind_Ok; [|apply reslice_run; lia]. fold s1.
  erewrite bind_Ok; cycle 1.
  { apply (copy_run o _ n1 s1 r0 d).
    - apply (backing_reslice _ n r0 0 i); [|lia|cbn; lia].
      apply backing_last; lia.
    - by apply backing_app. }
  cbn [arr n1 n]. rewrite insert_app_last. fold n n1 r1.
  erewrite bind_Ok; cycle 1.
  { apply (setIndex_run o _ n r1).
    - apply backing_last; lia.
    - rewrite lenZ_nat. cbn. lia. }
  cbn [arr n]. rewrite insert_app_last. fold n r2.
  erewrite bind_Ok; [|apply reslice_run; rewrite ?lenZ_nat; cbn; lia]. fold n2.
  erewrite bind_Ok; [|apply reslice_run; rewrite ?lenZ_nat; lia]. fold s2.
  erewrite bind_Ok; cycle 1.
  { apply (copy_run o _ n2 s2 r2 d).
    - apply (backing_reslice _ n r2 (i + 1) (lenZ n));
        [|rewrite ?lenZ_nat; cbn; lia..].
      apply backing_last; lia.
    - by apply backing_app. }
  cbn [arr n2 n]. rewrite insert_app_last. fold n n2 r3.
  exists r3. split; [done|]. split; [done|].
  apply list_eq. intros k.
  rewrite insertAt_lookup by (rewrite (shown_length h) by done; lia).
  rewrite shown_lookup. cbn [len off n]. unfold r3.
  rewrite overwrite_lookup
    by (rewrite length_take, Hl2, Hr2; cbn; rewrite lenZ_nat; cbn; lia).
  rewrite length_take, Hl2. unfold r2.
  rewrite list_lookup_insert, Hr1. unfold r1.
  rewrite overwrite_lookup by (rewrite length_take, Hl1, Hr0; cbn; lia).
  rewrite length_take, Hl1. rewrite !lookup_take. rewrite !shown_lookup.
  unfold r0. rewrite ?lenZ_nat in *.
  repeat case_decide; subst n1 n2 s1 s2 n; unfold lenZ in *;
    cbn [len off cap arr] in *; try lia; try done.
  all: try (f_equal; lia).
  all: try (symmetry; apply lookup_ge_None; lia).
Qed.

Lemma growCap_ge (old need : nat) : (need ≤ growCap old need)%nat.
Proof. unfold growCap. lia. Qed.

(** Inserting anywhere from the front to the append slot.  The result
    shows the old elements with [x] before position [i]; it lives either in
    the array of [s] (an append within the capacity) or in a fresh array;
    every other cell of the heap and the elements [s] itself shows are as
    before. *)
Lemma sliceInsert_spec o h s d (i : Z) x :
  backing h s d → 0 ≤ i ≤ lenZ s →
  ∃ s' h' d',
    sliceInsert s i x (mkState o h) = (Ok s', mkState o h')
    ∧ backing h' s' d'
    ∧ shown s' d' = insertAt (Z.to_nat i) x (shown s d)
    ∧ len s' = S (len s)
    ∧ (∃ dS, backing h' s dS ∧ shown s dS = shown s d)
    ∧ ((arr s' = arr s ∧ off s' = off s ∧ cap s' = cap s ∧ i = lenZ s
        ∧ h' = <[arr s := CArr d']> h ∧ length d' = length d)
       ∨ (arr s' = length h ∧ h' = (h ++ [CArr d'])%list)).
Proof.
  intros Hb Hi. pose proof Hb as (H0 & H1 & H2).
  destruct (decide (i = lenZ s)) as [->|Hne].
  - unfold sliceInsert. rewrite Z.eqb_refl. rewrite lenZ_nat, Nat2Z.id.
    assert (insertAt (len s) x (shown s d) = (shown s d ++ [x])%list) as Hins.
    { unfold insertAt. rewrite take_ge, drop_ge; [done|..];
        rewrite (shown_length h) by done; lia. }
    destruct (decide (len s + 1 ≤ cap s)%nat) as [Hfit|Hfull].
    + rewrite (append_run_within o h s d) by done. cbn [length].
      set (d' := overwrite (off s + len s) [x] d).
      assert (length d' = length d) as Hd'
        by (apply overwrite_length; cbn; lia).
      eexists _, _, d'. split; [done|].
      assert (∀ k, (k < len s)%nat → d' !! (off s + k)%nat = d !! (off s + k)%nat)
        as Hsame.
      { intros k Hk. unfold d'. rewrite overwrite_lookup by (cbn; lia).
        case_decide; [done|lia]. }
      split; [|split; [|split; [cbn; lia|split]]].
      * apply (backing_insert h (mkSlice (arr s) (off s) (len s + 1) (cap s)) d);
          [|done..]. split; [done|]. cbn. lia.
      * rewrite Hins. apply list_eq. intros k. rewrite shown_lookup.
        cbn [len off]. unfold d'. rewrite overwrite_lookup by (cbn; lia).
        cbn [length].
        destruct (decide (k < len s)%nat).
        { rewrite lookup_app_l by (rewrite (shown_length h) by done; lia).
          rewrite shown_lookup. repeat case_decide; try lia. done. }
        rewrite lookup_app_r by (rewrite (shown_length h) by done; lia).
        rewrite (shown_length h) by done.
        repeat case_decide; try lia.
        { f_equal. lia. }
        symmetry. apply lookup_ge_None. cbn. lia.
      * exists d'. split; [by apply (backing_insert h s d)|].
        apply list_eq. intros k. rewrite !shown_lookup.
        case_decide; [|done]. by apply Hsame.
      * left. done.
    + rewrite (append_run_grow o h s d) by (done || (cbn; lia)). cbn [length].
      set (c := growCap (cap s) (len s + 1)).
      pose proof (growCap_ge (cap s) (len s + 1)) as Hc. fold c in Hc.
      set (d' := (shown s d ++ [x] ++ replicate (c - (len s + 1)) ANil)%list).
      assert (length d' = c) as Hd'.
      { unfold d'. rewrite !length_app, length_replicate.
        rewrite (shown_length h) by done. cbn. lia. }
      eexists _, _, d'. split; [done|].
      split; [|split; [|split; [cbn; lia|split]]].
      * apply backing_last; lia.
      * rewrite Hins. unfold shown at 1, d'. cbn [len off]. rewrite drop_0.
        rewrite app_assoc. rewrite take_app_length'; [done|].
        rewrite length_app, (shown_length h) by done. cbn. lia.
      * exists d. split; [by apply backing_app|done].
      * right. done.
  - assert (0 ≤ i < lenZ s) as Hi' by lia.
    destruct (sliceInsert_fresh o h s d i x Hb Hi') as (d' & Hrun & Hlen & Hsh).
    eexists _, _, d'. split; [exact Hrun|].
    split; [|split; [|split; [cbn; lia|split]]].
    + apply backing_last; lia.
    + done.
    + exists d. split; [by apply backing_app|done].
    + right. done.
Qed.

(** C9: inserting [x] at an index [i] with [0 <= i <= len(s)] and then
    removing at [i] both succeed; the resulting slice shows exactly the
    elements [s] showed, and [s] itself still shows them. *)
Theorem sliceInsert_sliceRemove_id o h s d (i : Z) x :
  backing h s d → 0 ≤ i ≤ lenZ s →
  ∃ s1 st1 s2 st2 d2 dS,
    sliceInsert s i x (mkState o h) = (Ok s1, st1)
    ∧ sliceRemove s1 i st1 = (Ok s2, st2)
    ∧ backing (heap st2) s2 d2
    ∧ shown s2 d2 = shown s d
    ∧ backing (heap st2) s dS
    ∧ shown s dS = shown s d.
Proof.
  intros Hb Hi.
  destruct (sliceInsert_spec o h s d i x Hb Hi)
    as (s1 & h1 & d1 & Hrun1 & Hb1 & Hsh1 & Hlen1 & (dS & HbS & HshS) & Hwhere).
  assert (0 ≤ i < lenZ s1) as Hi1 by (rewrite !lenZ_nat in *; lia).
  destruct (sliceRemove_spec o h1 s1 d1 i Hb1 Hi1)
    as (s2 & d2 & Hrun2 & Ha & Ho & Hc & Hl & Hd2 & Hsh2).
  assert (shown s2 d2 = shown s d) as Hback.
  { rewrite Hsh2, Hsh1. unfold insertAt.
    assert (length (take (Z.to_nat i) (shown s d)) = Z.to_nat i) as Htk.
    { rewrite length_take, (shown_length h) by done.
      rewrite lenZ_nat in Hi. lia. }
    rewrite <- Htk at 1. rewrite delete_middle. apply take_drop. }
  assert (backing (<[arr s1 := CArr d2]> h1) s2 d2) as Hb2.
  { destruct Hb1 as (Hx & Hy & Hz). split; [|lia].
    rewrite Ha. apply list_lookup_insert_eq. by eapply lookup_lt_Some. }
  exists s1, (mkState o h1), s2, (mkState o (<[arr s1 := CArr d2]> h1)).
  destruct Hwhere as [(Harr & Hoff & Hcap & -> & Hh1 & Hd1)|(Harr & Hh1)].
  - exists d2, d2. cbn [heap]. split; [done|]. split; [done|].
    split; [done|]. split; [done|].
    assert (shown s d2 = shown s2 d2) as Hss.
    { unfold shown. rewrite Ho, Hoff, Hl, Hlen1. f_equal. lia. }
    split; [|by rewrite Hss].
    destruct HbS as (Hx & Hy & Hz). destruct Hb1 as (Hx1 & _).
    rewrite Harr, Hx in Hx1. injection Hx1 as ->. split; [|lia].
    rewrite Harr. apply list_lookup_insert_eq. by eapply lookup_lt_Some.
  - exists d2, dS. cbn [heap]. split; [done|]. split; [done|].
    split; [done|]. split; [done|]. split; [|done].
    apply backing_insert_ne; [done|].
    destruct Hb as (Hx & _). apply lookup_lt_Some in Hx. lia.
Qed.

Lemma sliceInsert_sliceRemove_id_witness :
  backing exHeap exSlice exArray ∧ 0 ≤ 1 ≤ lenZ exSlice ∧
  ∃ s1 st1 s2 st2 d2 dS,
    sliceInsert exSlice 1 (ANum 9) (mkState ANil exHeap) = (Ok s1, st1)
    ∧ sliceRemove s1 1 st1 = (Ok s2, st2)
    ∧ backing (heap st2) s2 d2
    ∧ shown s2 d2 = shown exSlice exArray
    ∧ backing (heap st2) exSlice dS
    ∧ shown exSlice dS = shown exSlice exArray.
Proof.
  assert (backing exHeap exSlice exArray) as Hb.
  { split; [done|]. unfold exSlice, exArray; cbn. lia. }
  assert (0 ≤ 1 ≤ lenZ exSlice) as Hi by (unfold lenZ, exSlice; cbn; lia).
  split; [done|]. split; [done|].
  exact (sliceInsert_sliceRemove_id ANil exHeap exSlice exArray 1 (ANum 9) Hb Hi).
Defined.


(** ** The mutators on arrays *)

Lemma ParseArrayIndex_range (p : Options) (size : Z) (s : string) (i : Z) :
  0 ≤ size → ParseArrayIndex p size s = inl i → 0 ≤ i ≤ size.
Proof.
  intros Hsize. unfold ParseArrayIndex.
  destruct (String.eqb s "-").
  { destruct (Z.eqb_spec size 0); intros [= <-]; lia. }
  assert (∀ j, checkBounds size s j = inl i → 0 ≤ i ≤ size) as Hcb.
  { intros j. unfold checkBounds.
    destruct (Z.ltb_spec j 0), (Z.ltb_spec size j); cbn; intros [= <-]; lia. }
  destruct (SupportNegativeArrayIndex p).
  - destruct (MatchString negativeIndexRE s); [|done]. cbn [negb].
    destruct (Atoi s); [|done]. apply Hcb.
  - destruct (MatchString indexRE s) eqn:Hm; [|done]. cbn [negb].
    rewrite indexRE_grammar in Hm. destruct (Atoi_token s Hm) as [Hv ->].
    destruct (maxInt <? tokenValue s); [done|].
    destruct (Z.ltb_spec (tokenValue s) 0); [lia|]. apply Hcb.
Qed.

Lemma lenZ_nonneg (v : Slice) : 0 ≤ lenZ v.
Proof. unfold lenZ. lia. Qed.

Lemma shown_insert (v : Slice) (d : list any) (k : nat) (x : any) :
  (off v + len v ≤ length d)%nat → (k < len v)%nat →
  shown v (<[(off v + k)%nat := x]> d) = <[k := x]> (shown v d).
Proof.
  intros Hd Hk. apply list_eq. intros j.
  rewrite shown_lookup, !list_lookup_insert, shown_lookup.
  unfold shown. rewrite length_take, length_drop.
  repeat case_decide; try lia; try done.
  all: destruct_and?; try lia.
  all: exfalso; apply H0; split; lia.
Qed.

(** C5: on an array, a token that resolves to the length (the append
    slot) makes [ReplaceValue] fail with [ErrNotExists] in strict mode and
    return nil without touching anything otherwise; a token that resolves
    below the length overwrites that element of the array in place, the
    slice header and every other element staying as they are. *)
Theorem ReplaceValue_array (p : Options) o h v d set key value (i : Z) :
  backing h v d →
  ParseArrayIndex p (lenZ v) key = inl i →
  (i = lenZ v →
     ReplaceValue p (ASlice v) set key value (mkState o h)
     = (if StrictPathExists p then Err ErrNotExists else Ok tt, mkState o h))
  ∧ (i < lenZ v →
     ReplaceValue p (ASlice v) set key value (mkState o h)
     = (Ok tt, mkState o
          (<[arr v := CArr (<[(off v + Z.to_nat i)%nat := value]> d)]> h))
     ∧ shown v (<[(off v + Z.to_nat i)%nat := value]> d)
       = <[Z.to_nat i := value]> (shown v d)).
Proof.
  intros Hb Hparse.
  pose proof (ParseArrayIndex_range p _ _ _ (lenZ_nonneg v) Hparse) as Hi.
  unfold ReplaceValue. rewrite Hparse. cbn [lift].
  rewrite (bind_Ok _ _ _ _ _ (eq_refl : ret i (mkState o h) = _)).
  split.
  - intros ->. rewrite Z.eqb_refl. by destruct (StrictPathExists p).
  - intros Hlt. destruct (Z.eqb_spec (lenZ v) i); [lia|].
    split; [apply (setIndex_run o h v d); [done|lia]|].
    destruct Hb as (_ & H1 & H2). apply shown_insert; [lia|].
    rewrite lenZ_nat in Hlt. lia.
Qed.

Lemma ReplaceValue_array_witness :
  backing exHeap exSlice exArray
  ∧ ParseArrayIndex (mkOptions true false) (lenZ exSlice) "1" = inl 1
  ∧ ReplaceValue (mkOptions true false) (ASlice exSlice) SetRoot "1" (ANum 9)
      (mkState ANil exHeap)
    = (Ok tt, mkState ANil [CArr [ANum 1; ANum 9; ANum 3; ANil]]).
Proof.
  assert (backing exHeap exSlice exArray) as Hb.
  { split; [done|]. unfold exSlice, exArray; cbn. lia. }
  assert (ParseArrayIndex (mkOptions true false) (lenZ exSlice) "1" = inl 1)
    as Hp by reflexivity.
  split; [done|]. split; [done|].
  destruct (ReplaceValue_array (mkOptions true false) ANil exHeap exSlice
              exArray SetRoot "1" (ANum 9) 1 Hb Hp) as [_ Hlt].
  destruct Hlt as [Hrun _]; [done|]. exact Hrun.
Defined.

(** Writing again the element a slice already shows changes nothing. *)
Lemma insert_shown_id (v : Slice) (d : list any) (k : nat) (x : any) :
  shown v d !! k = Some x → <[(off v + k)%nat := x]> d = d.
Proof.
  intros Hx. rewrite shown_lookup in Hx. case_decide; [|done].
  by apply list_insert_id.
Qed.

(** X1: where [MoveValue] on an array does move.  When the two tokens
    resolve to the same index, it returns nil and leaves the state as it is; when
    they resolve to different indices [fi] and [ti] that are both below
    the length, it takes the element at [fi] out, inserts it before
    position [ti] of what is left, and hands the resulting slice to the
    setter. *)
Theorem MoveValue_array (p : Options) o h v d set from to (fi ti : Z) :
  backing h v d →
  ParseArrayIndex p (lenZ v) from = inl fi →
  ParseArrayIndex p (lenZ v) to = inl ti →
  (fi = ti →
     MoveValue p (ASlice v) set from to (mkState o h) = (Ok tt, mkState o h))
  ∧ (fi ≠ ti → fi < lenZ v → ti < lenZ v →
     ∃ e v2 h2 d2,
       shown v d !! Z.to_nat fi = Some e
       ∧ MoveValue p (ASlice v) set from to (mkState o h)
         = callSetter set (ASlice v2) (mkState o h2)
       ∧ backing h2 v2 d2
       ∧ shown v2 d2
         = insertAt (Z.to_nat ti) e (delete (Z.to_nat fi) (shown v d))).
Proof.
  intros Hb Hpf Hpt.
  pose proof (ParseArrayIndex_range p _ _ _ (lenZ_nonneg v) Hpf) as Hfi.
  pose proof (ParseArrayIndex_range p _ _ _ (lenZ_nonneg v) Hpt) as Hti.
  unfold MoveValue. rewrite Hpf, Hpt. split.
  { intros ->. by rewrite Z.eqb_refl. }
  intros Hne Hflt Htlt. destruct (Z.eqb_spec fi ti); [done|].
  pose proof (shown_length h v d Hb) as Hlen.
  rewrite lenZ_nat in *.
  destruct (lookup_lt_is_Some_2 (shown v d) (Z.to_nat fi)) as [e He]; [lia|].
  erewrite bind_Ok; [|by apply (index_run o h v d); [|rewrite lenZ_nat; lia|]].
  destruct (sliceRemove_spec o h v d fi Hb)
    as (v1 & d1 & Hrun1 & Ha1 & Ho1 & Hc1 & Hl1 & Hd1 & Hsh1);
    [rewrite lenZ_nat; lia|].
  rewrite (bind_Ok _ _ _ _ _ Hrun1).
  assert (backing (<[arr v := CArr d1]> h) v1 d1) as Hb1.
  { destruct Hb as (Hx & Hy & Hz). split; [|lia].
    rewrite Ha1. apply list_lookup_insert_eq. by eapply lookup_lt_Some. }
  destruct (sliceInsert_spec o _ v1 d1 ti e Hb1)
    as (v2 & h2 & d2 & Hrun2 & Hb2 & Hsh2 & Hl2 & _ & _);
    [rewrite lenZ_nat; lia|].
  rewrite (bind_Ok _ _ _ _ _ Hrun2).
  assert (shown v2 d2 !! Z.to_nat ti = Some e) as Hti_e.
  { rewrite Hsh2, insertAt_lookup
      by (rewrite (shown_length _ _ _ Hb1); lia).
    repeat case_decide; try lia; done. }
  erewrite bind_Ok;
    [|by apply (setIndex_run o h2 v2 d2); [|rewrite lenZ_nat; lia]].
  rewrite (insert_shown_id v2 d2 _ e Hti_e).
  exists e, v2, (<[arr v2 := CArr d2]> h2), d2.
  split; [done|]. split; [done|]. split.
  - by apply (backing_insert h2 v2 d2).
  - by rewrite Hsh2, Hsh1.
Qed.

Lemma MoveValue_array_witness :
  backing exHeap exSlice exArray
  ∧ ParseArrayIndex (mkOptions true false) (lenZ exSlice) "0" = inl 0
  ∧ ParseArrayIndex (mkOptions true false) (lenZ exSlice) "2" = inl 2
  ∧ ((0 = 2 →
      MoveValue (mkOptions true false) (ASlice exSlice) SetRoot "0" "2"
        (mkState ANil exHeap) = (Ok tt, mkState ANil exHeap))
     ∧ (0 ≠ 2 → 0 < lenZ exSlice → 2 < lenZ exSlice →
        ∃ e v2 h2 d2,
          shown exSlice exArray !! Z.to_nat 0 = Some e
          ∧ MoveValue (mkOptions true false) (ASlice exSlice) SetRoot "0" "2"
              (mkState ANil exHeap)
            = callSetter SetRoot (ASlice v2) (mkState ANil h2)
          ∧ backing h2 v2 d2
          ∧ shown v2 d2
            = insertAt (Z.to_nat 2) e
                (delete (Z.to_nat 0) (shown exSlice exArray)))).
Proof.
  assert (backing exHeap exSlice exArray) as Hb.
  { split; [done|]. unfold exSlice, exArray; cbn. lia. }
  split; [done|]. split; [reflexivity|]. split; [reflexivity|].
  apply (MoveValue_array (mkOptions true false) ANil exHeap exSlice exArray
           SetRoot "0" "2" 0 2 Hb); reflexivity.
Defined.

(** C1 at its failing input: on the array [1, 2, 3] the tokens [0] and
    [-] are distinct and both resolve against the length 3 (to 0 and to
    3), yet [MoveValue] from [0] to [-] does not re-insert the removed
    element at index 3: it ends in a run-time panic, an index 3 into a
    slice of length 3.  The same happens from [-] to [0], where the read
    of the element at index 3 panics. *)
Lemma MoveValue_resolved_length_panics :
  ParseArrayIndex (mkOptions true false) (lenZ exSlice) "0" = inl 0
  ∧ ParseArrayIndex (mkOptions true false) (lenZ exSlice) "-" = inl 3
  ∧ fst (MoveValue (mkOptions true false) (ASlice exSlice) SetRoot "0" "-"
           (mkState (ASlice exSlice) exHeap))
    = Panic (IndexOutOfRange 3 3)
  ∧ fst (MoveValue (mkOptions true false) (ASlice exSlice) SetRoot "-" "0"
           (mkState (ASlice exSlice) exHeap))
    = Panic (IndexOutOfRange 3 3).
Proof. repeat split; reflexivity. Qed.

(** C2 at its failing input: applying [moveToEnd] to the document
    [1, 2, 3] passes the check and then panics in [sliceInsert], which
    reslices the two remaining elements up to index 3 and indexes the
    fresh three-element array at 3. *)
Lemma move_to_end_panics :
  Patch_Check (New []) moveToEnd = None
  ∧ fst (applyAny 0 (New []) moveToEnd (mkState (ASlice exSlice) exHeap))
    = Panic (IndexOutOfRange 3 3)
  ∧ fst (sliceInsert (mkSlice 0%nat 0%nat 2%nat 4%nat) 3 (ANum 1)
           (mkState (ASlice exSlice) [CArr [ANum 2; ANum 3; ANum 3; ANil]]))
    = Panic (IndexOutOfRange 3 3).
Proof. repeat split; vm_compute; reflexivity. Qed.

(** ** The navigator *)

Lemma mapGet_run o h m t k :
  h !! m = Some (CMap t) → mapGet m k (mkState o h) = (Ok (t !! k), mkState o h).
Proof.
  intros Hm. unfold mapGet.
  by rewrite (bind_Ok _ _ _ _ _ (loadMap_run o h _ _ Hm)).
Qed.

Lemma mapSet_run o h m t k x :
  h !! m = Some (CMap t) →
  mapSet m k x (mkState o h) = (Ok tt, mkState o (<[m := CMap (<[k := x]> t)]> h)).
Proof.
  intros Hm. unfold mapSet.
  rewrite (bind_Ok _ _ _ _ _ (loadMap_run o h _ _ Hm)).
  by apply (storeMap_run o h m t).
Qed.

Lemma mapDelete_run o h m t k :
  h !! m = Some (CMap t) →
  mapDelete m k (mkState o h) = (Ok tt, mkState o (<[m := CMap (delete k t)]> h)).
Proof.
  intros Hm. unfold mapDelete.
  rewrite (bind_Ok _ _ _ _ _ (loadMap_run o h _ _ Hm)).
  by apply (storeMap_run o h m t).
Qed.

(** C7: one descent step of the navigator, in a state with document
    variable [o] and heap [h], none of whose cases changes the state.
    On an object it fails with [ErrNotExists] exactly when the key is
    absent and otherwise returns the value under the key with the setter
    of that key; on an array it fails with [ErrNotExists] when the array
    is empty or the parsed index is the length, returns the error of a
    token that does not parse, and otherwise returns the element at the
    index with the setter of that index; on every other node it fails with
    the "cannot visit type" error.  With no segment, [VisitPath] returns
    the root with the setter that rebinds it.  Each setter writes exactly
    the slot it is for. *)
Theorem visitPathPart_cases (p : Options) (o : any) (h : list cell)
    (part : string) :
  (∀ m t, h !! m = Some (CMap t) →
     visitPathPart p (AMap m) part (mkState o h)
     = (match t !! part with
        | None => Err ErrNotExists
        | Some g => Ok (g, SetKey m part)
        end, mkState o h)
     ∧ ∀ n, callSetter (SetKey m part) n (mkState o h)
            = (Ok tt, mkState o (<[m := CMap (<[part := n]> t)]> h)))
  ∧ (∀ v d, backing h v d →
       (len v = 0%nat →
          visitPathPart p (ASlice v) part (mkState o h)
          = (Err ErrNotExists, mkState o h))
       ∧ (∀ e, len v ≠ 0%nat → ParseArrayIndex p (lenZ v) part = inr e →
          visitPathPart p (ASlice v) part (mkState o h) = (Err e, mkState o h))
       ∧ (∀ i, len v ≠ 0%nat → ParseArrayIndex p (lenZ v) part = inl i →
          (i = lenZ v →
             visitPathPart p (ASlice v) part (mkState o h)
             = (Err ErrNotExists, mkState o h))
          ∧ (i < lenZ v →
             ∃ x, shown v d !! Z.to_nat i = Some x
               ∧ visitPathPart p (ASlice v) part (mkState o h)
                 = (Ok (x, SetIndex v i), mkState o h)
               ∧ ∀ n, callSetter (SetIndex v i) n (mkState o h)
                      = (Ok tt, mkState o
                           (<[arr v :=
                              CArr (<[(off v + Z.to_nat i)%nat := n]> d)]> h)))))
  ∧ (∀ x, isScalar x = true →
       visitPathPart p x part (mkState o h)
       = (Err (ErrCannotVisit (typeName x)), mkState o h))
  ∧ VisitPath p [] (mkState o h) = (Ok (o, SetRoot), mkState o h)
  ∧ (∀ n, callSetter SetRoot n (mkState o h) = (Ok tt, mkState n h)).
Proof.
  split; [|split; [|split; [|split]]].
  - intros m t Hm. split.
    + unfold visitPathPart.
      rewrite (bind_Ok _ _ _ _ _ (mapGet_run o h m t part Hm)).
      by destruct (t !! part).
    + intros n. by apply mapSet_run.
  - intros v d Hb. split; [|split].
    + intros Hlen. unfold visitPathPart. by rewrite Hlen.
    + intros e Hlen Hparse. unfold visitPathPart.
      destruct (Nat.eqb_spec (len v) 0); [done|]. by rewrite Hparse.
    + intros i Hlen Hparse.
      pose proof (ParseArrayIndex_range p _ _ _ (lenZ_nonneg v) Hparse) as Hi.
      unfold visitPathPart.
      destruct (Nat.eqb_spec (len v) 0); [done|]. rewrite Hparse. cbn [lift].
      rewrite (bind_Ok _ _ _ _ _ (eq_refl : ret i (mkState o h) = _)).
      split.
      * intros ->. by rewrite Z.eqb_refl.
      * intros Hlt. destruct (Z.eqb_spec i (lenZ v)); [lia|].
        destruct (lookup_lt_is_Some_2 (shown v d) (Z.to_nat i)) as [x Hx].
        { rewrite (shown_length h) by done. rewrite lenZ_nat in Hlt. lia. }
        exists x. split; [done|]. split.
        -- by rewrite (bind_Ok _ _ _ _ _
                         (index_run o h v d i x Hb (conj (proj1 Hi) Hlt) Hx)).
        -- intros n'. apply setIndex_run; [done|lia].
  - intros x Hx. by destruct x.
  - done.
  - done.
Qed.

(** ** Static validation *)

Lemma Operation_check_None (op : Operation) :
  Operation_check op = None ↔
  ∃ name path, OP op = Some name ∧ Path op = Some path
    ∧ JSONPointer_Check (NewJSONPointer path) = None
    ∧ ∀ from, From op = Some from →
        JSONPointer_Check (NewJSONPointer from) = None.
Proof.
  unfold Operation_check. split.
  - destruct (OP op) as [name|]; [|done]. destruct (Path op) as [path|]; [|done].
    destruct (JSONPointer_Check (NewJSONPointer path)) eqn:Hp; [done|].
    intros H. exists name, path. repeat split; try done.
    intros from Hf. rewrite Hf in H.
    by destruct (JSONPointer_Check (NewJSONPointer from)).
  - intros (name & path & -> & -> & -> & Hf).
    destruct (From op) as [from|]; [|done]. by rewrite (Hf from).
Qed.

(** [Check] passes exactly the lists without a statically invalid
    operation. *)
Lemma Patch_Check_None (p : Patch) (ops : list Operation) :
  Patch_Check p ops = None ↔ ∀ op, op ∈ ops → ¬ staticallyInvalid p op.
Proof.
  induction ops as [|op rest IH].
  { split; [|done]. intros _ op Hin. by apply not_elem_of_nil in Hin. }
  cbn [Patch_Check]. split.
  - destruct (Operation_check op) eqn:Hc; [done|].
    apply Operation_check_None in Hc
      as (name & path & Hname & Hpath & Hptr & Hfrom).
    rewrite Hname. cbn [default from_option id].
    destruct (extensions p !! name) as [e|] eqn:He; [|done].
    destruct (ext_Check e (opts p) op) eqn:Hk; [done|].
    intros Hrest op' [->|Hin]%elem_of_cons; [|by apply IH].
    intros [H|[H|[(q & Hq & H)|[(q & Hq & H)|[(q & Hq & H)|(q & e' & Hq & He' & H)]]]]];
      try congruence.
    + apply H. specialize (Hfrom q Hq). done.
  - intros Hall.
    assert (¬ staticallyInvalid p op) as Hop
      by (apply Hall; apply elem_of_cons; by left).
    assert (Operation_check op = None) as Hc.
    { apply Operation_check_None.
      destruct (OP op) as [name|] eqn:Hname; [|exfalso; apply Hop; by left].
      destruct (Path op) as [path|] eqn:Hpath;
        [|exfalso; apply Hop; right; by left].
      exists name, path. repeat split; try done.
      - destruct (JSONPointer_Check (NewJSONPointer path)) eqn:Hp; [|done].
        exfalso. apply Hop. right. right. left. exists path.
        split; [done|]. by rewrite Hp.
      - intros from Hf.
        destruct (JSONPointer_Check (NewJSONPointer from)) eqn:Hp; [|done].
        exfalso. apply Hop. right. right. right. left. exists from.
        split; [done|]. by rewrite Hp. }
    rewrite Hc.
    destruct (OP op) as [name|] eqn:Hname; [|exfalso; apply Hop; by left].
    cbn [default from_option id].
    destruct (extensions p !! name) as [e|] eqn:He.
    2:{ exfalso. apply Hop. do 4 right. left. by exists name. }
    destruct (ext_Check e (opts p) op) eqn:Hk.
    { exfalso. apply Hop. do 5 right. exists name, e.
      repeat split; try done. by rewrite Hk. }
    apply IH. intros op' Hin. apply Hall. apply elem_of_cons. by right.
Qed.

(** C4: when an operation of the list is statically invalid, [Check]
    returns an error, and both [applyAny] and the exported [ApplyAny]
    return an error with the document variable and the whole heap exactly
    as they were: no handler has run. *)
Theorem applyAny_invalid_list_untouched (fuel : nat) (p : Patch)
    (ops : list Operation) (st : state) :
  (∃ op, op ∈ ops ∧ staticallyInvalid p op) →
  ∃ err err',
    Patch_Check p ops = Some err
    ∧ applyAny fuel p ops st = (Err err, st)
    ∧ ApplyAny fuel p ops st = (Err err', st).
Proof.
  intros (op & Hin & Hbad).
  destruct (Patch_Check p ops) as [err|] eqn:Hc.
  2:{ exfalso. by apply (proj1 (Patch_Check_None p ops) Hc op). }
  assert (applyAny fuel p ops st = (Err err, st)) as Happly.
  { unfold applyAny. by rewrite Hc. }
  unfold ApplyAny, bind, getDoc.
  destruct (doc st); rewrite ?Happly; by eexists _, _.
Qed.

Lemma applyAny_invalid_list_untouched_witness :
  (∃ op, op ∈ [mkOperation (Some "add") (Some "a/b") (Some ANil) None]
         ∧ staticallyInvalid (New []) op)
  ∧ ∃ err err',
      Patch_Check (New []) [mkOperation (Some "add") (Some "a/b") (Some ANil) None]
      = Some err
      ∧ applyAny 0 (New []) [mkOperation (Some "add") (Some "a/b") (Some ANil) None]
          (mkState (ASlice exSlice) exHeap)
        = (Err err, mkState (ASlice exSlice) exHeap)
      ∧ ApplyAny 0 (New []) [mkOperation (Some "add") (Some "a/b") (Some ANil) None]
          (mkState (ASlice exSlice) exHeap)
        = (Err err', mkState (ASlice exSlice) exHeap).
Proof.
  assert (∃ op, op ∈ [mkOperation (Some "add") (Some "a/b") (Some ANil) None]
                ∧ staticallyInvalid (New []) op) as Hbad.
  { eexists. split; [apply elem_of_cons; by left|].
    right. right. left. exists "a/b". split; [done|]. discriminate. }
  split; [exact Hbad|].
  exact (applyAny_invalid_list_untouched 0 (New []) _
           (mkState (ASlice exSlice) exHeap) Hbad).
Defined.

(** ** Computations that only read *)

Lemma readonly_ret {A} (a : A) : readonly (ret a).
Proof. done. Qed.

Lemma readonly_fail {A} (e : error) : readonly (@fail A e).
Proof. done. Qed.

Lemma readonly_throw {A} (q : panic) : readonly (@throw A q).
Proof. done. Qed.

Lemma readonly_bind {A B} (m : M A) (k : A → M B) :
  readonly m → (∀ a, readonly (k a)) → readonly (x <- m ;; k x).
Proof.
  intros Hm Hk st. unfold bind. specialize (Hm st).
  destruct (m st) as [[a|e|q] st']; cbn in Hm; subst; [apply Hk|done..].
Qed.

Lemma readonly_attempt {A} (m : M A) : readonly m → readonly (attempt m).
Proof.
  intros Hm st. unfold attempt. specialize (Hm st).
  by destruct (m st) as [[a|e|q] st'].
Qed.

Lemma readonly_lift {A} (r : A + error) : readonly (lift r).
Proof. by destruct r. Qed.

Lemma readonly_deref {A} (x : option A) : readonly (deref x).
Proof. by destruct x. Qed.

Lemma readonly_getDoc : readonly getDoc.
Proof. done. Qed.

Lemma readonly_loadArr (a : loc) : readonly (loadArr a).
Proof. intros st. unfold loadArr. by destruct (heap st !! a) as [[]|]. Qed.

Lemma readonly_loadMap (m : loc) : readonly (loadMap m).
Proof. intros st. unfold loadMap. by destruct (heap st !! m) as [[]|]. Qed.

Lemma readonly_index (v : Slice) (i : Z) : readonly (index v i).
Proof.
  unfold index. destruct ((i <? 0) || (lenZ v <=? i)); [done|].
  apply readonly_bind; [apply readonly_loadArr|].
  intros d. by destruct (d !! _).
Qed.

Lemma readonly_mapGet (m : loc) (k : string) : readonly (mapGet m k).
Proof. apply readonly_bind; [apply readonly_loadMap|done]. Qed.

Lemma readonly_visitPathPart (p : Options) (o : any) (part : string) :
  readonly (visitPathPart p o part).
Proof.
  destruct o; try done; cbn [visitPathPart].
  - destruct (len v =? 0)%nat; [done|].
    apply readonly_bind; [apply readonly_lift|]. intros i.
    destruct (i =? lenZ v); [done|].
    apply readonly_bind; [apply readonly_index|done].
  - apply readonly_bind; [apply readonly_mapGet|]. by intros [g|].
Qed.

Lemma readonly_visitParts (p : Options) (parts : list string) node set :
  readonly (visitParts p node set parts).
Proof.
  revert node set. induction parts as [|part rest IH]; intros node set; [done|].
  cbn [visitParts]. apply readonly_bind; [apply readonly_visitPathPart|].
  intros r. apply IH.
Qed.

(** The navigator never writes. *)
Lemma readonly_VisitPath (p : Options) (parts : list string) :
  readonly (VisitPath p parts).
Proof.
  apply readonly_bind; [apply readonly_getDoc|]. intros node.
  apply readonly_bind; [apply readonly_visitParts|]. intros r.
  by destruct (snd r).
Qed.

Lemma readonly_allRange (n : nat) (i : Z) (test : Z → M bool) :
  (∀ j, readonly (test j)) → readonly (allRange n i test).
Proof.
  intros Ht. revert i. induction n as [|n IH]; intros i; [done|].
  cbn [allRange]. apply readonly_bind; [apply Ht|]. intros [|]; [apply IH|done].
Qed.

Lemma readonly_allEntries kvs (test : string → any → M bool) :
  (∀ k x, readonly (test k x)) → readonly (allEntries kvs test).
Proof.
  intros Ht. induction kvs as [|[k x] rest IH]; [done|].
  cbn [allEntries]. apply readonly_bind; [apply Ht|]. intros [|]; [apply IH|done].
Qed.

(** Deep equality never writes, whatever the fuel. *)
Lemma readonly_DeepEqual (fuel : nat) (x y : any) : readonly (DeepEqual fuel x y).
Proof.
  revert x y. induction fuel as [|f IH]; intros x y.
  - destruct x, y; done.
  - destruct x, y; try done; cbn [DeepEqual].
    + destruct (negb (len v =? len v0)%nat); [done|].
      destruct ((arr v =? arr v0)%nat && (off v =? off v0)%nat); [done|].
      apply readonly_allRange. intros j.
      apply readonly_bind; [apply readonly_index|]. intros u.
      apply readonly_bind; [apply readonly_index|]. intros w. apply IH.
    + apply readonly_bind; [apply readonly_loadMap|]. intros ta.
      apply readonly_bind; [apply readonly_loadMap|]. intros tb.
      destruct (negb (size ta =? size tb)%nat); [done|].
      destruct (m =? m0)%nat; [done|].
      apply readonly_allEntries. intros k u.
      destruct (tb !! k); [apply IH|done].
Qed.

Lemma readonly_testExtension_Apply (fuel : nat) (p : Options) (op : Operation) :
  readonly (testExtension_Apply fuel p op).
Proof.
  unfold testExtension_Apply.
  apply readonly_bind; [apply readonly_deref|]. intros path.
  apply readonly_bind; [apply readonly_deref|]. intros expect.
  apply readonly_bind; [apply readonly_attempt, readonly_VisitPath|].
  intros [[value set]|err].
  - apply readonly_bind; [apply readonly_DeepEqual|]. by intros [|].
  - by destruct (StrictPathExists p).
Qed.

(** The errors of the navigator are never the stop signal. *)
Lemma ParseArrayIndex_not_stop (p : Options) (size : Z) (s : string) e :
  ParseArrayIndex p size s = inr e → errorsIs e ErrStop = false.
Proof.
  unfold ParseArrayIndex, checkBounds.
  repeat (case_match; try done); by intros [= <-].
Qed.

Lemma visitPathPart_not_stop (p : Options) (o : any) (part : string) st e st' :
  visitPathPart p o part st = (Err e, st') → errorsIs e ErrStop = false.
Proof.
  destruct o; cbn [visitPathPart]; try (by intros [= <- _]).
  - destruct (len v =? 0)%nat; [by intros [= <- _]|].
    unfold bind, lift.
    destruct (ParseArrayIndex p (lenZ v) part) as [i|e'] eqn:Hp; cbn.
    + destruct (i =? lenZ v); [by intros [= <- _]|].
      unfold index. destruct ((i <? 0) || (lenZ v <=? i)); [done|].
      unfold bind, loadArr. destruct (heap st !! arr v) as [[d|]|]; try done.
      cbn. by destruct (d !! _).
    + intros [= <- _]. by eapply ParseArrayIndex_not_stop.
  - unfold bind, mapGet, bind, loadMap.
    destruct (heap st !! m) as [[|t]|]; try done. cbn.
    destruct (t !! part); [done|]. by intros [= <- _].
Qed.

Lemma visitParts_not_stop (p : Options) (parts : list string) node set st e st' :
  visitParts p node set parts st = (Err e, st') → errorsIs e ErrStop = false.
Proof.
  revert node set st. induction parts as [|part rest IH]; intros node set st;
    [done|].
  cbn [visitParts]. unfold bind.
  destruct (visitPathPart p node part st) as [[r|e'|q] st1] eqn:Hv.
  - apply IH.
  - intros [= <- _]. by eapply visitPathPart_not_stop.
  - done.
Qed.

Lemma VisitPath_not_stop (p : Options) (parts : list string) st e st' :
  VisitPath p parts st = (Err e, st') → errorsIs e ErrStop = false.
Proof.
  unfold VisitPath, bind, getDoc.
  destruct (visitParts p (doc st) None parts st) as [[r|e'|q] st1] eqn:Hv.
  - by destruct (snd r).
  - intros [= <- _]. by eapply visitParts_not_stop.
  - done.
Qed.

(** ** The test operation *)

Lemma applyAny_test_checked (fuel : nat) (p : Patch) (st : state)
    (P : string) (V : any) :
  extensions p !! opTest = Some testExtension →
  JSONPointer_Check (NewJSONPointer P) = None →
  applyAny fuel p [testOperation P V] st
  = settle p testExtension (testOperation P V)
      (testExtension_Apply fuel (opts p) (testOperation P V) st).
Proof.
  intros Hext Hptr. unfold applyAny.
  assert (Patch_Check p [testOperation P V] = None) as ->.
  { cbn [Patch_Check]. unfold Operation_check, testOperation.
    cbn [OP Path From Value default from_option id]. rewrite Hptr, Hext. done. }
  cbn [applyOps]. unfold testOperation at 1. cbn [OP deref].
  rewrite (bind_Ok _ _ _ _ _ (eq_refl : ret opTest st = _)).
  rewrite Hext. cbn [deref].
  rewrite (bind_Ok _ _ _ _ _ (eq_refl : ret testExtension st = _)).
  cbn [ext_Apply testExtension]. unfold bind, attempt, settle.
  destruct (testExtension_Apply fuel (opts p) (testOperation P V) st)
    as [[[]|err|q] st']; try done.
  destruct (negb (StrictPathExists (opts p)) && errorsIs err ErrNotExists);
    [done|].
  by destruct (errorsIs err ErrStop).
Qed.

Lemma testExtension_Apply_run (fuel : nat) (o : Options) (st : state)
    (P : string) (V : any) :
  testExtension_Apply fuel o (testOperation P V) st
  = match VisitPath o (JSONPointer_Path (NewJSONPointer P)) st with
    | (Ok (value, _), st') =>
        match DeepEqual fuel value V st' with
        | (Ok true, st'') => (Ok tt, st'')
        | (Ok false, st'') => (Err ErrStop, st'')
        | (Err e, st'') => (Err e, st'')
        | (Panic q, st'') => (Panic q, st'')
        end
    | (Err err, st') =>
        if StrictPathExists o then (Err (ErrPathNotExists P err), st')
        else (Err ErrStop, st')
    | (Panic q, st') => (Panic q, st')
    end.
Proof.
  unfold testExtension_Apply, testOperation. cbn [Path Value deref].
  unfold bind at 1. cbn [ret]. unfold bind at 1. cbn [ret].
  unfold bind at 1, attempt.
  destruct (VisitPath o (JSONPointer_Path {| origin := P |}) st)
    as [[[value set]|err|q] st']; try done.
  - unfold bind. by destruct (DeepEqual fuel value V st') as [[[|]|e|q] st''].
  - by destruct (StrictPathExists o).
Qed.


(** ** Documents in the heap *)

Lemma wfIn_depth lo hi h n n' x :
  wfIn lo hi h n x → (n ≤ n')%nat → wfIn lo hi h n' x.
Proof.
  intros Hwf. revert n'. induction Hwf as [| | | |n v d Hr Hb Hel IH|n m t Hr Hm Hel IH];
    intros n' Hn; try by constructor.
  - destruct n' as [|n']; [lia|]. econstructor; [done..|].
    intros x Hx. apply IH; [done|lia].
  - destruct n' as [|n']; [lia|]. econstructor; [done..|].
    intros k x Hx. eapply IH; [done|lia].
Qed.

Lemma wfIn_weaken lo hi lo' hi' h n x :
  wfIn lo hi h n x → (lo' ≤ lo)%nat → (hi ≤ hi')%nat → wfIn lo' hi' h n x.
Proof.
  intros Hwf Hlo Hhi.
  induction Hwf as [| | | |n v d Hr Hb Hel IH|n m t Hr Hm Hel IH];
    try by constructor.
  - econstructor; [lia|done|done].
  - econstructor; [lia|done|done].
Qed.

Lemma backing_agree h h' v d :
  backing h v d → h' !! arr v = h !! arr v → backing h' v d.
Proof. intros (H0 & H1) Heq. split; [by rewrite Heq|done]. Qed.

Lemma backing_inj h v d d' : backing h v d → backing h v d' → d = d'.
Proof. intros (H & _) (H' & _). rewrite H in H'. by injection H'. Qed.

(** A document only depends on the cells in its address range. *)
Lemma wfIn_frame lo hi h h' n x :
  wfIn lo hi h n x →
  (∀ l, (lo ≤ l < hi)%nat → h' !! l = h !! l) →
  wfIn lo hi h' n x.
Proof.
  intros Hwf Hag.
  induction Hwf as [| | | |n v d Hr Hb Hel IH|n m t Hr Hm Hel IH];
    try by constructor.
  - econstructor; [done| |done]. apply (backing_agree h); [done|by apply Hag].
  - econstructor; [done| |done]. by rewrite Hag.
Qed.

Lemma same_frame h1 h2 h1' h2' lo1 hi1 lo2 hi2 n1 n2 x y :
  same h1 h2 x y →
  wfIn lo1 hi1 h1 n1 x → wfIn lo2 hi2 h2 n2 y →
  (∀ l, (lo1 ≤ l < hi1)%nat → h1' !! l = h1 !! l) →
  (∀ l, (lo2 ≤ l < hi2)%nat → h2' !! l = h2 !! l) →
  same h1' h2' x y.
Proof.
  intros Hs. revert n1 n2.
  induction Hs as [| | | |v1 v2 d1 d2 Hb1 Hb2 Hlen Hel IH
                   |m1 m2 t1 t2 Hm1 Hm2 Hdom Hel IH];
    intros n1 n2 Hw1 Hw2 Ha1 Ha2; try by constructor.
  - inversion Hw1 as [| | | |n1' v1' e1 Hr1 Hb1' Hel1|]; subst.
    inversion Hw2 as [| | | |n2' v2' e2 Hr2 Hb2' Hel2|]; subst.
    assert (e1 = d1) as -> by (by eapply backing_inj).
    assert (e2 = d2) as -> by (by eapply backing_inj).
    apply (same_slice _ _ v1 v2 d1 d2); try done.
    + apply (backing_agree h1); [done|by apply Ha1].
    + apply (backing_agree h2); [done|by apply Ha2].
    + intros i x y Hx Hy. eapply IH; try done.
      * apply Hel1. by eapply list_elem_of_lookup_2.
      * apply Hel2. by eapply list_elem_of_lookup_2.
  - inversion Hw1 as [| | | | |n1' m1' u1 Hr1 Hm1' Hel1]; subst.
    inversion Hw2 as [| | | | |n2' m2' u2 Hr2 Hm2' Hel2]; subst.
    assert (u1 = t1) as -> by congruence.
    assert (u2 = t2) as -> by congruence.
    apply (same_map _ _ m1 m2 t1 t2); try done.
    + by rewrite Ha1.
    + by rewrite Ha2.
    + intros k x y Hx Hy. eapply IH; try done.
      * by eapply Hel1.
      * by eapply Hel2.
Qed.

Lemma wfIn_below lo hi h n x :
  wfIn lo hi h n x → wfIn lo (hi `min` length h) h n x.
Proof.
  induction 1 as [| | | |n v d Hr Hb Hel IH|n m t Hr Hm Hel IH];
    try by constructor.
  - econstructor; [|done|done]. destruct Hb as (H0 & _).
    apply lookup_lt_Some in H0. lia.
  - econstructor; [|done|done]. apply lookup_lt_Some in Hm. lia.
Qed.

Lemma wfIn_app lo hi h e n x :
  wfIn lo hi h n x → wfIn lo hi (h ++ e)%list n x.
Proof.
  intros Hwf. apply wfIn_below in Hwf.
  eapply wfIn_weaken; [|done|apply Nat.le_min_l].
  eapply wfIn_frame; [done|]. intros l Hl. apply lookup_app_l. lia.
Qed.

(** ** Heaps of the shape [H ++ [c] ++ hk] *)

Lemma lookup_mid (H hk : list cell) (c : cell) :
  (H ++ [c] ++ hk)%list !! length H = Some c.
Proof. rewrite lookup_app_r by lia. by rewrite Nat.sub_diag. Qed.

Lemma insert_mid (H hk : list cell) (c c' : cell) :
  <[length H := c']> (H ++ [c] ++ hk)%list = (H ++ [c'] ++ hk)%list.
Proof. rewrite insert_app_r_alt by lia. by rewrite Nat.sub_diag. Qed.

Lemma lookup_mid_other (H hk : list cell) (c c' : cell) (l : nat) :
  l ≠ length H → (H ++ [c] ++ hk)%list !! l = (H ++ [c'] ++ hk)%list !! l.
Proof.
  intros Hl. destruct (decide (l < length H)%nat).
  - by rewrite !lookup_app_l by lia.
  - rewrite (lookup_app_r H ([c] ++ hk)), (lookup_app_r H ([c'] ++ hk)) by lia.
    destruct (l - length H)%nat as [|j] eqn:Hj; [lia|done].
Qed.

Lemma length_mid (H hk : list cell) (c : cell) :
  length (H ++ [c] ++ hk)%list = (length H + 1 + length hk)%nat.
Proof. rewrite !length_app. cbn. lia. Qed.

Lemma app_mid_assoc (H hk hn : list cell) (c : cell) :
  ((H ++ [c] ++ hk) ++ hn)%list = (H ++ [c] ++ (hk ++ hn))%list.
Proof. by rewrite <- !app_assoc. Qed.

(** One more copied element keeps what was established for the earlier
    ones: their cells lie behind the cell being filled. *)
Lemma copied_earlier (H hk hn : list cell) (c c' : cell) n x y :
  wfIn 0 (length H) H n x →
  wfIn (S (length H)) (length (H ++ [c] ++ hk)%list) (H ++ [c] ++ hk)%list n y →
  same H (H ++ [c] ++ hk)%list x y →
  wfIn (S (length H)) (length (H ++ [c'] ++ (hk ++ hn))%list)
       (H ++ [c'] ++ (hk ++ hn))%list n y
  ∧ same H (H ++ [c'] ++ (hk ++ hn))%list x y.
Proof.
  intros Hx Hy Hs.
  assert (∀ l, (S (length H) ≤ l < length (H ++ [c] ++ hk)%list)%nat →
            (H ++ [c'] ++ (hk ++ hn))%list !! l = (H ++ [c] ++ hk)%list !! l)
    as Hag.
  { intros l Hl. rewrite length_mid in Hl.
    rewrite (lookup_mid_other H (hk ++ hn) c' c) by lia.
    rewrite <- app_mid_assoc. apply lookup_app_l. rewrite length_mid. lia. }
  split.
  - eapply wfIn_weaken; [by eapply wfIn_frame|lia|].
    rewrite !length_mid, length_app. lia.
  - by eapply (same_frame H (H ++ [c] ++ hk)%list H _ 0 (length H)).
Qed.

(** The element just copied, seen from the heap in which its slot has
    been filled. *)
Lemma copied_now (H hk hn : list cell) (c c' : cell) n x y :
  wfIn 0 (length H) H n x →
  wfIn (length (H ++ [c] ++ hk)%list)
       (length ((H ++ [c] ++ hk) ++ hn)%list) ((H ++ [c] ++ hk) ++ hn)%list n y →
  same (H ++ [c] ++ hk)%list ((H ++ [c] ++ hk) ++ hn)%list x y →
  wfIn (S (length H)) (length (H ++ [c'] ++ (hk ++ hn))%list)
       (H ++ [c'] ++ (hk ++ hn))%list n y
  ∧ same H (H ++ [c'] ++ (hk ++ hn))%list x y.
Proof.
  intros Hx Hy Hs.
  assert (∀ l, (length (H ++ [c] ++ hk)%list ≤ l
                < length ((H ++ [c] ++ hk) ++ hn)%list)%nat →
            (H ++ [c'] ++ (hk ++ hn))%list !! l
            = ((H ++ [c] ++ hk) ++ hn)%list !! l) as Hag.
  { intros l Hl. rewrite length_mid in Hl. rewrite app_mid_assoc.
    apply lookup_mid_other. lia. }
  split.
  - eapply wfIn_weaken; [by eapply wfIn_frame|rewrite length_mid; lia|].
    rewrite app_mid_assoc, !length_mid. lia.
  - eapply (same_frame (H ++ [c] ++ hk)%list _ H _ 0 (length H)); try done.
    + by apply wfIn_app.
    + intros l Hl. symmetry. apply lookup_app_l. lia.
Qed.

(** The loop of [deepCopy] over a slice: [ys] are the copies made so far,
    [k] slots are still nil. *)
Lemma deepCopy_slice_loop (f n : nat) (v : Slice) (d : list any)
    (H : list cell) (o : any) :
  copies f n →
  backing H v d →
  (∀ x, x ∈ shown v d → wfIn 0 (length H) H n x) →
  ∀ k i ys hk,
    (i + k = len v)%nat → length ys = i →
    (∀ j y, ys !! j = Some y →
       ∃ x, shown v d !! j = Some x
         ∧ wfIn (S (length H))
                (length (H ++ [CArr (ys ++ replicate k ANil)] ++ hk)%list)
                (H ++ [CArr (ys ++ replicate k ANil)] ++ hk)%list n y
         ∧ same H (H ++ [CArr (ys ++ replicate k ANil)] ++ hk)%list x y) →
    ∃ ys' hk',
      forRange k (Z.of_nat i)
        (λ i, x <- index v i ;; y <- deepCopy f x ;;
              setIndex (mkSlice (length H) 0 (len v) (len v)) i y)
        (mkState o (H ++ [CArr (ys ++ replicate k ANil)] ++ hk)%list)
      = (Ok tt, mkState o (H ++ [CArr ys'] ++ hk')%list)
      ∧ length ys' = len v
      ∧ (∀ j y, ys' !! j = Some y →
           ∃ x, shown v d !! j = Some x
             ∧ wfIn (S (length H)) (length (H ++ [CArr ys'] ++ hk')%list)
                    (H ++ [CArr ys'] ++ hk')%list n y
             ∧ same H (H ++ [CArr ys'] ++ hk')%list x y).
Proof.
  intros Hcp Hb Hel. induction k as [|k IH]; intros i ys hk Hik Hlen Hinv.
  { exists ys, hk. cbn [forRange replicate] in *. rewrite app_nil_r in *.
    split; [done|]. split; [lia|done]. }
  cbn [forRange].
  set (c := mkSlice (length H) 0 (len v) (len v)).
  set (cell0 := CArr (ys ++ replicate (S k) ANil)).
  set (Hcur := (H ++ [cell0] ++ hk)%list).
  pose proof (shown_length H v d Hb) as Hshl.
  destruct (lookup_lt_is_Some_2 (shown v d) i) as [x Hx]; [lia|].
  assert (wfIn 0 (length H) H n x) as Hwx.
  { apply Hel. by eapply list_elem_of_lookup_2. }
  destruct (Hcp x o Hcur) as (y & hn & Hrun & Hwy & Hsy).
  { eapply wfIn_weaken; [by apply wfIn_app|lia|].
    unfold Hcur. rewrite length_mid. lia. }
  (* x := v[i]; y := deepCopy(x); c[i] = y *)
  erewrite bind_Ok; cycle 1.
  { erewrite bind_Ok; cycle 1.
    { apply (index_run o Hcur v d (Z.of_nat i) x).
      - by apply backing_app.
      - rewrite lenZ_nat. lia.
      - by rewrite Nat2Z.id. }
    erewrite bind_Ok; [|exact Hrun].
    apply (setIndex_run o (Hcur ++ hn)%list c (ys ++ replicate (S k) ANil)%list).
    - unfold Hcur. rewrite app_mid_assoc. split; [apply lookup_mid|].
      cbn [off cap len c]. rewrite length_app, length_replicate. lia.
    - rewrite lenZ_nat. cbn. lia. }
  cbn [arr off c]. rewrite Nat2Z.id. unfold Hcur. rewrite app_mid_assoc.
  rewrite insert_mid.
  assert (<[(0 + i)%nat := y]> (ys ++ replicate (S k) ANil)%list
          = ((ys ++ [y]) ++ replicate k ANil)%list) as ->.
  { cbn [replicate]. rewrite Nat.add_0_l, <- Hlen.
    rewrite insert_app_r_alt by lia. rewrite Nat.sub_diag. cbn.
    by rewrite <- app_assoc. }
  replace (Z.of_nat i + 1) with (Z.of_nat (S i)) by lia.
  apply IH.
  - lia.
  - rewrite length_app. cbn. lia.
  - intros j y' Hy'.
    destruct (decide (j < i)%nat) as [Hj|Hj].
    + rewrite lookup_app_l in Hy' by lia.
      destruct (Hinv j y' Hy') as (x' & Hx' & Hw' & Hs').
      exists x'. split; [done|].
      apply (copied_earlier H hk hn cell0); try done.
      apply Hel. by eapply list_elem_of_lookup_2.
    + rewrite lookup_app_r in Hy' by lia.
      assert (j = i) as ->.
      { apply lookup_lt_Some in Hy'. cbn in Hy'. lia. }
      rewrite Hlen, Nat.sub_diag in Hy'. injection Hy' as <-.
      exists x. split; [done|].
      by apply (copied_now H hk hn cell0).
Qed.

(** The loop of [deepCopy] over the entries of a map with table [t]:
    [tc] is the table of the copy so far. *)
Lemma deepCopy_map_loop (f n : nat) (t : gmap string any)
    (H : list cell) (o : any) :
  copies f n →
  (∀ k x, t !! k = Some x → wfIn 0 (length H) H n x) →
  ∀ kvs tc hk,
    (∀ k x, (k, x) ∈ kvs → t !! k = Some x) →
    (∀ k y, tc !! k = Some y →
       ∃ x, t !! k = Some x
         ∧ wfIn (S (length H)) (length (H ++ [CMap tc] ++ hk)%list)
                (H ++ [CMap tc] ++ hk)%list n y
         ∧ same H (H ++ [CMap tc] ++ hk)%list x y) →
    ∃ tc' hk',
      forEntries kvs (λ k x, y <- deepCopy f x ;; mapSet (length H) k y)
        (mkState o (H ++ [CMap tc] ++ hk)%list)
      = (Ok tt, mkState o (H ++ [CMap tc'] ++ hk')%list)
      ∧ (∀ k, is_Some (tc' !! k) ↔ is_Some (tc !! k) ∨ k ∈ kvs.*1)
      ∧ (∀ k y, tc' !! k = Some y →
           ∃ x, t !! k = Some x
             ∧ wfIn (S (length H)) (length (H ++ [CMap tc'] ++ hk')%list)
                    (H ++ [CMap tc'] ++ hk')%list n y
             ∧ same H (H ++ [CMap tc'] ++ hk')%list x y).
Proof.
  intros Hcp Hel kvs. induction kvs as [|[k x] rest IH]; intros tc hk Hin Hinv.
  { exists tc, hk. split; [done|]. split; [|done].
    intros k. cbn. split; [by left|]. intros [?|Hk]; [done|].
    by apply not_elem_of_nil in Hk. }
  cbn [forEntries].
  set (Hcur := (H ++ [CMap tc] ++ hk)%list).
  assert (t !! k = Some x) as Hkx by (apply Hin; apply elem_of_cons; by left).
  pose proof (Hel k x Hkx) as Hwx.
  destruct (Hcp x o Hcur) as (y & hn & Hrun & Hwy & Hsy).
  { eapply wfIn_weaken; [by apply wfIn_app|lia|].
    unfold Hcur. rewrite length_mid. lia. }
  erewrite bind_Ok; cycle 1.
  { erewrite bind_Ok; [|exact Hrun].
    apply (mapSet_run o (Hcur ++ hn)%list (length H) tc).
    unfold Hcur. rewrite app_mid_assoc. apply lookup_mid. }
  unfold Hcur. rewrite app_mid_assoc, insert_mid.
  destruct (IH (<[k := y]> tc) (hk ++ hn)%list) as (tc' & hk' & Hloop & Hdom & Hinv').
  - intros k' x' Hin'. apply Hin. apply elem_of_cons. by right.
  - intros k' y' Hy'. destruct (decide (k = k')) as [<-|Hne].
    + rewrite lookup_insert_eq in Hy'. injection Hy' as <-.
      exists x. split; [done|]. by apply (copied_now H hk hn (CMap tc)).
    + rewrite lookup_insert_ne in Hy' by done.
      destruct (Hinv k' y' Hy') as (x' & Hx' & Hw' & Hs').
      exists x'. split; [done|].
      apply (copied_earlier H hk hn (CMap tc)); try done. by eapply Hel.
  - exists tc', hk'. split; [done|]. split; [|done].
    intros k'. rewrite Hdom. cbn [fmap list_fmap fst]. rewrite elem_of_cons.
    destruct (decide (k = k')) as [<-|Hne].
    + rewrite lookup_insert_eq. split; intros _; [right; by left|by left].
    + rewrite lookup_insert_ne by done. naive_solver.
Qed.

Lemma scalar_copies (f : nat) (x : any) (o : any) (H : list cell) :
  isScalar x = true →
  ∃ c hn,
    deepCopy f x (mkState o H) = (Ok c, mkState o (H ++ hn)%list)
    ∧ (∀ n, wfIn (length H) (length (H ++ hn)%list) (H ++ hn)%list n c)
    ∧ same H (H ++ hn)%list x c.
Proof.
  intros Hx. exists x, []. rewrite app_nil_r.
  destruct x; try done; (split; [by destruct f|]);
    (split; [intros ?|]); constructor.
Qed.

(** [deepCopy] succeeds on every document whose nesting the fuel covers;
    it only appends cells to the heap, and what it returns is a copy:
    the same document, made of appended cells only. *)
Lemma deepCopy_copies (f n : nat) : (n ≤ f)%nat → copies f n.
Proof.
  revert n. induction f as [|f IH]; intros n Hn x o H Hwf.
  { assert (n = 0)%nat as -> by lia.
    assert (isScalar x = true) as Hsc by (by inversion Hwf).
    destruct (scalar_copies 0 x o H Hsc) as (c & hn & Hrun & Hw & Hs).
    exists c, hn. split; [done|]. split; [apply Hw|done]. }
  destruct (isScalar x) eqn:Hsc.
  { destruct (scalar_copies (S f) x o H Hsc) as (c & hn & Hrun & Hw & Hs).
    exists c, hn. split; [done|]. split; [apply Hw|done]. }
  inversion Hwf as [| | | |n' v d Hr Hb Hel|n' m t Hr Hm Hel]; subst;
    try discriminate.
  - (* a slice *)
    assert (copies f n') as Hcp by (apply IH; lia).
    destruct (deepCopy_slice_loop f n' v d H o Hcp Hb Hel (len v) 0 [] [])
      as (ys & hk & Hloop & Hlen & Hinv); [lia|done|done|].
    cbn [deepCopy].
    rewrite (bind_Ok _ _ _ _ _ (make_run o H (len v))).
    change (H ++ [CArr (replicate (len v) ANil)])%list
      with (H ++ [CArr ([] ++ replicate (len v) ANil)] ++ [])%list.
    change 0 with (Z.of_nat 0).
    rewrite (bind_Ok _ _ _ _ _ Hloop).
    exists (ASlice (mkSlice (length H) 0 (len v) (len v))), ([CArr ys] ++ hk)%list.
    split; [done|].
    assert (backing (H ++ [CArr ys] ++ hk)%list
              (mkSlice (length H) 0 (len v) (len v)) ys) as Hbc.
    { split; [apply lookup_mid|]. cbn. lia. }
    assert (shown (mkSlice (length H) 0 (len v) (len v)) ys = ys) as Hsh.
    { unfold shown. cbn [len off]. rewrite drop_0. apply take_ge. lia. }
    split.
    + econstructor; [rewrite length_mid; cbn; lia|exact Hbc|].
      intros y Hy. rewrite Hsh in Hy.
      apply list_elem_of_lookup_1 in Hy as [j Hj].
      destruct (Hinv j y Hj) as (x & _ & Hw & _).
      eapply wfIn_weaken; [exact Hw|lia|lia].
    + apply (same_slice _ _ v _ d ys); try done.
      intros j x y Hx Hy. rewrite Hsh in Hy.
      destruct (Hinv j y Hy) as (x' & Hx' & _ & Hs).
      rewrite Hx in Hx'. by injection Hx' as <-.
  - (* a map *)
    assert (copies f n') as Hcp by (apply IH; lia).
    destruct (deepCopy_map_loop f n' t H o Hcp Hel (map_to_list t) ∅ [])
      as (tc & hk & Hloop & Hdom & Hinv).
    { intros k x Hkx. by apply elem_of_map_to_list. }
    { intros k y Hy. by rewrite lookup_empty in Hy. }
    cbn [deepCopy].
    rewrite (bind_Ok _ _ _ _ _ (loadMap_run o H m t Hm)).
    unfold alloc at 1. unfold bind at 1. cbn [heap doc].
    change (H ++ [CMap ∅])%list with (H ++ [CMap ∅] ++ [])%list.
    rewrite (bind_Ok _ _ _ _ _ Hloop).
    exists (AMap (length H)), ([CMap tc] ++ hk)%list.
    split; [done|]. split.
    + econstructor; [rewrite length_mid; lia|apply lookup_mid|].
      intros k y Hy. destruct (Hinv k y Hy) as (x & _ & Hw & _).
      eapply wfIn_weaken; [exact Hw|lia|lia].
    + apply (same_map _ _ m _ t tc); try done.
      * apply lookup_mid.
      * intros k. rewrite Hdom. rewrite lookup_empty.
        split.
        -- intros [x Hx]. right. apply list_elem_of_fmap.
           exists (k, x). split; [done|]. by apply elem_of_map_to_list.
        -- intros [[? ?]|Hk]; [done|].
           apply list_elem_of_fmap in Hk as ([k' x] & -> & Hkx).
           apply elem_of_map_to_list in Hkx. by exists x.
      * intros k x y Hx Hy. destruct (Hinv k y Hy) as (x' & Hx' & _ & Hs).
        rewrite Hx in Hx'. by injection Hx' as <-.
Qed.

(** ** Where the navigator leads and where the mutators write *)

Lemma index_shown o h v d (i : Z) x st' :
  backing h v d → index v i (mkState o h) = (Ok x, st') → x ∈ shown v d.
Proof.
  intros (H0 & H1 & H2). unfold index.
  destruct (Z.ltb_spec i 0); [done|].
  destruct (Z.leb_spec (lenZ v) i); [done|]. cbn [orb].
  rewrite (bind_Ok _ _ _ _ _ (loadArr_run o h _ _ H0)).
  destruct (d !! (off v + Z.to_nat i)%nat) as [y|] eqn:Hy; [|done].
  intros [= <- _]. apply (list_elem_of_lookup_2 _ (Z.to_nat i)).
  rewrite shown_lookup. rewrite lenZ_nat in *. case_decide; [done|lia].
Qed.

(** A descent step from a node of a well-formed document leads to a node
    of it, with a setter that writes into the document's own cells. *)
Lemma visitPathPart_wf (p : Options) o h n node part x set st' :
  wfIn 0 (length h) h n node →
  visitPathPart p node part (mkState o h) = (Ok (x, set), st') →
  wfIn 0 (length h) h n x ∧ setterBelow (length h) set.
Proof.
  intros Hwf. inversion Hwf as [| | | |n' v d Hr Hb Hel|n' m t Hr Hm Hel]; subst;
    try done; cbn [visitPathPart].
  - destruct (len v =? 0)%nat; [done|]. unfold bind at 1.
    destruct (ParseArrayIndex p (lenZ v) part) as [i|e]; [|done]. cbn [lift ret].
    destruct (i =? lenZ v); [done|]. unfold bind.
    destruct (index v i (mkState o h)) as [[y|e|q] st1] eqn:Hidx; try done.
    intros [= <- <- _]. split; [|cbn; lia].
    apply (wfIn_depth _ _ _ n'); [|lia]. apply Hel. by eapply index_shown.
  - rewrite (bind_Ok _ _ _ _ _ (mapGet_run o h m t part Hm)).
    destruct (t !! part) as [g|] eqn:Hg; [|done].
    intros [= <- <- _]. split; [|cbn; lia].
    apply (wfIn_depth _ _ _ n'); [|lia]. by eapply Hel.
Qed.

Lemma visitParts_wf (p : Options) o h n parts node set x set' st' :
  wfIn 0 (length h) h n node →
  from_option (setterBelow (length h)) True set →
  visitParts p node set parts (mkState o h) = (Ok (x, set'), st') →
  wfIn 0 (length h) h n x ∧ from_option (setterBelow (length h)) True set'.
Proof.
  revert node set. induction parts as [|part rest IH]; intros node set Hwf Hset.
  { by intros [= <- <- _]. }
  cbn [visitParts]. unfold bind.
  pose proof (readonly_visitPathPart p node part (mkState o h)) as Hro.
  destruct (visitPathPart p node part (mkState o h)) as [[[y s]|e|q] st1] eqn:Hv;
    try done.
  cbn in Hro. subst st1.
  destruct (visitPathPart_wf _ _ _ _ _ _ _ _ _ Hwf Hv) as [Hy Hs].
  by apply IH.
Qed.

Lemma VisitPath_wf (p : Options) o h n parts x set :
  wfIn 0 (length h) h n o →
  fst (VisitPath p parts (mkState o h)) = Ok (x, set) →
  VisitPath p parts (mkState o h) = (Ok (x, set), mkState o h)
  ∧ wfIn 0 (length h) h n x ∧ setterBelow (length h) set.
Proof.
  intros Hwf Hfst.
  pose proof (readonly_VisitPath p parts (mkState o h)) as Hro.
  destruct (VisitPath p parts (mkState o h)) as [r st1] eqn:Hv.
  cbn in Hro, Hfst. subst. split; [done|].
  unfold VisitPath, bind, getDoc in Hv. cbn [doc] in Hv.
  destruct (visitParts p o None parts (mkState o h)) as [[[y s]|e|q] st1] eqn:Hp;
    try done.
  destruct (visitParts_wf p o h n parts o None y s st1 Hwf I Hp) as [Hy Hs].
  cbn [fst snd] in Hv. destruct s as [s|]; injection Hv as <- <-; done.
Qed.







Lemma orPathNotExists_Ok {A} (path : string) (m : M A) st a st1 :
  m st = (Ok a, st1) → orPathNotExists path m st = (Ok a, st1).
Proof. unfold orPathNotExists, bind, attempt. by intros ->. Qed.

(** ** Deep equality decides sameness of documents *)

Lemma same_refl lo hi h n x : wfIn lo hi h n x → same h h x x.
Proof.
  induction 1 as [| | | |n v d Hr Hb Hel IH|n m t Hr Hm Hel IH];
    try by constructor.
  - apply (same_slice _ _ v v d d); try done.
    intros i x y Hx Hy. rewrite Hx in Hy. injection Hy as <-.
    apply IH. by eapply list_elem_of_lookup_2.
  - apply (same_map _ _ m m t t); try done.
    intros k x y Hx Hy. rewrite Hx in Hy. injection Hy as <-. by eapply IH.
Qed.

Lemma same_tables_size (t1 t2 : gmap string any) :
  (∀ k, is_Some (t1 !! k) ↔ is_Some (t2 !! k)) → size t1 = size t2.
Proof.
  intros Hdom. rewrite <- !size_dom. f_equal. apply set_eq. intros k.
  rewrite !elem_of_dom. apply Hdom.
Qed.

Lemma covered_tables (t1 t2 : gmap string any) :
  size t1 = size t2 →
  (∀ k, is_Some (t1 !! k) → is_Some (t2 !! k)) →
  ∀ k, is_Some (t1 !! k) ↔ is_Some (t2 !! k).
Proof.
  intros Hsize Hsub k. split; [apply Hsub|].
  assert (dom t1 ≡ dom t2) as Heq.
  { apply set_subseteq_size_equiv.
    - intros j. rewrite !elem_of_dom. apply Hsub.
    - rewrite !size_dom. lia. }
  rewrite <- !elem_of_dom. by rewrite Heq.
Qed.

(** The comparison of two slices element by element, from position [i]
    on, given that the comparison of any two of their elements decides
    sameness. *)
Lemma DeepEqual_slice_loop (f : nat) o h (a b : Slice) (da db : list any) :
  backing h a da → backing h b db → len a = len b →
  (∀ x y, x ∈ shown a da → y ∈ shown b db →
     ∃ r, DeepEqual f x y (mkState o h) = (Ok r, mkState o h)
          ∧ (r = true ↔ same h h x y)) →
  ∀ (k i : nat), (i + k = len a)%nat →
    ∃ r, allRange k (Z.of_nat i)
           (λ i, u <- index a i ;; w <- index b i ;; DeepEqual f u w)
           (mkState o h) = (Ok r, mkState o h)
         ∧ (r = true ↔
            ∀ j x y, (i ≤ j)%nat → shown a da !! j = Some x →
                     shown b db !! j = Some y → same h h x y).
Proof.
  intros Ha Hb Hlen Hel. induction k as [|k IH]; intros i Hi.
  { exists true. split; [done|]. split; [|done]. intros _ j x y Hj Hx _.
    apply lookup_lt_Some in Hx. rewrite (shown_length h) in Hx by done. lia. }
  cbn [allRange].
  destruct (lookup_lt_is_Some_2 (shown a da) i) as [x Hx].
  { rewrite (shown_length h) by done. lia. }
  destruct (lookup_lt_is_Some_2 (shown b db) i) as [y Hy].
  { rewrite (shown_length h) by done. lia. }
  assert (index a (Z.of_nat i) (mkState o h) = (Ok x, mkState o h)) as Hia.
  { eapply index_run; [done|unfold lenZ; lia|by rewrite Nat2Z.id]. }
  assert (index b (Z.of_nat i) (mkState o h) = (Ok y, mkState o h)) as Hib.
  { eapply index_run; [done|unfold lenZ; lia|by rewrite Nat2Z.id]. }
  destruct (Hel x y) as (r & Hr & Hrs);
    [by eapply list_elem_of_lookup_2|by eapply list_elem_of_lookup_2|].
  erewrite bind_Ok; last first.
  { rewrite (bind_Ok _ _ _ _ _ Hia), (bind_Ok _ _ _ _ _ Hib). exact Hr. }
  destruct r.
  - destruct (IH (S i)) as (r' & Hr' & Hrs'); [lia|].
    replace (Z.of_nat i + 1) with (Z.of_nat (S i)) by lia.
    exists r'. split; [done|]. rewrite Hrs'. split.
    + intros Hall j u w Hj Hu Hw. destruct (decide (j = i)) as [->|Hne].
      * rewrite Hx in Hu. rewrite Hy in Hw. injection Hu as <-.
        injection Hw as <-. by apply Hrs.
      * apply (Hall j); [lia|done|done].
    + intros Hall j u w Hj. apply Hall. lia.
  - exists false. split; [done|]. split; [done|]. intros Hall.
    apply Hrs. by apply (Hall i).
Qed.

(** The comparison of the entries of a table with those of another, given
    that the comparison of any two of their values decides sameness. *)
Lemma DeepEqual_map_loop (f : nat) o h (ta tb : gmap string any) :
  (∀ k x y, ta !! k = Some x → tb !! k = Some y →
     ∃ r, DeepEqual f x y (mkState o h) = (Ok r, mkState o h)
          ∧ (r = true ↔ same h h x y)) →
  ∀ l : list (string * any),
    (∀ k x, (k, x) ∈ l → ta !! k = Some x) →
    ∃ r, allEntries l
           (λ k u, match tb !! k with
                   | None => ret false
                   | Some w => DeepEqual f u w
                   end)
           (mkState o h) = (Ok r, mkState o h)
         ∧ (r = true ↔
            ∀ k x, (k, x) ∈ l → ∃ y, tb !! k = Some y ∧ same h h x y).
Proof.
  intros Hel. induction l as [|[k x] l IH]; intros Hl.
  { exists true. split; [done|]. split; [|done]. intros _ k x Hk.
    by apply not_elem_of_nil in Hk. }
  cbn [allEntries].
  assert (ta !! k = Some x) as Hx by (apply Hl; left).
  destruct IH as (r' & Hr' & Hrs').
  { intros k' x' Hk'. apply Hl. by right. }
  destruct (tb !! k) as [y|] eqn:Hy.
  - destruct (Hel k x y Hx Hy) as (r & Hr & Hrs).
    rewrite (bind_Ok _ _ _ _ _ Hr). destruct r.
    + exists r'. split; [done|]. rewrite Hrs'. split.
      * intros Hall k' x' [[= -> ->]|Hk']%elem_of_cons; [|by apply Hall].
        exists y. split; [done|]. by apply Hrs.
      * intros Hall k' x' Hk'. apply Hall. by right.
    + exists false. split; [done|]. split; [done|]. intros Hall.
      destruct (Hall k x) as (y' & Hy' & Hs); [left|].
      rewrite Hy in Hy'. injection Hy' as <-. by apply Hrs.
  - exists false. split; [done|]. split; [done|]. intros Hall.
    destruct (Hall k x) as (y' & Hy' & _); [left|]. by rewrite Hy in Hy'.
Qed.

(** [DeepEqual] with fuel for the nesting of its first argument returns,
    leaves the state alone, and answers [true] exactly on two values that
    are the same document. *)
Lemma DeepEqual_decides (fuel : nat) :
  ∀ n n' lo hi lo' hi' o h x y,
    (n ≤ fuel)%nat → wfIn lo hi h n x → wfIn lo' hi' h n' y →
    ∃ r, DeepEqual fuel x y (mkState o h) = (Ok r, mkState o h)
         ∧ (r = true ↔ same h h x y).
Proof.
  induction fuel as [|f IH]; intros n n' lo hi lo' hi' o h x y Hn Hx Hy.
  - inversion Hx as [| | | |n0 v d Hr Hb Hel|n0 m t Hr Hm Hel]; subst; try lia;
      inversion Hy; subst; cbn [DeepEqual ret];
      eexists; (split; [reflexivity|]).
    all: try (split; [done|inversion 1]).
    all: try (split; [constructor|done]).
    + case_bool_decide as Hd; [subst; split; [constructor|done]|].
      split; [done|]. inversion 1; by subst.
    + destruct (Z.eqb_spec z z0) as [->|Hd]; [split; [constructor|done]|].
      split; [done|]. inversion 1; by subst.
    + destruct (String.eqb_spec s s0) as [->|Hd]; [split; [constructor|done]|].
      split; [done|]. inversion 1; by subst.
  - inversion Hx as [| | | |n0 v d Hr Hb Hel|n0 m t Hr Hm Hel]; subst;
      inversion Hy as [| | | |n1 v' d' Hr' Hb' Hel'|n1 m' t' Hr' Hm' Hel'];
      subst; cbn [DeepEqual ret].
    all: try (eexists; split; [reflexivity|]; split; [done|inversion 1]).
    all: try (eexists; split; [reflexivity|]; split; [constructor|done]).
    + eexists; split; [reflexivity|].
      case_bool_decide as Hd; [subst; split; [constructor|done]|].
      split; [done|]. inversion 1; by subst.
    + eexists; split; [reflexivity|].
      destruct (Z.eqb_spec z z0) as [->|Hd]; [split; [constructor|done]|].
      split; [done|]. inversion 1; by subst.
    + eexists; split; [reflexivity|].
      destruct (String.eqb_spec s s0) as [->|Hd]; [split; [constructor|done]|].
      split; [done|]. inversion 1; by subst.
    + (* two slices *)
      destruct (Nat.eqb_spec (len v) (len v')) as [Hlen|Hlen]; cbn [negb].
      2:{ exists false. split; [done|]. split; [done|].
          inversion 1; by subst. }
      destruct (Nat.eqb_spec (arr v) (arr v')) as [Harr|Harr];
        [destruct (Nat.eqb_spec (off v) (off v')) as [Hoff|Hoff]|]; cbn [andb].
      { exists true. split; [done|]. split; [|done]. intros _.
        assert (d' = d) as ->.
        { destruct Hb as (H0 & _), Hb' as (H0' & _). rewrite Harr, H0' in H0.
          by injection H0. }
        apply (same_slice _ _ v v' d d); try done.
        intros i x y Hi Hi'. rewrite !shown_lookup, <- Hlen, <- Hoff in *.
        rewrite Hi in Hi'. injection Hi' as <-.
        apply (same_refl lo hi h n0). apply Hel.
        apply (list_elem_of_lookup_2 _ i). by rewrite shown_lookup. }
      all: destruct (DeepEqual_slice_loop f o h v v' d d' Hb Hb' Hlen)
             with (k := len v) (i := 0%nat) as (r & Hrun & Hrs);
             [intros x y Hx' Hy'; eapply (IH n0); [lia|by apply Hel|by apply Hel']
             |lia|].
      all: exists r; split; [exact Hrun|]; rewrite Hrs; split.
      all: try (intros Hall; apply (same_slice _ _ v v' d d'); try done;
                intros i x y; apply Hall; lia).
      all: inversion 1 as [| | | |v1 v2 d1 d2 Hb1 Hb2 _ Hsame|]; subst;
           intros j x y _ Hjx Hjy;
           rewrite (backing_inj _ _ _ _ Hb Hb1) in Hjx;
           rewrite (backing_inj _ _ _ _ Hb' Hb2) in Hjy; by eapply Hsame.
    + (* two tables *)
      rewrite (bind_Ok _ _ _ _ _ (loadMap_run o h m t Hm)).
      rewrite (bind_Ok _ _ _ _ _ (loadMap_run o h m' t' Hm')).
      destruct (Nat.eqb_spec (size t) (size t')) as [Hsize|Hsize]; cbn [negb].
      2:{ exists false. split; [done|]. split; [done|].
          inversion 1 as [| | | | |m1 m2 t1 t2 Hm1 Hm2 Hdom _]; subst.
          exfalso. apply Hsize, same_tables_size.
          assert (t1 = t) as -> by congruence.
          assert (t2 = t') as -> by congruence. done. }
      destruct (Nat.eqb_spec m m') as [<-|Hmm].
      { exists true. split; [done|]. split; [|done]. intros _.
        by apply (same_refl lo hi h (S n0)). }
      destruct (DeepEqual_map_loop f o h t t') with (l := map_to_list t)
        as (r & Hrun & Hrs).
      { intros k x y Hkx Hky. eapply (IH n0); [lia|by eapply Hel|by eapply Hel']. }
      { intros k x. by rewrite elem_of_map_to_list. }
      exists r. split; [exact Hrun|]. rewrite Hrs. split.
      * intros Hall. apply (same_map _ _ m m' t t'); try done.
        -- apply covered_tables; [done|]. intros k [x Hkx].
           destruct (Hall k x) as (y & Hy' & _); [by rewrite elem_of_map_to_list|].
           by exists y.
        -- intros k x y Hkx Hky.
           destruct (Hall k x) as (y' & Hy' & Hs); [by rewrite elem_of_map_to_list|].
           rewrite Hky in Hy'. by injection Hy' as <-.
      * inversion 1 as [| | | | |m1 m2 t1 t2 Hm1 Hm2 Hdom Hsame]; subst.
        assert (t1 = t) as -> by congruence.
        assert (t2 = t') as -> by congruence.
        intros k x Hkx%elem_of_map_to_list.
        destruct (proj1 (Hdom k)) as [y Hky]; [by exists x|].
        exists y. split; [done|]. by eapply Hsame.
Qed.

(** ** The navigator on a well-formed document *)

Lemma visitPathPart_wf_returns (p : Options) o h n node part q st' :
  wfIn 0 (length h) h n node →
  visitPathPart p node part (mkState o h) ≠ (Panic q, st').
Proof.
  intros Hwf. inversion Hwf as [| | | |n' v d Hr Hb Hel|n' m t Hr Hm Hel]; subst;
    try done; cbn [visitPathPart].
  - destruct (len v =? 0)%nat; [done|]. unfold bind at 1.
    destruct (ParseArrayIndex p (lenZ v) part) as [i|e] eqn:Hi; [|done].
    cbn [lift ret]. apply ParseArrayIndex_range in Hi; [|apply lenZ_nonneg].
    destruct (Z.eqb_spec i (lenZ v)); [done|].
    destruct (lookup_lt_is_Some_2 (shown v d) (Z.to_nat i)) as [x Hx].
    { rewrite (shown_length h) by done. unfold lenZ in *. lia. }
    by rewrite (bind_Ok _ _ _ _ _ (index_run o h v d i x Hb ltac:(lia) Hx)).
  - rewrite (bind_Ok _ _ _ _ _ (mapGet_run o h m t part Hm)).
    by destruct (t !! part).
Qed.

Lemma visitParts_wf_returns (p : Options) o h n parts node set q st' :
  wfIn 0 (length h) h n node →
  visitParts p node set parts (mkState o h) ≠ (Panic q, st').
Proof.
  revert node set. induction parts as [|part rest IH]; intros node set Hwf.
  { done. }
  cbn [visitParts]. unfold bind.
  pose proof (readonly_visitPathPart p node part (mkState o h)) as Hro.
  destruct (visitPathPart p node part (mkState o h)) as [[[y s]|e|q'] st1] eqn:Hv;
    try done.
  - cbn in Hro. subst st1.
    destruct (visitPathPart_wf _ _ _ _ _ _ _ _ _ Hwf Hv) as [Hy Hs].
    by apply IH.
  - by apply (visitPathPart_wf_returns _ _ _ n) in Hv.
Qed.

Lemma VisitPath_wf_returns (p : Options) o h n parts q :
  wfIn 0 (length h) h n o →
  fst (VisitPath p parts (mkState o h)) ≠ Panic q.
Proof.
  intros Hwf. unfold VisitPath, bind, getDoc. cbn [doc].
  destruct (visitParts p o None parts (mkState o h)) as [[[y s]|e|q'] st1] eqn:Hp;
    cbn [fst snd]; try done.
  - by destruct s.
  - by apply (visitParts_wf_returns _ _ _ n) in Hp.
Qed.

(** C6: applying the single operation [test P V] leaves the document
    variable and the heap exactly as they were, whatever the outcome.
    On a well-formed document whose nesting the fuel covers, with a
    well-formed [V], resolving the path never panics; when it yields a
    value, the operation succeeds if that value and [V] are the same
    document and ends with the "operation stopped" error around
    [ErrStop] if they are not.  When the path does not resolve, the
    outcome is the same "operation stopped" error in non-strict mode and
    the "operation failed" error around the resolution error in strict
    mode. *)
Theorem test_operation_never_mutates (fuel : nat) (p : Patch) (st : state)
    (P : string) (V : any) :
  extensions p !! opTest = Some testExtension →
  snd (applyAny fuel p [testOperation P V] st) = st
  ∧ (JSONPointer_Check (NewJSONPointer P) = None →
     (∀ n nV,
        wfIn 0 (length (heap st)) (heap st) n (doc st) →
        wfIn 0 (length (heap st)) (heap st) nV V →
        (n ≤ fuel)%nat →
        (∀ q, fst (VisitPath (opts p) (JSONPointer_Path (NewJSONPointer P)) st)
              ≠ Panic q)
        ∧ ∀ value set,
            fst (VisitPath (opts p) (JSONPointer_Path (NewJSONPointer P)) st)
            = Ok (value, set) →
            (same (heap st) (heap st) value V →
               fst (applyAny fuel p [testOperation P V] st) = Ok tt)
            ∧ (¬ same (heap st) (heap st) value V →
               fst (applyAny fuel p [testOperation P V] st)
               = Err (ErrOperationStopped ("test " +:+ P)
                        "jsonpatch.testExtension" ErrStop)))
     ∧ (∀ err,
        fst (VisitPath (opts p) (JSONPointer_Path (NewJSONPointer P)) st)
        = Err err →
        fst (applyAny fuel p [testOperation P V] st)
        = if StrictPathExists (opts p)
          then Err (ErrOperationFailed ("test " +:+ P)
                      "jsonpatch.testExtension" (ErrPathNotExists P err))
          else Err (ErrOperationStopped ("test " +:+ P)
                      "jsonpatch.testExtension" ErrStop))).
Proof.
  intros Hext. split.
  - destruct (JSONPointer_Check (NewJSONPointer P)) as [msg|] eqn:Hptr.
    + unfold applyAny. cbn [Patch_Check]. unfold Operation_check, testOperation.
      cbn [OP Path]. by rewrite Hptr.
    + rewrite applyAny_test_checked by done.
      pose proof (readonly_testExtension_Apply fuel (opts p)
                    (testOperation P V) st) as Hro.
      unfold settle.
      destruct (testExtension_Apply fuel (opts p) (testOperation P V) st)
        as [[[]|err|q] st']; cbn in Hro; subst; try done.
      destruct (negb (StrictPathExists (opts p)) && errorsIs err ErrNotExists);
        [done|].
      by destruct (errorsIs err ErrStop).
  - intros Hptr. rewrite applyAny_test_checked by done.
    rewrite testExtension_Apply_run. split.
    + intros n nV Hdoc HV Hn. destruct st as [o h]. cbn [heap doc] in *.
      split; [intros q; by apply (VisitPath_wf_returns _ _ _ n)|].
      intros value set Hv.
      destruct (VisitPath_wf (opts p) o h n _ _ _ Hdoc Hv) as (-> & Hvalue & _).
      destruct (DeepEqual_decides fuel n nV _ _ _ _ o h value V Hn Hvalue HV)
        as (r & -> & Hr).
      split.
      * intros Hs. apply Hr in Hs. by subst r.
      * intros Hs. destruct r; [by destruct Hs; apply Hr|].
        unfold settle. by rewrite andb_false_r.
    + intros err Herr.
      destruct (VisitPath (opts p) (JSONPointer_Path (NewJSONPointer P)) st)
        as [[[value set]|err'|q] st'] eqn:Hv; cbn in Herr; try done.
      injection Herr as ->.
      pose proof (VisitPath_not_stop _ _ _ _ _ Hv) as Hns.
      unfold settle. destruct (StrictPathExists (opts p)); cbn [negb andb].
      * cbn [errorsIs]. case_bool_decide; [done|]. by rewrite Hns.
      * done.
Qed.

Lemma exHeap_wf : wfIn 0 (length exHeap) exHeap 1 (ASlice exSlice).
Proof.
  apply (wfIn_slice _ _ _ 0 _ exArray); [cbn; lia| |].
  - split; [done|]. unfold exArray. cbn. lia.
  - intros y Hy. unfold shown, exArray in Hy. cbn in Hy.
    repeat (apply elem_of_cons in Hy as [->|Hy]; [constructor|]).
    by apply not_elem_of_nil in Hy.
Qed.

Lemma test_operation_never_mutates_witness :
  extensions (New []) !! opTest = Some testExtension
  ∧ snd (applyAny 1 (New []) [testOperation "/1" (ANum 2)]
           (mkState (ASlice exSlice) exHeap))
    = mkState (ASlice exSlice) exHeap
  ∧ fst (applyAny 1 (New []) [testOperation "/1" (ANum 2)]
           (mkState (ASlice exSlice) exHeap))
    = Ok tt
  ∧ fst (applyAny 1 (New []) [testOperation "/1" (ANum 5)]
           (mkState (ASlice exSlice) exHeap))
    = Err (ErrOperationStopped "test /1" "jsonpatch.testExtension" ErrStop).
Proof.
  assert (extensions (New []) !! opTest = Some testExtension) as Hext
    by reflexivity.
  assert (∀ V, fst (VisitPath (opts (New []))
                      (JSONPointer_Path (NewJSONPointer "/1"))
                      (mkState (ASlice exSlice) exHeap))
               = Ok (ANum 2, SetIndex exSlice 1)
               ∧ wfIn 0 (length exHeap) exHeap 0 (ANum V)) as Hv.
  { intros V. split; [vm_compute; reflexivity|constructor]. }
  split; [exact Hext|].
  destruct (test_operation_never_mutates 1 (New [])
              (mkState (ASlice exSlice) exHeap) "/1" (ANum 2) Hext)
    as [Hframe [Hok _]]; [reflexivity|].
  destruct (test_operation_never_mutates 1 (New [])
              (mkState (ASlice exSlice) exHeap) "/1" (ANum 5) Hext)
    as [_ [Hstop _]]; [reflexivity|].
  split; [exact Hframe|]. split.
  - apply (proj2 (Hok 1%nat 0%nat exHeap_wf (proj2 (Hv 2)) (le_n 1))
             (ANum 2) (SetIndex exSlice 1) (proj1 (Hv 2))).
    constructor.
  - apply (proj2 (Hstop 1%nat 0%nat exHeap_wf (proj2 (Hv 5)) (le_n 1))
             (ANum 2) (SetIndex exSlice 1) (proj1 (Hv 5))).
    inversion 1.
Defined.

(** ** The copy operation *)


Lemma exDocHeap_wf : wfIn 0 (length exDocHeap) exDocHeap 2 (AMap 0%nat).
Proof.
  apply (wfIn_map _ _ _ 1 0%nat {["a" := ASlice (mkSlice 1%nat 0%nat 3%nat 4%nat)]});
    [cbn; lia|done|].
  intros k x [<- <-]%lookup_singleton_Some.
  apply (wfIn_slice _ _ _ 0 _ exArray); [cbn; lia| |].
  - split; [done|]. unfold exArray. cbn. lia.
  - intros y Hy. unfold shown, exArray in Hy. cbn in Hy.
    repeat (apply elem_of_cons in Hy as [->|Hy]; [constructor|]).
    by apply not_elem_of_nil in Hy.
Qed.


(** ** The mutators on objects, arrays and scalars *)

(** X2: what [AddValue] does on each kind of node.  On an object it sets
    the key, whether or not it was there, and does not call the setter;
    on an array a token that does not parse gives the parse error and
    changes nothing, and a token that resolves to [i] makes [sliceInsert]
    build a slice that shows the old elements with the value inserted
    before position [i], which is then handed to the setter, while the
    old slice still shows what it showed; on a scalar it fails with the
    bad type error and changes nothing. *)
Theorem AddValue_cases (p : Options) (o : any) (h : list cell) (set : Setter)
    (key : string) (x : any) :
  (∀ m t, h !! m = Some (CMap t) →
     AddValue p (AMap m) set key x (mkState o h)
     = (Ok tt, mkState o (<[m := CMap (<[key := x]> t)]> h)))
  ∧ (∀ v e, ParseArrayIndex p (lenZ v) key = inr e →
       AddValue p (ASlice v) set key x (mkState o h) = (Err e, mkState o h))
  ∧ (∀ v d i, backing h v d → ParseArrayIndex p (lenZ v) key = inl i →
       ∃ v' h' d',
         AddValue p (ASlice v) set key x (mkState o h)
         = callSetter set (ASlice v') (mkState o h')
         ∧ backing h' v' d'
         ∧ shown v' d' = insertAt (Z.to_nat i) x (shown v d)
         ∧ ∃ dS, backing h' v dS ∧ shown v dS = shown v d)
  ∧ (∀ node, isScalar node = true →
       AddValue p node set key x (mkState o h)
       = (Err (ErrBadType "add" (typeName node)), mkState o h)).
Proof.
  split; [|split; [|split]].
  - intros m t Hm. cbn [AddValue]. by apply mapSet_run.
  - intros v e He. cbn [AddValue]. by rewrite He.
  - intros v d i Hb Hi. cbn [AddValue]. rewrite Hi. cbn [lift].
    rewrite (bind_Ok _ _ _ _ _ (eq_refl : ret i _ = _)).
    pose proof (ParseArrayIndex_range p _ _ _ (lenZ_nonneg v) Hi) as Hr.
    destruct (sliceInsert_spec o h v d i x Hb Hr)
      as (v' & h' & d' & Hrun & Hb' & Hsh & _ & Hold & _).
    exists v', h', d'. by rewrite (bind_Ok _ _ _ _ _ Hrun).
  - intros node Hs. by destruct node.
Qed.

(** X3: what [RemoveValue] does on each kind of node.  On an object an
    absent key is an [ErrNotExists] in strict mode and the key is deleted
    otherwise (a deletion of nothing when it is absent); on an array a
    token that does not parse, or that resolves to the length, is an
    [ErrNotExists] in strict mode and is passed over in silence
    otherwise, the parse error being dropped; a token that resolves to an
    index [i] below the length makes [sliceRemove] close the gap within
    the array of the slice, and the shortened slice is handed to the
    setter; on a scalar it fails with the bad type error. *)
Theorem RemoveValue_cases (p : Options) (o : any) (h : list cell) (set : Setter)
    (key : string) :
  (∀ m t, h !! m = Some (CMap t) →
     RemoveValue p (AMap m) set key (mkState o h)
     = if StrictPathExists p && bool_decide (t !! key = None)
       then (Err ErrNotExists, mkState o h)
       else (Ok tt, mkState o (<[m := CMap (delete key t)]> h)))
  ∧ (∀ v, (∃ e, ParseArrayIndex p (lenZ v) key = inr e)
          ∨ ParseArrayIndex p (lenZ v) key = inl (lenZ v) →
       RemoveValue p (ASlice v) set key (mkState o h)
       = if StrictPathExists p then (Err ErrNotExists, mkState o h)
         else (Ok tt, mkState o h))
  ∧ (∀ v d i, backing h v d → ParseArrayIndex p (lenZ v) key = inl i →
       i ≠ lenZ v →
       ∃ v' d',
         RemoveValue p (ASlice v) set key (mkState o h)
         = callSetter set (ASlice v') (mkState o (<[arr v := CArr d']> h))
         ∧ arr v' = arr v ∧ off v' = off v
         ∧ shown v' d' = delete (Z.to_nat i) (shown v d))
  ∧ (∀ node, isScalar node = true →
       RemoveValue p node set key (mkState o h)
       = (Err (ErrBadType "remove" (typeName node)), mkState o h)).
Proof.
  split; [|split; [|split]].
  - intros m t Hm. cbn [RemoveValue].
    rewrite (bind_Ok _ _ _ _ _ (mapGet_run o h m t key Hm)).
    destruct (t !! key) as [g|] eqn:Hg.
    + rewrite bool_decide_eq_true_2 by done. cbn [negb].
      rewrite bool_decide_eq_false_2 by done. rewrite !andb_false_r.
      by apply mapDelete_run.
    + rewrite (bool_decide_eq_false_2 (is_Some None)) by (by intros [? ?]).
      rewrite bool_decide_eq_true_2 by done. cbn [negb].
      destruct (StrictPathExists p); cbn [andb]; [done|].
      by apply mapDelete_run.
  - intros v [[e He]|He]; cbn [RemoveValue]; rewrite He.
    + by destruct (StrictPathExists p).
    + rewrite Z.eqb_refl. by destruct (StrictPathExists p).
  - intros v d i Hb Hi Hne. cbn [RemoveValue]. rewrite Hi.
    destruct (Z.eqb_spec (lenZ v) i); [done|].
    pose proof (ParseArrayIndex_range p _ _ _ (lenZ_nonneg v) Hi) as Hr.
    destruct (sliceRemove_spec o h v d i Hb)
      as (v' & d' & Hrun & Ha & Ho & _ & _ & _ & Hsh); [lia|].
    exists v', d'. by rewrite (bind_Ok _ _ _ _ _ Hrun).
  - intros node Hs. by destruct node.
Qed.

(** X4: [ReplaceValue] on an object and on a scalar.  In strict mode a
    key that is absent is an [ErrNotExists] and nothing changes; in every
    other case the key is set, so that without strict mode a replace of
    an absent key adds it.  On a scalar it fails with the bad type
    error. *)
Theorem ReplaceValue_object (p : Options) (o : any) (h : list cell)
    (set : Setter) (key : string) (x : any) :
  (∀ m t, h !! m = Some (CMap t) →
     ReplaceValue p (AMap m) set key x (mkState o h)
     = if StrictPathExists p && bool_decide (t !! key = None)
       then (Err ErrNotExists, mkState o h)
       else (Ok tt, mkState o (<[m := CMap (<[key := x]> t)]> h)))
  ∧ (∀ node, isScalar node = true →
       ReplaceValue p node set key x (mkState o h)
       = (Err (ErrBadType "replace" (typeName node)), mkState o h)).
Proof.
  split.
  - intros m t Hm. cbn [ReplaceValue].
    rewrite (bind_Ok _ _ _ _ _ (mapGet_run o h m t key Hm)).
    destruct (t !! key) as [g|] eqn:Hg.
    + rewrite bool_decide_eq_true_2 by done. cbn [negb].
      rewrite bool_decide_eq_false_2 by done. rewrite !andb_false_r.
      by apply mapSet_run.
    + rewrite (bool_decide_eq_false_2 (is_Some None)) by (by intros [? ?]).
      rewrite bool_decide_eq_true_2 by done. cbn [negb].
      destruct (StrictPathExists p); cbn [andb]; [done|].
      by apply mapSet_run.
  - intros node Hs. by destruct node.
Qed.

(** X5: [MoveValue] on an object and on a scalar.  A [from] key that is
    absent is an [ErrNotExists] in strict mode and is passed over
    otherwise, the object staying as it is; a [from] key that is there is
    deleted and its value is set under [to], replacing what was there;
    moving a key onto itself leaves the object with the entries it had.
    On a scalar it fails with the bad type error. *)
Theorem MoveValue_object (p : Options) (o : any) (h : list cell)
    (set : Setter) (from to : string) :
  (∀ m t, h !! m = Some (CMap t) →
     MoveValue p (AMap m) set from to (mkState o h)
     = match t !! from with
       | None => if StrictPathExists p then (Err ErrNotExists, mkState o h)
                 else (Ok tt, mkState o h)
       | Some e =>
           (Ok tt, mkState o (<[m := CMap (<[to := e]> (delete from t))]> h))
       end)
  ∧ (∀ m t, h !! m = Some (CMap t) → is_Some (t !! from) →
       MoveValue p (AMap m) set from from (mkState o h)
       = (Ok tt, mkState o (<[m := CMap t]> h)))
  ∧ (∀ node, isScalar node = true →
       MoveValue p node set from to (mkState o h)
       = (Err (ErrBadType "move" (typeName node)), mkState o h)).
Proof.
  assert (∀ to' m t, h !! m = Some (CMap t) →
     MoveValue p (AMap m) set from to' (mkState o h)
     = match t !! from with
       | None => if StrictPathExists p then (Err ErrNotExists, mkState o h)
                 else (Ok tt, mkState o h)
       | Some e =>
           (Ok tt, mkState o (<[m := CMap (<[to' := e]> (delete from t))]> h))
       end) as Hobj.
  { intros to' m t Hm. cbn [MoveValue].
    rewrite (bind_Ok _ _ _ _ _ (mapGet_run o h m t from Hm)).
    destruct (t !! from) as [e|] eqn:He.
    - rewrite bool_decide_eq_true_2 by done. cbn [negb].
      rewrite andb_false_r.
      rewrite (bind_Ok _ _ _ _ _ (mapGet_run o h m t from Hm)). rewrite He.
      rewrite (bind_Ok _ _ _ _ _ (mapDelete_run o h m t from Hm)).
      assert (<[m := CMap (delete from t)]> h !! m = Some (CMap (delete from t)))
        as Hm'.
      { apply list_lookup_insert_eq. by eapply lookup_lt_Some. }
      rewrite (mapSet_run o _ m _ to' e Hm'). by rewrite list_insert_insert_eq.
    - rewrite (bool_decide_eq_false_2 (is_Some None)) by (by intros [? ?]).
      cbn [negb]. destruct (StrictPathExists p); cbn [andb]; [done|].
      rewrite (bind_Ok _ _ _ _ _ (mapGet_run o h m t from Hm)). by rewrite He. }
  split; [by apply Hobj|]. split.
  - intros m t Hm [e He]. rewrite (Hobj from m t Hm), He.
    by rewrite insert_delete_eq, insert_id.
  - intros node Hs. by destruct node.
Qed.

(** ** The navigator *)

(** X6: the navigator only reads.  Whatever the options, the node, the
    segments and the state, and whatever the outcome, neither one descent
    step nor a whole [VisitPath] changes the document variable or any
    cell of the heap. *)
Theorem VisitPath_never_writes (p : Options) (st : state) :
  (∀ parts, snd (VisitPath p parts st) = st)
  ∧ (∀ node part, snd (visitPathPart p node part st) = st).
Proof.
  split.
  - intros parts. apply readonly_VisitPath.
  - intros node part. apply readonly_visitPathPart.
Qed.



Lemma visitParts_snoc (p : Options) (parts : list string) (part : string)
    node set st :
  visitParts p node set (parts ++ [part])%list st
  = match visitParts p node set parts st with
    | (Ok (x, _), st') =>
        match visitPathPart p x part st' with
        | (Ok (y, s), st'') => (Ok (y, Some s), st'')
        | (Err e, st'') => (Err e, st'')
        | (Panic q, st'') => (Panic q, st'')
        end
    | (Err e, st') => (Err e, st')
    | (Panic q, st') => (Panic q, st')
    end.
Proof.
  revert node set st. induction parts as [|a parts IH]; intros node set st.
  - cbn [app visitParts ret]. unfold bind.
    by destruct (visitPathPart p node part st) as [[[y s]|e|q] st'].
  - cbn [app visitParts]. unfold bind.
    destruct (visitPathPart p node a st) as [[[y s]|e|q] st'];
      [apply IH|done|done].
Qed.

(** X8: the navigator composes.  Visiting a path with one more segment
    is visiting the path and then taking one descent step from the node
    reached: a resolution of the parent path followed by [visitPathPart]
    on the last token (as the move operation does it) is the resolution
    of the whole path (as the copy and test operations do it); and when
    the shorter path fails, so does the longer one, with the same
    error. *)
Theorem VisitPath_snoc (p : Options) (parts : list string) (part : string)
    (st : state) :
  (∀ node set, fst (VisitPath p parts st) = Ok (node, set) →
     VisitPath p (parts ++ [part])%list st = visitPathPart p node part st)
  ∧ (∀ e, fst (VisitPath p parts st) = Err e →
       VisitPath p (parts ++ [part])%list st = (Err e, st)).
Proof.
  assert (snd (VisitPath p parts st) = st) as Hro by apply readonly_VisitPath.
  revert Hro. unfold VisitPath, bind, getDoc.
  rewrite visitParts_snoc.
  destruct (visitParts p (doc st) None parts st) as [[[x s]|e|q] st'] eqn:Hv;
    cbn [fst snd].
  - intros Hst'. split; [|by destruct s].
    intros node set Hn.
    assert (st' = st ∧ node = x) as [-> ->].
    { destruct s; cbn in *; by injection Hn as <- _. }
    by destruct (visitPathPart p x part st) as [[[y s']|e|q] st''].
  - intros ->. split; [done|]. by intros e' [= ->].
  - intros _. split; [done|done].
Qed.

(** ** Deep copies *)

(** X9: [deepCopy] with fuel for the nesting of a well-formed value
    returns; it changes no cell that was there and only appends cells;
    the copy consists of appended cells alone, at every depth, and is the
    same document as the value.  A scalar is returned as it is, with no
    cell allocated, whatever the fuel. *)
Theorem deepCopy_fresh_copy (fuel n : nat) (x o : any) (h : list cell) :
  (n ≤ fuel)%nat →
  wfIn 0 (length h) h n x →
  (∃ c hn,
     deepCopy fuel x (mkState o h) = (Ok c, mkState o (h ++ hn)%list)
     ∧ wfIn (length h) (length (h ++ hn)%list) (h ++ hn)%list n c
     ∧ same h (h ++ hn)%list x c)
  ∧ (isScalar x = true → deepCopy fuel x (mkState o h) = (Ok x, mkState o h)).
Proof.
  intros Hn Hwf. split.
  - by apply (deepCopy_copies fuel n Hn).
  - intros Hs. by destruct x, fuel.
Qed.

Lemma deepCopy_fresh_copy_witness :
  (2 ≤ 2)%nat
  ∧ wfIn 0 (length exDocHeap) exDocHeap 2 (AMap 0%nat)
  ∧ (∃ c hn,
       deepCopy 2 (AMap 0%nat) (mkState ANil exDocHeap)
       = (Ok c, mkState ANil (exDocHeap ++ hn)%list)
       ∧ wfIn (length exDocHeap) (length (exDocHeap ++ hn)%list)
           (exDocHeap ++ hn)%list 2 c
       ∧ same exDocHeap (exDocHeap ++ hn)%list (AMap 0%nat) c)
  ∧ (isScalar (AMap 0%nat) = true →
     deepCopy 2 (AMap 0%nat) (mkState ANil exDocHeap)
     = (Ok (AMap 0%nat), mkState ANil exDocHeap)).
Proof.
  split; [lia|]. split; [exact exDocHeap_wf|].
  exact (deepCopy_fresh_copy 2 2 (AMap 0%nat) ANil exDocHeap (le_n 2)
           exDocHeap_wf).
Defined.

(** ** Checking and applying lists of operations *)

(** X10: [Check] goes through the list in order and stops at the first
    operation it refuses: the check of two lists one after the other is
    the error of the first list if it has one, and the check of the
    second otherwise. *)
Theorem Patch_Check_app (p : Patch) (ops1 ops2 : list Operation) :
  Patch_Check p (ops1 ++ ops2)%list
  = match Patch_Check p ops1 with
    | Some err => Some err
    | None => Patch_Check p ops2
    end.
Proof.
  induction ops1 as [|op ops1 IH]; [done|].
  cbn [app Patch_Check]. destruct (Operation_check op); [done|].
  destruct (extensions p !! default "" (OP op)) as [e|]; [|done].
  by destruct (ext_Check e (opts p) op).
Qed.

Lemma applyOps_app (fuel : nat) (p : Patch) (ops1 ops2 : list Operation) st :
  applyOps fuel p (ops1 ++ ops2)%list st
  = match applyOps fuel p ops1 st with
    | (Ok _, st1) => applyOps fuel p ops2 st1
    | r => r
    end.
Proof.
  revert st. induction ops1 as [|op ops1 IH]; intros st; [done|].
  cbn [app applyOps]. unfold bind, attempt.
  destruct (deref (OP op) st) as [[name|e|q] st0]; [|done|done].
  destruct (deref (extensions p !! name) st0) as [[ext|e|q] st1]; [|done|done].
  destruct (ext_Apply ext fuel (opts p) op st1) as [[[]|err|q] st2];
    [apply IH| |done].
  destruct (negb (StrictPathExists (opts p)) && errorsIs err ErrNotExists);
    [apply IH|].
  by destruct (errorsIs err ErrStop).
Qed.

(** X11: applying a list that passes the check is applying its parts one
    after the other: the second part runs in the state the first part
    leaves, and only if the first part succeeds; an error or a panic of
    the first part is the outcome of the whole, in the state it left. *)
Theorem applyAny_app (fuel : nat) (p : Patch) (ops1 ops2 : list Operation)
    (st : state) :
  Patch_Check p (ops1 ++ ops2)%list = None →
  applyAny fuel p (ops1 ++ ops2)%list st
  = match applyAny fuel p ops1 st with
    | (Ok _, st1) => applyAny fuel p ops2 st1
    | r => r
    end.
Proof.
  intros Hc. unfold applyAny. rewrite Hc. rewrite Patch_Check_app in Hc.
  destruct (Patch_Check p ops1); [done|]. rewrite Hc. apply applyOps_app.
Qed.

Lemma applyAny_app_witness :
  Patch_Check (New [])
    ([testOperation "/1" (ANum 2)] ++ [testOperation "/0" (ANum 1)])%list = None
  ∧ applyAny 1 (New [])
      ([testOperation "/1" (ANum 2)] ++ [testOperation "/0" (ANum 1)])%list
      (mkState (ASlice exSlice) exHeap)
    = match applyAny 1 (New []) [testOperation "/1" (ANum 2)]
              (mkState (ASlice exSlice) exHeap) with
      | (Ok _, st1) => applyAny 1 (New []) [testOperation "/0" (ANum 1)] st1
      | r => r
      end.
Proof.
  assert (Patch_Check (New [])
            ([testOperation "/1" (ANum 2)] ++ [testOperation "/0" (ANum 1)])%list
          = None) as Hc by (vm_compute; reflexivity).
  split; [exact Hc|].
  exact (applyAny_app 1 (New []) _ _ (mkState (ASlice exSlice) exHeap) Hc).
Defined.

(** X12: [ApplyAny] looks at the type of the document before anything
    else.  A document that is neither an object nor an array is refused
    with the bad type error and stays as it is, whatever the list, even
    one the check would refuse; on an object or an array [ApplyAny] is
    [applyAny]. *)
Theorem ApplyAny_root_type (fuel : nat) (p : Patch) (ops : list Operation)
    (st : state) :
  (isScalar (doc st) = true →
     ApplyAny fuel p ops st = (Err (ErrBadType "apply" "*interface {}"), st))
  ∧ (isScalar (doc st) = false →
     ApplyAny fuel p ops st = applyAny fuel p ops st).
Proof.
  unfold ApplyAny, bind, getDoc. split; intros Hs; by destruct (doc st).
Qed.

Lemma applyOps_error_kinds (fuel : nat) (p : Patch) (ops : list Operation) :
  ∀ st e,
    fst (applyOps fuel p ops st) = Err e →
    ∃ d T e',
      (e = ErrOperationStopped d T e' ∧ errorsIs e' ErrStop = true)
      ∨ (e = ErrOperationFailed d T e' ∧ errorsIs e' ErrStop = false).
Proof.
  induction ops as [|op ops IH]; intros st e; [done|].
  cbn [applyOps]. unfold bind, attempt.
  destruct (deref (OP op) st) as [[name|e0|q] st0] eqn:Hd; cbn [fst].
  2:{ by destruct (OP op). }
  2:{ done. }
  destruct (deref (extensions p !! name) st0) as [[ext|e0|q] st1] eqn:Hd';
    cbn [fst].
  2:{ by destruct (extensions p !! name). }
  2:{ done. }
  destruct (ext_Apply ext fuel (opts p) op st1) as [[[]|err|q] st2];
    cbn [fst]; [apply IH| |done].
  destruct (negb (StrictPathExists (opts p)) && errorsIs err ErrNotExists);
    [apply IH|].
  destruct (errorsIs err ErrStop) eqn:Hstop; cbn; intros [= <-];
    eexists _, _, _; [left|right]; done.
Qed.

(** X13: the errors of a list that passed the check.  When [applyAny]
    returns an error for such a list, the error is either an "operation
    stopped" error around an error that is or wraps [ErrStop], or an
    "operation failed" error around an error that neither is nor wraps
    [ErrStop]; no error of a handler is returned bare. *)
Theorem applyAny_error_kinds (fuel : nat) (p : Patch) (ops : list Operation)
    (st : state) (e : error) :
  Patch_Check p ops = None →
  fst (applyAny fuel p ops st) = Err e →
  ∃ d T e',
    (e = ErrOperationStopped d T e' ∧ errorsIs e' ErrStop = true)
    ∨ (e = ErrOperationFailed d T e' ∧ errorsIs e' ErrStop = false).
Proof.
  intros Hc. unfold applyAny. rewrite Hc. apply applyOps_error_kinds.
Qed.

Lemma applyAny_error_kinds_witness :
  Patch_Check (New []) [testOperation "/1" (ANum 5)] = None
  ∧ fst (applyAny 1 (New []) [testOperation "/1" (ANum 5)]
           (mkState (ASlice exSlice) exHeap))
    = Err (ErrOperationStopped "test /1" "jsonpatch.testExtension" ErrStop)
  ∧ ∃ d T e',
      (ErrOperationStopped "test /1" "jsonpatch.testExtension" ErrStop
       = ErrOperationStopped d T e' ∧ errorsIs e' ErrStop = true)
      ∨ (ErrOperationStopped "test /1" "jsonpatch.testExtension" ErrStop
         = ErrOperationFailed d T e' ∧ errorsIs e' ErrStop = false).
Proof.
  assert (Patch_Check (New []) [testOperation "/1" (ANum 5)] = None) as Hc
    by (vm_compute; reflexivity).
  assert (fst (applyAny 1 (New []) [testOperation "/1" (ANum 5)]
                 (mkState (ASlice exSlice) exHeap))
          = Err (ErrOperationStopped "test /1" "jsonpatch.testExtension" ErrStop))
    as Hr by (vm_compute; reflexivity).
  split; [exact Hc|]. split; [exact Hr|].
  exact (applyAny_error_kinds 1 (New []) _ (mkState (ASlice exSlice) exHeap)
           _ Hc Hr).
Defined.

(** X14: an add or a replace whose path is the empty pointer rebinds the
    document variable to the value and touches no cell of the heap,
    whatever the document was, a scalar included. *)
Theorem add_replace_whole_document (fuel : nat) (p : Options) (op : Operation)
    (V : any) (st : state) :
  Path op = Some "" → Value op = Some V →
  addExtension_Apply fuel p op st = (Ok tt, mkState V (heap st))
  ∧ replaceExtension_Apply fuel p op st = (Ok tt, mkState V (heap st)).
Proof.
  intros Hp Hv. unfold addExtension_Apply, replaceExtension_Apply.
  by rewrite Hp, Hv.
Qed.

Lemma add_replace_whole_document_witness :
  Path (mkOperation (Some "add") (Some "") (Some (ANum 7)) None) = Some ""
  ∧ Value (mkOperation (Some "add") (Some "") (Some (ANum 7)) None)
    = Some (ANum 7)
  ∧ addExtension_Apply 0 (mkOptions true false)
      (mkOperation (Some "add") (Some "") (Some (ANum 7)) None)
      (mkState (ASlice exSlice) exHeap)
    = (Ok tt, mkState (ANum 7) exHeap)
  ∧ replaceExtension_Apply 0 (mkOptions true false)
      (mkOperation (Some "add") (Some "") (Some (ANum 7)) None)
      (mkState (ASlice exSlice) exHeap)
    = (Ok tt, mkState (ANum 7) exHeap).
Proof.
  split; [reflexivity|]. split; [reflexivity|].
  exact (add_replace_whole_document 0 (mkOptions true false)
           (mkOperation (Some "add") (Some "") (Some (ANum 7)) None)
           (ANum 7) (mkState (ASlice exSlice) exHeap) eq_refl eq_refl).
Defined.

(** X15: the engine that [New] builds.  Without options it is strict
    about paths, has no negative indices, and knows exactly the six
    operations of RFC 6902, each under its own name.  Options take effect
    in the order they are given, so the last one that sets a flag or
    registers a handler under a name decides it. *)
Theorem New_options (options : list Option) :
  opts (New []) = mkOptions true false
  ∧ (∀ name, is_Some (extensions (New []) !! name)
       ↔ name ∈ [opAdd; opRemove; opReplace; opMove; opCopy; opTest])
  ∧ (∀ name e, extensions (New []) !! name = Some e → ext_OP e = name)
  ∧ (∀ on, StrictPathExists
             (opts (New (options ++ [WithStrictPathExists on])%list)) = on)
  ∧ (∀ on, SupportNegativeArrayIndex
             (opts (New (options ++ [WithSupportNegativeArrayIndex on])%list))
           = on)
  ∧ (∀ ext, extensions (New (options ++ [WithExtension ext])%list)
              !! ext_OP ext = Some ext).
Proof.
  assert (∀ name e, extensions (New []) !! name = Some e →
            ext_OP e = name
            ∧ name ∈ [opAdd; opRemove; opReplace; opMove; opCopy; opTest])
    as Hreg.
  { intros name e. unfold New. cbn [fold_left extensions].
    rewrite !lookup_insert_Some, lookup_empty.
    intros Hl. rewrite !elem_of_cons.
    repeat (destruct Hl as [[<- <-]|[_ Hl]]; [split; [done|tauto]|]). done. }
  split; [done|]. split; [|split; [|split; [|split]]].
  - intros name. split.
    + intros [e He]. by apply (Hreg name e).
    + rewrite !elem_of_cons, elem_of_nil.
      intros [->|[->|[->|[->|[->|[->|[]]]]]]]; by eexists.
  - intros name e He. by apply (Hreg name e).
  - intros on. unfold New. by rewrite fold_left_app.
  - intros on. unfold New. by rewrite fold_left_app.
  - intros ext. unfold New. rewrite fold_left_app. cbn [fold_left].
    unfold WithExtension. cbn [extensions]. apply lookup_insert_eq.
Qed.

(** ** The slice helpers on their own *)

Lemma copy_never_errs dst src st e st' : copy dst src st ≠ (Err e, st').
Proof.
  unfold copy, elements, bind, loadArr, storeArr, ret.
  destruct (heap st !! arr src) as [[xs|]|]; try done.
  destruct (heap st !! arr dst) as [[ys|]|] eqn:Hd; try done.
  cbn [heap]. by rewrite Hd.
Qed.

Lemma setIndex_panics st v (i : Z) x :
  i < 0 ∨ lenZ v ≤ i →
  setIndex v i x st = (Panic (IndexOutOfRange i (len v)), st).
Proof.
  intros Hi. unfold setIndex.
  destruct (Z.ltb_spec i 0), (Z.leb_spec (lenZ v) i); try done. lia.
Qed.

Lemma sliceRemove_outside_panics (s : Slice) (i : Z) st :
  i < 0 ∨ lenZ s ≤ i → ∃ q, fst (sliceRemove s i st) = Panic q.
Proof.
  intros Hi. unfold sliceRemove, bind, reslice.
  destruct ((0 <? 0) || (i <? 0) || (Z.of_nat (cap s) <? i)) eqn:H1;
    [by eexists|].
  cbn [ret].
  assert ((i + 1 <? 0) || (lenZ s <? i + 1) || (Z.of_nat (cap s) <? lenZ s)
          = true) as ->; [|by eexists].
  apply orb_false_iff in H1 as [H1 _]. apply orb_false_iff in H1 as [_ H1].
  apply Z.ltb_ge in H1.
  destruct (Z.ltb_spec (i + 1) 0), (Z.ltb_spec (lenZ s) (i + 1)); try done. lia.
Qed.

Lemma sliceInsert_outside_panics (s : Slice) (i : Z) (x : any) st :
  i < 0 ∨ lenZ s < i → ∃ q, fst (sliceInsert s i x st) = Panic q.
Proof.
  intros Hi. unfold sliceInsert. pose proof (lenZ_nonneg s) as Hs.
  destruct (Z.eqb_spec i (lenZ s)); [lia|].
  unfold bind at 1. cbn [make bind alloc ret fst snd].
  unfold bind at 1. unfold reslice at 1. cbn [cap].
  destruct ((0 <? 0) || (i <? 0) || (Z.of_nat (len s + 1) <? i)) eqn:H1;
    [by eexists|].
  cbn [ret]. unfold bind at 1. unfold reslice at 1.
  destruct ((0 <? 0) || (i <? 0) || (Z.of_nat (cap s) <? i)) eqn:H2;
    [by eexists|].
  cbn [ret]. unfold bind at 1.
  match goal with |- context [copy ?a ?b ?st0] =>
    pose proof (copy_never_errs a b st0) as Hc;
    destruct (copy a b st0) as [[[]|e|q] st1] end.
  - unfold bind at 1.
    rewrite setIndex_panics; [by eexists|].
    apply orb_false_iff in H1 as [H1 H1']. apply orb_false_iff in H1 as [_ H1].
    apply Z.ltb_ge in H1, H1'. unfold lenZ in *. cbn [len]. lia.
  - by destruct (Hc e st1).
  - by eexists.
Qed.

(** X16: the slice helpers within their range.  On a slice that lies
    within its array, [sliceRemove] at an index below the length returns
    a slice over the same array, one shorter, that shows the elements
    without the one at the index; [sliceInsert] at an index up to the
    length returns a slice, one longer, that shows the elements with the
    value inserted before the index, and the slice it was given still
    shows what it showed. *)
Theorem slice_helpers_in_range (o : any) (h : list cell) (s : Slice)
    (d : list any) (i : Z) (x : any) :
  backing h s d →
  (0 ≤ i < lenZ s →
     ∃ s' d',
       sliceRemove s i (mkState o h) = (Ok s', mkState o (<[arr s := CArr d']> h))
       ∧ arr s' = arr s ∧ off s' = off s ∧ cap s' = cap s
       ∧ len s' = (len s - 1)%nat
       ∧ shown s' d' = delete (Z.to_nat i) (shown s d))
  ∧ (0 ≤ i ≤ lenZ s →
     ∃ s' h' d',
       sliceInsert s i x (mkState o h) = (Ok s', mkState o h')
       ∧ backing h' s' d'
       ∧ len s' = S (len s)
       ∧ shown s' d' = insertAt (Z.to_nat i) x (shown s d)
       ∧ ∃ dS, backing h' s dS ∧ shown s dS = shown s d).
Proof.
  intros Hb. split; intros Hi.
  - destruct (sliceRemove_spec o h s d i Hb Hi)
      as (s' & d' & Hrun & Ha & Ho & Hc & Hl & _ & Hsh).
    by exists s', d'.
  - destruct (sliceInsert_spec o h s d i x Hb Hi)
      as (s' & h' & d' & Hrun & Hb' & Hsh & Hl & Hold & _).
    by exists s', h', d'.
Qed.

Lemma slice_helpers_in_range_witness :
  backing exHeap exSlice exArray
  ∧ (0 ≤ 1 < lenZ exSlice →
     ∃ s' d',
       sliceRemove exSlice 1 (mkState ANil exHeap)
       = (Ok s', mkState ANil (<[arr exSlice := CArr d']> exHeap))
       ∧ arr s' = arr exSlice ∧ off s' = off exSlice ∧ cap s' = cap exSlice
       ∧ len s' = (len exSlice - 1)%nat
       ∧ shown s' d' = delete (Z.to_nat 1) (shown exSlice exArray))
  ∧ (0 ≤ 1 ≤ lenZ exSlice →
     ∃ s' h' d',
       sliceInsert exSlice 1 (ANum 9) (mkState ANil exHeap)
       = (Ok s', mkState ANil h')
       ∧ backing h' s' d'
       ∧ len s' = S (len exSlice)
       ∧ shown s' d' = insertAt (Z.to_nat 1) (ANum 9) (shown exSlice exArray)
       ∧ ∃ dS, backing h' exSlice dS ∧ shown exSlice dS = shown exSlice exArray).
Proof.
  assert (backing exHeap exSlice exArray) as Hb.
  { split; [done|]. unfold exSlice, exArray; cbn. lia. }
  split; [exact Hb|].
  exact (slice_helpers_in_range ANil exHeap exSlice exArray 1 (ANum 9) Hb).
Defined.

(** X17: the slice helpers outside their range.  Whatever the slice and
    the state, [sliceRemove] at a negative index or at an index from the
    length on, and [sliceInsert] at a negative index or at an index
    beyond the length, end in a run-time panic: neither returns a slice
    and neither returns an error. *)
Theorem slice_helpers_out_of_range (s : Slice) (i : Z) (x : any) (st : state) :
  (i < 0 ∨ lenZ s ≤ i → ∃ q, fst (sliceRemove s i st) = Panic q)
  ∧ (i < 0 ∨ lenZ s < i → ∃ q, fst (sliceInsert s i x st) = Panic q).
Proof.
  split.
  - apply sliceRemove_outside_panics.
  - apply sliceInsert_outside_panics.
Qed.

(** X18: the move within an array to the position behind the last
    element, in general.  On every array that lies within its backing
    array, for every [from] token that resolves to an index below the
    length and every [to] token that resolves to the length (as [-]
    does), [MoveValue] ends in a run-time panic: the element is taken
    out, and the insertion at the old length is an insertion beyond the
    length of what is left. *)
Theorem MoveValue_to_length_panics (p : Options) (o : any) (h : list cell)
    (v : Slice) (d : list any) (set : Setter) (from to : string) (fi : Z) :
  backing h v d →
  ParseArrayIndex p (lenZ v) from = inl fi →
  ParseArrayIndex p (lenZ v) to = inl (lenZ v) →
  fi ≠ lenZ v →
  ∃ q, fst (MoveValue p (ASlice v) set from to (mkState o h)) = Panic q.
Proof.
  intros Hb Hf Ht Hne.
  pose proof (ParseArrayIndex_range p _ _ _ (lenZ_nonneg v) Hf) as Hfi.
  unfold MoveValue. rewrite Hf, Ht.
  destruct (Z.eqb_spec fi (lenZ v)); [done|].
  pose proof (shown_length h v d Hb) as Hlen. rewrite lenZ_nat in *.
  destruct (lookup_lt_is_Some_2 (shown v d) (Z.to_nat fi)) as [e He]; [lia|].
  erewrite bind_Ok; [|by apply (index_run o h v d); [|rewrite lenZ_nat; lia|]].
  destruct (sliceRemove_spec o h v d fi Hb)
    as (v1 & d1 & Hrun1 & _ & _ & _ & Hl1 & _); [rewrite lenZ_nat; lia|].
  rewrite (bind_Ok _ _ _ _ _ Hrun1).
  destruct (sliceInsert_outside_panics v1 (Z.of_nat (len v)) e
              (mkState o (<[arr v := CArr d1]> h))) as [q Hq].
  { right. rewrite lenZ_nat. lia. }
  exists q. unfold bind.
  destruct (sliceInsert v1 (Z.of_nat (len v)) e
              (mkState o (<[arr v := CArr d1]> h))) as [[?|?|?] ?];
    cbn [fst] in Hq |- *; try done.
  by injection Hq as ->.
Qed.

Lemma MoveValue_to_length_panics_witness :
  backing exHeap exSlice exArray
  ∧ ParseArrayIndex (mkOptions true false) (lenZ exSlice) "1" = inl 1
  ∧ ParseArrayIndex (mkOptions true false) (lenZ exSlice) "-"
    = inl (lenZ exSlice)
  ∧ 1 ≠ lenZ exSlice
  ∧ ∃ q, fst (MoveValue (mkOptions true false) (ASlice exSlice) SetRoot "1" "-"
                (mkState (ASlice exSlice) exHeap)) = Panic q.
Proof.
  assert (backing exHeap exSlice exArray) as Hb.
  { split; [done|]. unfold exSlice, exArray; cbn. lia. }
  assert (1 ≠ lenZ exSlice) as Hne by (unfold lenZ, exSlice; cbn; lia).
  split; [exact Hb|]. split; [reflexivity|]. split; [reflexivity|].
  split; [exact Hne|].
  exact (MoveValue_to_length_panics (mkOptions true false) (ASlice exSlice)
           exHeap exSlice exArray SetRoot "1" "-" 1 Hb eq_refl eq_refl Hne).
Defined.

(** ** Pointers *)

Lemma sameStrings_eq (a b : list string) :
  length a = length b → sameStrings a b = true ↔ a = b.
Proof.
  revert b. induction a as [|x a IH]; intros [|y b] Hlen; try done.
  cbn [sameStrings]. injection Hlen as Hlen.
  destruct (String.eqb_spec x y) as [->|Hne].
  - rewrite (IH b Hlen). split; [by intros ->|by intros [= ->]].
  - split; [done|]. by intros [= -> _].
Qed.

(** X19: [SameParent] holds exactly of two pointers whose parent paths
    are the same list of segments. *)
Theorem SameParent_iff (p q : JSONPointer) :
  SameParent p q = true ↔ ParentPath p = ParentPath q.
Proof.
  unfold SameParent.
  destruct (Nat.eqb_spec (length (ParentPath p)) (length (ParentPath q)))
    as [Hlen|Hlen]; cbn [negb].
  - by apply sameStrings_eq.
  - split; [done|]. intros Heq. by rewrite Heq in Hlen.
Qed.

Lemma Split_cons (s : string) (sep : ascii) :
  ∃ piece pieces, Split s sep = piece :: pieces.
Proof.
  induction s as [|c r (piece & pieces & IH)]; cbn [Split].
  - by eexists _, _.
  - destruct (Ascii.eqb c sep); [by eexists _, _|]. rewrite IH. by eexists _, _.
Qed.

Lemma take_removelast (v : list string) :
  take (length v - 1)%nat v = removelast v.
Proof. rewrite Nat.sub_1_r. symmetry. apply removelast_firstn_len. Qed.

(** X20: a path is its parent path followed by its last token.  For a
    pointer with at least one segment the parent path and the last token
    make up the path; for a pointer with none the parent path is empty
    and the last token is the empty string. *)
Theorem ParentPath_LastToken (p : JSONPointer) :
  (JSONPointer_Path p ≠ [] →
     (ParentPath p ++ [LastToken p])%list = JSONPointer_Path p)
  ∧ (JSONPointer_Path p = [] → ParentPath p = [] ∧ LastToken p = "").
Proof.
  unfold ParentPath, LastToken. split.
  - intros Hne.
    assert (take (length (JSONPointer_Path p) - 1)%nat (JSONPointer_Path p)
            = removelast (JSONPointer_Path p)) as Ht by apply take_removelast.
    destruct (JSONPointer_Path p) as [|x v] eqn:Hv; [done|].
    rewrite Ht. symmetry. by apply app_removelast_last.
  - by intros ->.
Qed.

Lemma Split_plain (seg r : string) :
  plainSegment seg = true →
  Split (seg +:+ r) "/"
  = match Split r "/" with
    | piece :: pieces => (seg +:+ piece) :: pieces
    | [] => [seg]
    end.
Proof.
  destruct (Split_cons r "/") as (piece & pieces & Hr).
  induction seg as [|c seg IH]; intros Hp.
  - by rewrite Hr.
  - cbn [plainSegment] in Hp. apply andb_true_iff in Hp as [Hc Hp].
    apply andb_true_iff in Hc as [Hc _]. apply negb_true_iff in Hc.
    change (String c seg +:+ r) with (String c (seg +:+ r)).
    cbn [Split]. rewrite Hc, (IH Hp). by rewrite Hr.
Qed.

Lemma Split_pointerTo (segs : list string) :
  Forall (λ s, plainSegment s = true) segs →
  Split (pointerTo segs) "/" = "" :: segs.
Proof.
  induction 1 as [|seg rest Hp _ IH]; [done|].
  cbn [pointerTo Split]. rewrite Ascii.eqb_refl. f_equal.
  rewrite (Split_plain _ _ Hp), IH. f_equal.
  clear. induction seg as [|c seg IH]; [done|].
  change (String c seg +:+ "") with (String c (seg +:+ "")). by rewrite IH.
Qed.

Lemma decodeSegment_plain (s : string) :
  plainSegment s = true → decodeSegment s = s.
Proof.
  induction s as [| a | a b r IH1 IH2] using string_pair_ind; try done.
  intros Hp. rewrite decodeSegment_cons2.
  pose proof Hp as Hp'. cbn [plainSegment] in Hp'.
  apply andb_true_iff in Hp' as [Ha Hr]. apply andb_true_iff in Ha as [_ Ha].
  apply negb_true_iff in Ha. rewrite Ha. cbn [andb].
  f_equal. apply IH2. exact Hr.
Qed.

(** X21: the path of a pointer written out segment by segment.  For
    segments that contain neither [/] nor [~], the pointer text with a
    [/] before each segment passes [Check], and [Path] gives back the
    segments, [ParentPath] all but the last of them and [LastToken] the
    last one; the text is the whole-document pointer exactly when there
    is no segment. *)
Theorem Path_of_plain_segments (segs : list string) :
  Forall (λ s, plainSegment s = true) segs →
  JSONPointer_Check (NewJSONPointer (pointerTo segs)) = None
  ∧ JSONPointer_Path (NewJSONPointer (pointerTo segs)) = segs
  ∧ ParentPath (NewJSONPointer (pointerTo segs)) = removelast segs
  ∧ LastToken (NewJSONPointer (pointerTo segs)) = List.last segs ""
  ∧ (IsTheWholeDocument (NewJSONPointer (pointerTo segs)) = true ↔ segs = []).
Proof.
  intros Hp.
  assert (JSONPointer_Path (NewJSONPointer (pointerTo segs)) = segs) as Hpath.
  { unfold JSONPointer_Path. cbn [origin]. rewrite (Split_pointerTo _ Hp).
    cbn [map tail]. clear -Hp. induction Hp as [|seg rest Hs _ IH]; [done|].
    cbn [map]. rewrite IH. f_equal.
    rewrite unescapePath_decode. by apply decodeSegment_plain. }
  split; [by destruct segs|]. split; [done|]. split; [|split].
  - unfold ParentPath. rewrite Hpath. destruct segs as [|x v]; [done|].
    apply take_removelast.
  - unfold LastToken. by rewrite Hpath.
  - unfold IsTheWholeDocument. cbn [origin]. by destruct segs.
Qed.

Lemma Path_of_plain_segments_witness :
  Forall (λ s, plainSegment s = true) ["a"; "0"; "b c"]
  ∧ JSONPointer_Check (NewJSONPointer (pointerTo ["a"; "0"; "b c"])) = None
  ∧ JSONPointer_Path (NewJSONPointer (pointerTo ["a"; "0"; "b c"]))
    = ["a"; "0"; "b c"]
  ∧ ParentPath (NewJSONPointer (pointerTo ["a"; "0"; "b c"]))
    = removelast ["a"; "0"; "b c"]
  ∧ LastToken (NewJSONPointer (pointerTo ["a"; "0"; "b c"]))
    = List.last ["a"; "0"; "b c"] ""
  ∧ (IsTheWholeDocument (NewJSONPointer (pointerTo ["a"; "0"; "b c"])) = true
     ↔ ["a"; "0"; "b c"] = []).
Proof.
  assert (Forall (λ s, plainSegment s = true) ["a"; "0"; "b c"]) as Hp
    by (repeat constructor).
  split; [exact Hp|].
  exact (Path_of_plain_segments ["a"; "0"; "b c"] Hp).
Defined.

(** X22: what [Check] accepts, and the whole document.  A pointer passes
    [Check] exactly when its text is empty or begins with [/]; for a
    pointer that passes, being the whole-document pointer is the same as
    having no segment, so the test that the add and replace operations
    make on the text agrees with an empty path. *)
Theorem JSONPointer_Check_accepts (p : JSONPointer) :
  (JSONPointer_Check p = None
   ↔ origin p = "" ∨ ∃ r, origin p = String "/" r)
  ∧ (JSONPointer_Check p = None →
     (IsTheWholeDocument p = true ↔ JSONPointer_Path p = [])).
Proof.
  unfold JSONPointer_Check, IsTheWholeDocument, JSONPointer_Path.
  destruct (origin p) as [|c r]; [by split; [split; [left|]|]|].
  destruct (Ascii.eqb_spec c "/") as [->|Hne].
  - split; [split; [right; by exists r|done]|]. intros _.
    cbn [Split String.eqb]. rewrite Ascii.eqb_refl. cbn [map tail].
    destruct (Split_cons r "/") as (piece & pieces & ->). done.
  - split; [|done]. split; [done|]. intros [|[r' [= -> _]]]; done.
Qed.

(** ** The index patterns *)

(** X23: the two index patterns, read as grammars.  [indexRE] matches
    exactly the tokens that are [0] or a digit from 1 to 9 followed by
    digits, so no sign, no leading zero and no empty token;
    [negativeIndexRE] matches exactly those tokens and those tokens after
    one [-]. *)
Theorem index_patterns_accept (s : string) :
  MatchString indexRE s = isIndexToken s
  ∧ MatchString negativeIndexRE s = isSignedIndexToken s.
Proof.
  split; [apply indexRE_grammar|apply negativeIndexRE_grammar].
Qed.

(** ** The guard of the move operation *)

(** X24: the move operation never moves from the position behind the last
    element.  When the parent of [from] resolves to an array and the last
    token of [from] resolves to the length of that array (as [-] does),
    the handler stops before any mutator is called: in strict mode it
    returns the "path not exists" error around [ErrNotExists], otherwise
    it returns nil, and in both cases the state is as it was. *)
Theorem moveExtension_from_append_slot (fuel : nat) (p : Options)
    (op : Operation) (path from : string) (v : Slice) (set : Setter)
    (st : state) :
  Path op = Some path → From op = Some from →
  fst (VisitPath p (ParentPath (NewJSONPointer from)) st) = Ok (ASlice v, set) →
  ParseArrayIndex p (lenZ v) (LastToken (NewJSONPointer from)) = inl (lenZ v) →
  moveExtension_Apply fuel p op st
  = if StrictPathExists p then (Err (ErrPathNotExists from ErrNotExists), st)
    else (Ok tt, st).
Proof.
  intros Hpath Hfrom Hv Hi.
  assert (VisitPath p (ParentPath (NewJSONPointer from)) st
          = (Ok (ASlice v, set), st)) as Hrun.
  { pose proof (readonly_VisitPath p (ParentPath (NewJSONPointer from)) st) as Hro.
    destruct (VisitPath p (ParentPath (NewJSONPointer from)) st) as [r st'].
    cbn in Hv, Hro. by subst. }
  unfold moveExtension_Apply. rewrite Hpath, Hfrom. cbn [deref].
  rewrite (bind_Ok _ _ _ _ _ (eq_refl : ret path st = _)).
  rewrite (bind_Ok _ _ _ _ _ (eq_refl : ret from st = _)).
  rewrite (bind_Ok _ _ _ _ _ (orPathNotExists_Ok from _ _ _ _ Hrun)).
  cbn [fst snd].
  assert (visitPathPart p (ASlice v) (LastToken (NewJSONPointer from)) st
          = (Err ErrNotExists, st)) as Hpart.
  { cbn [visitPathPart]. destruct (len v =? 0)%nat; [done|].
    rewrite Hi. cbn [lift]. unfold bind. cbn [ret]. by rewrite Z.eqb_refl. }
  unfold bind, attempt. rewrite Hpart.
  by destruct (StrictPathExists p).
Qed.

Lemma moveExtension_from_append_slot_witness :
  Path (mkOperation (Some "move") (Some "/0") None (Some "/-")) = Some "/0"
  ∧ From (mkOperation (Some "move") (Some "/0") None (Some "/-")) = Some "/-"
  ∧ fst (VisitPath (mkOptions true false) (ParentPath (NewJSONPointer "/-"))
           (mkState (ASlice exSlice) exHeap))
    = Ok (ASlice exSlice, SetRoot)
  ∧ ParseArrayIndex (mkOptions true false) (lenZ exSlice)
      (LastToken (NewJSONPointer "/-")) = inl (lenZ exSlice)
  ∧ moveExtension_Apply 0 (mkOptions true false)
      (mkOperation (Some "move") (Some "/0") None (Some "/-"))
      (mkState (ASlice exSlice) exHeap)
    = (Err (ErrPathNotExists "/-" ErrNotExists),
       mkState (ASlice exSlice) exHeap).
Proof.
  assert (fst (VisitPath (mkOptions true false)
                 (ParentPath (NewJSONPointer "/-"))
                 (mkState (ASlice exSlice) exHeap))
          = Ok (ASlice exSlice, SetRoot)) as Hv by reflexivity.
  assert (ParseArrayIndex (mkOptions true false) (lenZ exSlice)
            (LastToken (NewJSONPointer "/-")) = inl (lenZ exSlice)) as Hi
    by reflexivity.
  split; [reflexivity|]. split; [reflexivity|]. split; [exact Hv|].
  split; [exact Hi|].
  exact (moveExtension_from_append_slot 0 (mkOptions true false)
           (mkOperation (Some "move") (Some "/0") None (Some "/-"))
           "/0" "/-" exSlice SetRoot (mkState (ASlice exSlice) exHeap)
           eq_refl eq_refl Hv Hi).
Defined.
